(** * RajMusic: stream resolution, playback control and queue navigation

    A shallow embedding of the player logic of the RajMusic client.

    The repository holds two variants of the application component and of
    its music service:

    - the id-keyed variant ([AudiusService], [AudiusApp]): tracks come from
      the Audius API, the stream URL is built from the track id, and an
      effect resolves it whenever the current song changes;
    - the title/artist-keyed variant ([PipedService], [PipedApp]): tracks
      come from the iTunes search API with a preview URL, the full stream is
      looked up on a pool of Piped instances inside [handlePlaySong], and a
      preview fallback exists.

    React state is modelled by explicit state passing: a component's
    [useState] cells are the fields of a record, a handler is a function on
    that record, and the part of an [async] handler that runs after an
    [await] is a transition of its own, taking the values the handler had
    captured before suspending.  A handler is evaluated on the state of the
    render that created it: the values it reads are those of the record it
    is applied to.  The listeners of the audio element are created by an
    effect that does not run after every render: the [isPlaying] they read
    is that of the render that registered them, and is carried next to the
    state ([PipedListeners], [AudiusListeners]).  The network and
    [Math.random] are inputs. *)

From Stdlib Require Import ZArith Lia.
From stdpp Require Import base tactics option list strings numbers pretty.

Open Scope string_scope.
Open Scope list_scope.

(** ** JavaScript values the handlers compute with *)

Module Js.

(** Truthiness of a string: every string except the empty one. *)
Definition truthy (s : string) : bool := negb (String.eqb s "").

(** Truthiness of an optional string field ([undefined] is falsy). *)
Definition truthy_opt (o : option string) : bool :=
  match o with
  | Some s => truthy s
  | None => false
  end.

(** [a % b] on integers: the sign follows the dividend, and a zero divisor
    gives [NaN], which is [None] here. *)
Definition rem (a b : Z) : option Z :=
  if (b =? 0)%Z then None else Some (Z.rem a b).

(** [arr[i]] for a number [i]: [NaN], a negative index and an index past
    the end all read [undefined]. *)
Definition index {A} (arr : list A) (i : option Z) : option A :=
  match i with
  | None => None
  | Some z => if (z <? 0)%Z then None else arr !! Z.to_nat z
  end.

(** [arr.findIndex(p)]: the first position whose element satisfies [p],
    or [-1]. *)
Fixpoint findIndex {A} (p : A → bool) (arr : list A) : Z :=
  match arr with
  | [] => -1
  | x :: rest =>
      if p x then 0
      else let k := findIndex p rest in
           if (k <? 0)%Z then -1 else (k + 1)
  end%Z.

(** [arr.find(p)]. *)
Fixpoint find {A} (p : A → bool) (arr : list A) : option A :=
  match arr with
  | [] => None
  | x :: rest => if p x then Some x else find p rest
  end.

(** [s.includes(needle)]: [needle] occurs in [s] as a substring. *)
Fixpoint includes (needle s : string) : bool :=
  String.prefix needle s ||
  match s with
  | EmptyString => false
  | String _ rest => includes needle rest
  end.

(** [s.split(sep)] for a non-empty separator.  [skip] counts the
    characters of a matched separator still to be dropped and [piece]
    holds the current piece, last character first. *)
Fixpoint split_from (sep : string) (skip : nat) (piece : string) (s : string)
  : list string :=
  match s with
  | EmptyString => [String.rev piece]
  | String c rest =>
      match skip with
      | S k => split_from sep k piece rest
      | O =>
          if String.prefix sep s
          then String.rev piece
               :: split_from sep (String.length sep - 1) EmptyString rest
          else split_from sep 0 (String c piece) rest
      end
  end.

Definition split (sep s : string) : list string :=
  split_from sep 0 EmptyString s.

End Js.

(** ** Tracks ([types.ts])

    [duration], a floating-point number of seconds that no handler reads,
    is left out.  The optional fields [videoId], [previewUrl] and [lyrics]
    are [None] when absent; the optional boolean [isLocal] is only ever
    tested for truthiness, so an absent one is [false].  The id-keyed
    variant declares [hasLyrics] instead of [videoId] and [previewUrl]; its
    handlers read neither. *)

Record Song := mkSong {
  id : string;
  videoId : option string;
  title : string;
  artist : string;
  album : string;
  coverUrl : string;
  audioUrl : string;
  previewUrl : option string;
  isLocal : bool;
  lyrics : option string
}.

(** [{ ...song, audioUrl: url }] *)
Definition withAudioUrl (url : string) (song : Song) : Song :=
  {| id := id song; videoId := videoId song; title := title song;
     artist := artist song; album := album song; coverUrl := coverUrl song;
     audioUrl := url; previewUrl := previewUrl song; isLocal := isLocal song;
     lyrics := lyrics song |}.

(** [s.id === song.id] *)
Definition sameId (song s : Song) : bool := String.eqb (id s) (id song).

(** [current?.id === song.id]: with no current song the left side is
    [undefined], never equal to a string. *)
Definition isCurrent (current : option Song) (song : Song) : bool :=
  match current with
  | Some c => String.eqb (id c) (id song)
  | None => false
  end.

(** ** Code that may throw

    [Throw] stands for a JavaScript exception (here always a [TypeError]
    raised by reading a property of [undefined]). *)

Inductive Exec (A : Type) : Type :=
  | Ok (a : A)
  | Throw.
Arguments Ok {A} a.
Arguments Throw {A}.

Definition bindE {A B} (e : Exec A) (k : A → Exec B) : Exec B :=
  match e with
  | Ok a => k a
  | Throw => Throw
  end.

(** [arr.find(p)] for a callback that may throw: the exception leaves the
    search at the first element on which it is raised. *)
Fixpoint findE {A} (p : A → Exec bool) (arr : list A) : Exec (option A) :=
  match arr with
  | [] => Ok None
  | x :: rest =>
      bindE (p x) (λ b, if b then Ok (Some x) else findE p rest)
  end.

(** Outcome of [await fetchWithTimeout(url, ms)] followed by
    [await response.json()]. *)
Inductive Response (A : Type) : Type :=
  | Rejected
      (* the request failed, or the timer aborted it: [fetch] throws *)
  | Replied (ok : bool) (body : option A).
      (* [body = None]: [response.json()] throws on a malformed payload *)
Arguments Rejected {A}.
Arguments Replied {A} ok body.

(** What [getStreamUrl] hands to its caller: a string, [undefined] or
    [null]. *)
Inductive StreamUrl : Type :=
  | Url (u : string)
  | Undefined
  | Null.

(** [if (streamUrl)] *)
Definition usable (r : StreamUrl) : bool :=
  match r with
  | Url u => Js.truthy u
  | Undefined | Null => false
  end.

(** ** The title/artist-keyed music service ([services/musicService.ts]) *)

Module PipedService.

Definition STREAM_APIS : list string :=
  [ "https://pipedapi.kavin.rocks"; "https://api.piped.ot.ax";
    "https://pipedapi.drgns.space"; "https://pa.il.ax";
    "https://pipedapi.system41.com"; "https://api.piped.privacy.com.de";
    "https://piped-api.lunar.icu"; "https://ytapi.dc09.ru";
    "https://api.piped.r4fo.com"; "https://pipedapi.smnz.de";
    "https://api-piped.mha.fi"; "https://pipedapi.tokhmi.xyz";
    "https://piped-api.garudalinux.org" ].

(** An entry of [searchData.items]. *)
Module Item.
Record t := mk { type : option string; url : option string }.
End Item.

(** An entry of [streamData.audioStreams].  [mimeType] is [None] when the
    field is missing or [null]: reading [.includes] of either throws.
    [url] is the field as the reply holds it: a string, [null], or
    [Undefined] when it is missing. *)
Module Stream.
Record t := mk { mimeType : option string; url : StreamUrl }.
End Stream.

Record SearchData := { items : option (list Item.t) }.
Record StreamData := { audioStreams : option (list Stream.t) }.

Inductive Request : Type :=
  | SearchReq (instance query : string)
  | StreamsReq (instance videoId : string).

(** The replies of the instances: to [`${instance}/search?q=...`] for a
    query and to [`${instance}/streams/${videoId}`]. *)
Record Network := {
  search : string → string → Response SearchData;
  streams : string → string → Response StreamData
}.

(** [s.mimeType.includes('mp4') || s.mimeType.includes('m4a')] *)
Definition isMp4 (s : Stream.t) : Exec bool :=
  match Stream.mimeType s with
  | Some m => Ok (Js.includes "mp4" m || Js.includes "m4a" m)
  | None => Throw
  end.

(** [s.mimeType.includes('webm')] *)
Definition isWebm (s : Stream.t) : Exec bool :=
  match Stream.mimeType s with
  | Some m => Ok (Js.includes "webm" m)
  | None => Throw
  end.

(** Lines 141-143: [find(mp4 or m4a) || find(webm) || audioStreams[0]];
    [None] is [undefined]. *)
Definition bestStream (audioStreams : list Stream.t) : Exec (option Stream.t) :=
  bindE (findE isMp4 audioStreams) (λ mp4,
    match mp4 with
    | Some s => Ok (Some s)
    | None =>
        bindE (findE isWebm audioStreams) (λ webm,
          match webm with
          | Some s => Ok (Some s)
          | None => Ok (head audioStreams)
          end)
    end).

(** Line 128:
    [items.find(i => i.type === 'stream')?.url.split('/watch?v=')[1]].
    The optional chain stops the whole expression when nothing is found;
    a found item without [url] makes [.split] throw. *)
Definition videoIdOf (items : list Item.t) : Exec (option string) :=
  match Js.find (λ i, bool_decide (Item.type i = Some "stream")) items with
  | None => Ok None
  | Some i =>
      match Item.url i with
      | None => Throw
      | Some u => Ok (Js.split "/watch?v=" u !! 1)
      end
  end.

(** How one turn of the loop over the instances ends. *)
Inductive Step : Type :=
  | Continue
  | Return (v : StreamUrl).

(** [return bestStream.url]: the field is handed to the caller as it
    is. *)
Definition urlOf (s : Stream.t) : StreamUrl := Stream.url s.

Section Resolver.
Variable net : Network.

(** Lines 132-146, once a video id is known. *)
Definition fetchStream (instance videoId : string) : Step :=
  match streams net instance videoId with
  | Rejected => Continue
  | Replied false _ => Continue
  | Replied true None => Continue
  | Replied true (Some streamData) =>
      match audioStreams streamData with
      | None | Some [] => Continue
      | Some l =>
          match bestStream l with
          | Throw => Continue
          | Ok None => Continue
          | Ok (Some best) => Return (urlOf best)
          end
      end
  end.

(** Lines 116-150: the body of the loop for one instance, with the
    requests it sends.  Every [continue], every exception caught at
    line 147 and falling out of the [if] at line 138 is [Continue]. *)
Definition tryInstance (query instance : string) : list Request * Step :=
  match search net instance query with
  | Rejected => ([SearchReq instance query], Continue)
  | Replied false _ => ([SearchReq instance query], Continue)
  | Replied true None => ([SearchReq instance query], Continue)
  | Replied true (Some searchData) =>
      match items searchData with
      | None | Some [] => ([SearchReq instance query], Continue)
      | Some its =>
          match videoIdOf its with
          | Throw | Ok None => ([SearchReq instance query], Continue)
          | Ok (Some videoId) =>
              if Js.truthy videoId
              then ([SearchReq instance query; StreamsReq instance videoId],
                    fetchStream instance videoId)
              else ([SearchReq instance query], Continue)
          end
      end
  end.

(** Lines 115-153: the loop, and [return null] after it. *)
Fixpoint resolveOn (query : string) (instances : list string)
  : list Request * StreamUrl :=
  match instances with
  | [] => ([], Null)
  | instance :: rest =>
      match tryInstance query instance with
      | (reqs, Return v) => (reqs, v)
      | (reqs, Continue) =>
          let '(more, r) := resolveOn query rest in (reqs ++ more, r)
      end
  end.

(** [getStreamUrl(title, artist)].  [cleanQuery] is the query string of
    lines 107-110 and [instances] the pool as [sort] shuffled it at
    line 113; the result comes with the requests sent, in order. *)
Definition getStreamUrl (cleanQuery : string → string → string)
    (instances : list string) (title artist : string)
  : list Request * StreamUrl :=
  resolveOn (cleanQuery title artist) instances.

End Resolver.

(** *** Search ([searchSongs], [getFeaturedSongs]) *)

Definition FALLBACK_SONGS : list Song :=
  [ {| id := "fb1"; videoId := None; title := "Blinding Lights";
       artist := "The Weeknd"; album := "After Hours";
       coverUrl := "https://upload.wikimedia.org/wikipedia/en/e/e6/The_Weeknd_-_Blinding_Lights.png";
       audioUrl := "https://www.soundhelix.com/examples/mp3/SoundHelix-Song-1.mp3";
       previewUrl := None; isLocal := false; lyrics := None |};
    {| id := "fb2"; videoId := None; title := "Shape of You";
       artist := "Ed Sheeran"; album := "Divide";
       coverUrl := "https://upload.wikimedia.org/wikipedia/en/4/45/Divide_cover.png";
       audioUrl := "https://www.soundhelix.com/examples/mp3/SoundHelix-Song-2.mp3";
       previewUrl := None; isLocal := false; lyrics := None |} ].

Definition trendingSearches : list string :=
  [ "Top Hits 2024"; "Global Top 50"; "Billboard Hot 100"; "Viral Hits";
    "Punjabi Hits"; "Lofi Beats"; "Taylor Swift"; "Arijit Singh";
    "The Weeknd" ].

Section Search.
(** The reply of the iTunes search to a term, its [results] already
    mapped to songs as lines 74-84 do; the body is [Some None] when
    [data.results] is missing or an entry cannot be mapped (the mapping
    throws). *)
Variable itunes : string → Response (option (list Song)).

(** [Math.floor(Math.random() * trendingSearches.length)] *)
Variable pick : nat.

(** Lines 66-89: the [try] block and its [catch]. *)
Definition searchRemote (query : string) : list Song :=
  match itunes query with
  | Replied true (Some (Some songs)) => songs
  | _ => FALLBACK_SONGS
  end.

(** [searchSongs] and [getFeaturedSongs] call each other; [fuel] bounds
    the depth of the calls and [None] means it ran out.  The result
    comes with the terms sent to the search provider.  An [undefined]
    query (an index outside [trendingSearches]) is falsy like the empty
    string and is modelled by it. *)
Fixpoint searchSongs (fuel : nat) (query : string) {struct fuel}
  : option (list string * list Song) :=
  match fuel with
  | O => None
  | S fuel' =>
      if negb (Js.truthy query) then getFeaturedSongs fuel'
      else Some ([query], searchRemote query)
  end
with getFeaturedSongs (fuel : nat) {struct fuel}
  : option (list string * list Song) :=
  match fuel with
  | O => None
  | S fuel' =>
      let randomQuery := default "" (trendingSearches !! pick) in
      searchSongs fuel' randomQuery
  end.

End Search.

End PipedService.

(** ** The id-keyed music service (the Audius [musicService]) *)

Module AudiusService.

Definition APP_NAME : string := "RajMusic_Client".

(** An entry of the [data] array of a reply. *)
Module Item.
Record t := mk {
  id : option string;
  title : option string;
  userName : option string;    (* [item.user?.name] *)
  genre : option string;
  artwork : option (option string * option string)
    (* [item.artwork] with its '480x480' and '150x150' entries *)
}.
End Item.

(** A decoded reply; the entries of [data] may be [null]. *)
Record Payload := { data : option (list (option Item.t)) }.

Inductive Endpoint : Type :=
  | Trending                       (* [/v1/tracks/trending] *)
  | SearchTracks (query : string). (* [/v1/tracks/search?query=...] *)

(** [a || b] on optional strings. *)
Definition orElse (a b : option string) : option string :=
  if Js.truthy_opt a then a else b.

Definition mapAudiusSong (item : option Item.t) : option Song :=
  match item with
  | None => None
  | Some it =>
      if negb (Js.truthy_opt (Item.id it)) || negb (Js.truthy_opt (Item.title it))
      then None
      else Some
        {| id := default "" (Item.id it);
           videoId := None;
           title := default "" (Item.title it);
           artist := default "" (orElse (Item.userName it) (Some "Unknown Artist"));
           album := default "" (orElse (Item.genre it) (Some "Single"));
           coverUrl :=
             match Item.artwork it with
             | Some (large, small) => default "" (orElse large small)
             | None => "https://images.unsplash.com/photo-1493225255756-d9584f8606e9?w=400&h=400&fit=crop"
             end;
           audioUrl := "";
           previewUrl := None;
           isLocal := false;
           lyrics := None |}
  end.

Definition FALLBACK_SONGS : list Song :=
  [ {| id := "local-1"; videoId := None; title := "Lost in the City";
       artist := "Neon Dreams"; album := "Cyber Vibes";
       coverUrl := "https://images.unsplash.com/photo-1496293455970-f8581aae0e3c?w=600&h=600&fit=crop";
       audioUrl := "https://cdn.pixabay.com/audio/2022/03/10/audio_5a21350a4b.mp3";
       previewUrl := None; isLocal := false; lyrics := None |};
    {| id := "local-2"; videoId := None; title := "Midnight Drive";
       artist := "Retro Wave"; album := "Synth Collection";
       coverUrl := "https://images.unsplash.com/photo-1492144534655-ae79c964c9d7?w=600&h=600&fit=crop";
       audioUrl := "https://cdn.pixabay.com/audio/2022/03/15/audio_734005273a.mp3";
       previewUrl := None; isLocal := false; lyrics := None |};
    {| id := "local-3"; videoId := None; title := "Deep Focus";
       artist := "Mindset"; album := "Work Flow";
       coverUrl := "https://images.unsplash.com/photo-1511379938547-c1f69419868d?w=600&h=600&fit=crop";
       audioUrl := "https://cdn.pixabay.com/audio/2022/05/27/audio_1808fbf87a.mp3";
       previewUrl := None; isLocal := false; lyrics := None |} ].

(** [data.data.map(mapAudiusSong).filter(s => s)] *)
Definition mapped (entries : list (option Item.t)) : list Song :=
  omap mapAudiusSong entries.

Section Fetch.
(** [fetchJson(endpoint)]: the decoded reply, or [null] when the host
    lookup, the request, the status check or the decoding fails. *)
Variable fetchJson : Endpoint → option Payload.

(** Both functions return the endpoints they requested with the songs. *)
Definition getFeaturedSongs : list Endpoint * list Song :=
  ([Trending],
   match fetchJson Trending with
   | Some {| data := Some entries |} => mapped entries
   | _ => FALLBACK_SONGS
   end).

Definition searchSongs (query : string) : list Endpoint * list Song :=
  if negb (Js.truthy query) then getFeaturedSongs
  else
    ([SearchTracks query],
     match fetchJson (SearchTracks query) with
     | Some {| data := Some entries |} => mapped entries
     | _ => []
     end).
End Fetch.

(** [getStreamUrl(songId)], for the host that [getHost] answered. *)
Definition getStreamUrl (host songId : string) : string :=
  (host +:+ "/v1/tracks/" +:+ songId +:+ "/stream?app_name=" +:+ APP_NAME)%string.

End AudiusService.

(** ** The audio element

    The sink of both variants is an [HTMLAudioElement].  Assigning its
    source runs the media element load algorithm, which pauses the element
    and sets the playback position to 0; [play()] and [pause()] set the
    paused flag.  The position is kept in whole seconds. *)

Module Audio.

Record t := mk {
  src : option string;
  currentTime : Z;
  paused : bool
}.

Definition initial : t := {| src := None; currentTime := 0; paused := true |}.

Definition load (source : option string) (a : t) : t :=
  {| src := source; currentTime := 0; paused := true |}.

Definition play (a : t) : t :=
  {| src := src a; currentTime := currentTime a; paused := false |}.

Definition pause (a : t) : t :=
  {| src := src a; currentTime := currentTime a; paused := true |}.

End Audio.

Inductive ViewState : Type := home | search | library | ai_dj.

(** [slice(0, 5)], one search per title, and the first result of every
    search that has one (lines 389-393 and 964-969).  [searchSongs i title]
    is what the [i]-th call, made for [title], resolves to. *)
Definition searchAll (searchSongs : nat → string → list Song)
    (suggestedTitles : list string) : list (list Song) :=
  imap searchSongs (take 5 suggestedTitles).

Definition firstOfEach (results : list (list Song)) : list Song :=
  flat_map (λ resList, match resList with
                       | first :: _ => [first]
                       | [] => []
                       end) results.

(** What a call of an [async] handler leaves behind. *)
Inductive Pending : Type :=
  | Settled                  (* it ran to its end *)
  | Awaiting (song : Song)   (* suspended at [await getStreamUrl(...)] for [song] *)
  | Failed.                  (* it threw: the promise it returned is rejected *)

(** ** The title/artist-keyed application component
    ([src/unnamed/part_000], lines 692-1373) *)

Module PipedApp.

Record State := mkState {
  songs : list Song;
  currentSong : option Song;
  isPlaying : bool;
  isResolvingAudio : bool;
  usingPreview : bool;
  showLyrics : bool;
  view : ViewState;
  aiPrompt : string;
  isAiLoading : bool;
  audio : Audio.t;           (* [audioRef.current] *)
  alerts : list string       (* the messages shown by [alert], oldest first *)
}.

Definition initial : State :=
  {| songs := []; currentSong := None; isPlaying := false;
     isResolvingAudio := false; usingPreview := false; showLyrics := false;
     view := home; aiPrompt := ""; isAiLoading := false;
     audio := Audio.initial; alerts := [] |}.

Definition setSongs v st :=
  mkState v (currentSong st) (isPlaying st) (isResolvingAudio st)
    (usingPreview st) (showLyrics st) (view st) (aiPrompt st)
    (isAiLoading st) (audio st) (alerts st).
Definition setCurrentSong v st :=
  mkState (songs st) v (isPlaying st) (isResolvingAudio st)
    (usingPreview st) (showLyrics st) (view st) (aiPrompt st)
    (isAiLoading st) (audio st) (alerts st).
Definition setIsPlaying v st :=
  mkState (songs st) (currentSong st) v (isResolvingAudio st)
    (usingPreview st) (showLyrics st) (view st) (aiPrompt st)
    (isAiLoading st) (audio st) (alerts st).
Definition setIsResolvingAudio v st :=
  mkState (songs st) (currentSong st) (isPlaying st) v
    (usingPreview st) (showLyrics st) (view st) (aiPrompt st)
    (isAiLoading st) (audio st) (alerts st).
Definition setUsingPreview v st :=
  mkState (songs st) (currentSong st) (isPlaying st) (isResolvingAudio st)
    v (showLyrics st) (view st) (aiPrompt st)
    (isAiLoading st) (audio st) (alerts st).
Definition setShowLyrics v st :=
  mkState (songs st) (currentSong st) (isPlaying st) (isResolvingAudio st)
    (usingPreview st) v (view st) (aiPrompt st)
    (isAiLoading st) (audio st) (alerts st).
Definition setView v st :=
  mkState (songs st) (currentSong st) (isPlaying st) (isResolvingAudio st)
    (usingPreview st) (showLyrics st) v (aiPrompt st)
    (isAiLoading st) (audio st) (alerts st).
Definition setAiPrompt v st :=
  mkState (songs st) (currentSong st) (isPlaying st) (isResolvingAudio st)
    (usingPreview st) (showLyrics st) (view st) v
    (isAiLoading st) (audio st) (alerts st).
Definition setIsAiLoading v st :=
  mkState (songs st) (currentSong st) (isPlaying st) (isResolvingAudio st)
    (usingPreview st) (showLyrics st) (view st) (aiPrompt st)
    v (audio st) (alerts st).
Definition setAudio v st :=
  mkState (songs st) (currentSong st) (isPlaying st) (isResolvingAudio st)
    (usingPreview st) (showLyrics st) (view st) (aiPrompt st)
    (isAiLoading st) v (alerts st).
Definition alert (message : string) st :=
  mkState (songs st) (currentSong st) (isPlaying st) (isResolvingAudio st)
    (usingPreview st) (showLyrics st) (view st) (aiPrompt st)
    (isAiLoading st) (audio st) (alerts st ++ [message]).

(** *** Rendering: the [<audio>] element and the effect that drives it *)

(** Line 1134, the [src] attribute:
    [usingPreview && currentSong?.previewUrl ? currentSong.previewUrl
                                             : currentSong?.audioUrl]. *)
Definition srcProp (st : State) : option string :=
  match currentSong st with
  | None => None
  | Some c =>
      if usingPreview st && Js.truthy_opt (previewUrl c)
      then previewUrl c
      else Some (audioUrl c)
  end.

(** React writes the attribute when its value changes, and the element
    then carries it.  The only other write to the source is that of
    [onError], which writes the value that the next render gives the
    attribute; so the attribute is written when it differs from what the
    element carries. *)
Definition applySrc (st : State) : State :=
  if decide (Audio.src (audio st) = srcProp st) then st
  else setAudio (Audio.load (srcProp st) (audio st)) st.

(** Lines 814-825.  The effect reads nothing but its dependencies and
    [play()] and [pause()] are idempotent, so it is run at every render.
    A rejection of [play()] (blocked autoplay) is an event of its own and
    is not part of a render. *)
Definition syncAudio (st : State) : State :=
  match currentSong st with
  | Some c =>
      if negb (isResolvingAudio st) && (Js.truthy (audioUrl c) || usingPreview st)
      then
        if isPlaying st then setAudio (Audio.play (audio st)) st
        else setAudio (Audio.pause (audio st)) st
      else st
  | None => st
  end.

Definition render (st : State) : State := syncAudio (applySrc st).

(** *** Handlers *)

(** Lines 846-869, up to the [await].  [contextSongs !== songs] compares
    identities; setting the queue to a list of equal content leaves the
    record as it is, so the queue is set whenever a context is given. *)
Definition handlePlaySong (song : Song) (contextSongs : option (list Song))
    (st : State) : State * Pending :=
  let st1 := match contextSongs with
             | Some queue => setSongs queue st
             | None => st
             end in
  if isCurrent (currentSong st) song
  then (setIsPlaying (negb (isPlaying st)) st1, Settled)
  else
    let st2 := setUsingPreview false
                 (setShowLyrics false
                    (setIsPlaying true
                       (setCurrentSong (Some song) st1))) in
    if isLocal song || (Js.truthy (audioUrl song) && (5 <? String.length (audioUrl song))%nat)
    then (setIsResolvingAudio false st2, Settled)
    else (setIsResolvingAudio true st2, Awaiting song).

(** Lines 870-895: what runs once [getStreamUrl(song.title, song.artist)]
    has settled for the captured [song]; [Throw] is a rejection. *)
Definition resolved (song : Song) (streamUrl : Exec StreamUrl) (st : State)
  : State :=
  let fallback (notify : bool) :=
    if Js.truthy_opt (previewUrl song) then setUsingPreview true st
    else setIsPlaying false
           (if notify then alert "Song unavailable." st else st) in
  setIsResolvingAudio false
    match streamUrl with
    | Ok (Url u) =>
        if Js.truthy u then
          let updatedSong := withAudioUrl u song in
          setSongs (map (λ s, if sameId song s then updatedSong else s) (songs st))
            (setCurrentSong (Some updatedSong) st)
        else fallback true
    | Ok Undefined | Ok Null => fallback true
    | Throw => fallback false
    end.

Definition handleAddToQueue (song : Song) (st : State) : State :=
  alert "Added to queue!" (setSongs (songs st ++ [song]) st).

(** Lines 931-943.  [handlePlaySong(undefined)] throws at [song.id]
    before it has set anything. *)
Definition playAt (position : option Z) (st : State) : State * Pending :=
  match Js.index (songs st) position with
  | Some song => handlePlaySong song None st
  | None => (st, Failed)
  end.

Definition handleNext (st : State) : State * Pending :=
  match currentSong st with
  | None => (st, Settled)
  | Some c =>
      let currentIndex := Js.findIndex (sameId c) (songs st) in
      let nextIndex := Js.rem (currentIndex + 1) (Z.of_nat (length (songs st))) in
      playAt nextIndex st
  end.

Definition handlePrev (st : State) : State * Pending :=
  match currentSong st with
  | None => (st, Settled)
  | Some c =>
      let currentIndex := Js.findIndex (sameId c) (songs st) in
      let prevIndex :=
        Js.rem (currentIndex - 1 + Z.of_nat (length (songs st)))
               (Z.of_nat (length (songs st))) in
      playAt prevIndex st
  end.

(** The play button of the full player, line 1334:
    [!isResolvingAudio && setIsPlaying(!isPlaying)]. *)
Definition togglePlay (st : State) : State :=
  if isResolvingAudio st then st else setIsPlaying (negb (isPlaying st)) st.

(** *** The listeners of the audio element (lines 778-812)

    The effect that registers the listeners has the dependencies
    [[songs, currentSong, usingPreview]] (line 812; line 811 switches off
    the rule that asks for every value read).  The listeners, and the
    [handleNext] and [handlePlaySong] that they call, are the closures of
    the render that registered them: what they read of [songs],
    [currentSong] and [usingPreview] is current, while the [isPlaying]
    they read is the value [held] of that render.  What they set, they set
    in the current state. *)

(** [handlePlaySong(songs[nextIndex])] as the listeners call it: without
    context; the same-track branch sets [!isPlaying] from the held value,
    the other branch does not read [isPlaying]. *)
Definition handlePlaySongHeld (held : bool) (song : Song) (st : State)
  : State * Pending :=
  if isCurrent (currentSong st) song
  then (setIsPlaying (negb held) st, Settled)
  else handlePlaySong song None st.

Definition handleNextHeld (held : bool) (st : State) : State * Pending :=
  match currentSong st with
  | None => (st, Settled)
  | Some c =>
      let currentIndex := Js.findIndex (sameId c) (songs st) in
      let nextIndex := Js.rem (currentIndex + 1) (Z.of_nat (length (songs st))) in
      match Js.index (songs st) nextIndex with
      | Some song => handlePlaySongHeld held song st
      | None => (st, Failed)
      end
  end.

(** Line 784. *)
Definition onEnded (held : bool) (st : State) : State * Pending :=
  handleNextHeld held st.

(** Lines 785-798. *)
Definition onError (held : bool) (st : State) : State * Pending :=
  let preview := currentSong st ≫= previewUrl in
  if held && negb (usingPreview st) && Js.truthy_opt preview
  then (setAudio (Audio.play (Audio.load preview (audio st)))
          (setUsingPreview true st), Settled)
  else if held then handleNextHeld held st
  else (st, Settled).

(** Lines 955-980.  [handleAIGenerate] has two parts: up to the first
    [await], and from the moment the suggestions and all searches have
    settled. *)
Definition handleAIGenerate (st : State) : option State :=
  if negb (Js.truthy (aiPrompt st)) then None
  else Some (setIsAiLoading true st).

Definition generated (suggestedTitles : list string)
    (searchSongs : nat → string → list Song) (st : State) : State * Pending :=
  let newPlaylist := firstOfEach (searchAll searchSongs suggestedTitles) in
  let '(st1, pending) :=
    match newPlaylist with
    | first :: _ =>
        handlePlaySong first (Some newPlaylist)
          (setView home (setAiPrompt "" (setSongs newPlaylist st)))
    | [] => (alert "AI couldn't find matches. Try simpler keywords." st, Settled)
    end in
  (setIsAiLoading false st1, pending).

(** *** Events: a handler followed by the render it causes *)

Definition rendered (r : State * Pending) : State * Pending :=
  (render r.1, r.2).

Definition play (song : Song) (contextSongs : option (list Song)) (st : State)
  : State * Pending :=
  rendered (handlePlaySong song contextSongs st).

Definition resolve (song : Song) (streamUrl : Exec StreamUrl) (st : State)
  : State :=
  render (resolved song streamUrl st).

Definition next (st : State) : State * Pending := rendered (handleNext st).
Definition previous (st : State) : State * Pending := rendered (handlePrev st).
Definition error (held : bool) (st : State) : State * Pending :=
  rendered (onError held st).
Definition ended (held : bool) (st : State) : State * Pending :=
  rendered (onEnded held st).

End PipedApp.

#[global] Instance Song_eq_dec : EqDecision Song.
Proof. solve_decision. Defined.

(** ** The id-keyed application component
    ([src/unnamed/part_000], lines 1-690) *)

Module AudiusApp.

Inductive PlayerViewMode : Type := art | lyrics_mode | eq_mode.

Record State := mkState {
  songs : list Song;
  currentSong : option Song;
  isPlaying : bool;
  playerMode : PlayerViewMode;
  view : ViewState;
  aiPrompt : string;
  isAiLoading : bool;
  audio : Audio.t;
  alerts : list string
}.

Definition initial : State :=
  {| songs := []; currentSong := None; isPlaying := false; playerMode := art;
     view := home; aiPrompt := ""; isAiLoading := false;
     audio := Audio.initial; alerts := [] |}.

Definition setSongs v st :=
  mkState v (currentSong st) (isPlaying st) (playerMode st) (view st)
    (aiPrompt st) (isAiLoading st) (audio st) (alerts st).
Definition setCurrentSong v st :=
  mkState (songs st) v (isPlaying st) (playerMode st) (view st)
    (aiPrompt st) (isAiLoading st) (audio st) (alerts st).
Definition setIsPlaying v st :=
  mkState (songs st) (currentSong st) v (playerMode st) (view st)
    (aiPrompt st) (isAiLoading st) (audio st) (alerts st).
Definition setPlayerMode v st :=
  mkState (songs st) (currentSong st) (isPlaying st) v (view st)
    (aiPrompt st) (isAiLoading st) (audio st) (alerts st).
Definition setView v st :=
  mkState (songs st) (currentSong st) (isPlaying st) (playerMode st) v
    (aiPrompt st) (isAiLoading st) (audio st) (alerts st).
Definition setAiPrompt v st :=
  mkState (songs st) (currentSong st) (isPlaying st) (playerMode st) (view st)
    v (isAiLoading st) (audio st) (alerts st).
Definition setIsAiLoading v st :=
  mkState (songs st) (currentSong st) (isPlaying st) (playerMode st) (view st)
    (aiPrompt st) v (audio st) (alerts st).
Definition setAudio v st :=
  mkState (songs st) (currentSong st) (isPlaying st) (playerMode st) (view st)
    (aiPrompt st) (isAiLoading st) v (alerts st).
Definition alert (message : string) st :=
  mkState (songs st) (currentSong st) (isPlaying st) (playerMode st) (view st)
    (aiPrompt st) (isAiLoading st) (audio st) (alerts st ++ [message]).

(** *** Rendering *)

(** Line 423: [src={currentSong?.audioUrl}]. *)
Definition srcProp (st : State) : option string :=
  audioUrl <$> currentSong st.

Definition applySrc (st : State) : State :=
  if decide (Audio.src (audio st) = srcProp st) then st
  else setAudio (Audio.load (srcProp st) (audio st)) st.

(** Lines 183-191. *)
Definition syncAudio (st : State) : State :=
  match currentSong st with
  | Some c =>
      if Js.truthy (audioUrl c)
      then
        if isPlaying st then setAudio (Audio.play (audio st)) st
        else setAudio (Audio.pause (audio st)) st
      else st
  | None => st
  end.

Definition render (st : State) : State := syncAudio (applySrc st).

(** *** The effect that resolves the stream URL (lines 171-180) *)

(** The song for which the effect calls [getStreamUrl(currentSong.id)]. *)
Definition autoResolve (st : State) : option Song :=
  match currentSong st with
  | Some c =>
      if negb (isLocal c) && negb (Js.truthy (audioUrl c)) then Some c else None
  | None => None
  end.

(** The [then] callback of that call, for the song the effect captured;
    [cancelled] is the flag that the cleanup of the effect sets. *)
Definition resolved (cancelled : bool) (captured : Song) (url : string)
    (st : State) : State :=
  if cancelled then st
  else
    setCurrentSong
      match currentSong st with
      | Some prev =>
          if String.eqb (id prev) (id captured)
          then Some (withAudioUrl url prev)
          else Some prev
      | None => None
      end st.

(** *** Handlers *)

(** Lines 300-314; [None] is a [null] or [undefined] song. *)
Definition handlePlaySong (song : option Song)
    (contextSongs : option (list Song)) (st : State) : State :=
  match song with
  | None => st
  | Some song =>
      if negb (Js.truthy (id song)) then st
      else
        let st1 := match contextSongs with
                   | Some queue => setSongs queue st
                   | None => st
                   end in
        if isCurrent (currentSong st) song
        then setIsPlaying (negb (isPlaying st)) st1
        else setPlayerMode art
               (setIsPlaying true (setCurrentSong (Some song) st1))
  end.

Definition handleAddToQueue (song : Song) (st : State) : State :=
  setSongs (songs st ++ [song]) st.

(** Lines 348-354 and 362-368: the updaters given to [setCurrentSong]. *)
Definition nextSong (prevSongs : list Song) (curr : option Song) : option Song :=
  match curr with
  | None => curr
  | Some c =>
      if (length prevSongs =? 0)%nat then curr
      else
        let currentIndex := Js.findIndex (sameId c) prevSongs in
        let safeIndex := if (currentIndex =? -1)%Z then 0%Z else currentIndex in
        let nextIndex := Js.rem (safeIndex + 1) (Z.of_nat (length prevSongs)) in
        Js.index prevSongs nextIndex
  end.

Definition prevSong (prevSongs : list Song) (curr : option Song) : option Song :=
  match curr with
  | None => curr
  | Some c =>
      if (length prevSongs =? 0)%nat then curr
      else
        let currentIndex := Js.findIndex (sameId c) prevSongs in
        let safeIndex := if (currentIndex =? -1)%Z then 0%Z else currentIndex in
        let prevIndex :=
          Js.rem (safeIndex - 1 + Z.of_nat (length prevSongs))
                 (Z.of_nat (length prevSongs)) in
        Js.index prevSongs prevIndex
  end.

(** Lines 346-372. *)
Definition handleNext (st : State) : State :=
  setIsPlaying true (setCurrentSong (nextSong (songs st) (currentSong st)) st).

Definition handlePrev (st : State) : State :=
  setIsPlaying true (setCurrentSong (prevSong (songs st) (currentSong st)) st).

(** The play button of the full player, line 676:
    [setIsPlaying(!isPlaying)]. *)
Definition togglePlay (st : State) : State :=
  setIsPlaying (negb (isPlaying st)) st.

(** Lines 143-168, the listeners of the audio element.  The effect that
    registers them has the dependencies [[songs, currentSong]]: the
    [isPlaying] that [onError] reads is the value [held] of the render
    that registered it.  [handleNext] reads the state through the updaters
    it gives to the setters, so it acts on the current state.  [onError]
    arms a timer; [Some (ms, k)] says that [k] runs after [ms]
    milliseconds. *)
Definition onEnded (st : State) : State := handleNext st.

Definition onError (held : bool) : option (nat * (State → State)) :=
  if held then Some (1000, handleNext) else None.

(** Lines 384-406, in two parts as in the other variant; [featured] is
    what [getFeaturedSongs()] resolves to. *)
Definition handleAIGenerate (st : State) : option State :=
  if negb (Js.truthy (aiPrompt st)) then None
  else Some (setIsAiLoading true st).

Definition generated (suggestedTitles : list string)
    (searchSongs : nat → string → list Song) (featured : list Song)
    (st : State) : State :=
  let newPlaylist := firstOfEach (searchAll searchSongs suggestedTitles) in
  setIsAiLoading false
    match newPlaylist with
    | first :: _ =>
        handlePlaySong (Some first) (Some newPlaylist)
          (setView home (setAiPrompt "" (setSongs newPlaylist st)))
    | [] =>
        setView home
          (setSongs featured
             (alert "AI suggestion not found in library. Playing trending hits." st))
    end.

(** *** Events: a handler, the render it causes, and the resolution that
    the effect of lines 171-180 starts

    The effect depends on [currentSong]: it runs again when the handler
    has changed the current song, and then calls [getStreamUrl] for the
    song that [autoResolve] gives. *)

Definition commit (before after : State) : State * option Song :=
  (render after,
   if decide (currentSong before = currentSong after) then None
   else autoResolve after).

Definition play (song : option Song) (contextSongs : option (list Song))
    (st : State) : State * option Song :=
  commit st (handlePlaySong song contextSongs st).

Definition next (st : State) : State * option Song := commit st (handleNext st).
Definition previous (st : State) : State * option Song := commit st (handlePrev st).

Definition resolve (cancelled : bool) (captured : Song) (url : string)
    (st : State) : State * option Song :=
  commit st (resolved cancelled captured url st).

End AudiusApp.

(** ** The registration of the listeners

    A mounted component is its state together with the [isPlaying] that
    the registered listeners of the audio element hold.  React runs the
    registering effect again after a render in which one of its
    dependencies is not, by identity, what it was at the render before.
    [commit fresh m after] is the render that follows an event which
    leaves the state [after]: [fresh] says that the event stored a newly
    made array or object in a dependency; otherwise the dependencies have
    changed exactly when their contents have. *)

Module PipedListeners.

Record t := mk { state : PipedApp.State; held : bool }.

Definition deps (st : PipedApp.State) : list Song * option Song * bool :=
  (PipedApp.songs st, PipedApp.currentSong st, PipedApp.usingPreview st).

Definition commit (fresh : bool) (m : t) (after : PipedApp.State) : t :=
  mk after
     (if fresh || negb (bool_decide (deps (state m) = deps after))
      then PipedApp.isPlaying after
      else held m).

(** The first render. *)
Definition mounted : t := mk PipedApp.initial (PipedApp.isPlaying PipedApp.initial).

(** Lines 768-775: the featured songs arrive, [setSongs(data)]. *)
Definition loaded (data : list Song) (m : t) : t :=
  commit true m (PipedApp.render (PipedApp.setSongs data (state m))).

(** Line 1008: a row of the song list, [handlePlaySong(s, songs)]; the
    context is the queue itself. *)
Definition selected (song : Song) (m : t) : t * Pending :=
  let r := PipedApp.play song (Some (PipedApp.songs (state m))) (state m) in
  (commit false m r.1, r.2).

(** What [selected] awaits settles; with a stream URL the continuation
    stores a new song object and a new array. *)
Definition resolve (song : Song) (streamUrl : Exec StreamUrl) (m : t) : t :=
  commit match streamUrl with
         | Ok (Url u) => Js.truthy u
         | _ => false
         end
         m (PipedApp.resolve song streamUrl (state m)).

Definition togglePlay (m : t) : t :=
  commit false m (PipedApp.render (PipedApp.togglePlay (state m))).

(** Lines 898-901: [setSongs(prev => [...prev, song])], a new array. *)
Definition addToQueue (song : Song) (m : t) : t :=
  commit true m (PipedApp.render (PipedApp.handleAddToQueue song (state m))).

(** The audio element reports an error, or the end of the track, to the
    registered listener. *)
Definition error (m : t) : t * Pending :=
  let r := PipedApp.error (held m) (state m) in
  (commit false m r.1, r.2).

Definition ended (m : t) : t * Pending :=
  let r := PipedApp.ended (held m) (state m) in
  (commit false m r.1, r.2).

End PipedListeners.

Module AudiusListeners.

Record t := mk { state : AudiusApp.State; held : bool }.

Definition deps (st : AudiusApp.State) : list Song * option Song :=
  (AudiusApp.songs st, AudiusApp.currentSong st).

Definition commit (fresh : bool) (m : t) (after : AudiusApp.State) : t :=
  mk after
     (if fresh || negb (bool_decide (deps (state m) = deps after))
      then AudiusApp.isPlaying after
      else held m).

Definition mounted : t := mk AudiusApp.initial (AudiusApp.isPlaying AudiusApp.initial).

(** Lines 104-108: the featured songs arrive, [setSongs(data)]. *)
Definition loaded (data : list Song) (m : t) : t :=
  commit true m (AudiusApp.render (AudiusApp.setSongs data (state m))).

(** Line 457: [handlePlaySong(s, songs)]. *)
Definition selected (song : Song) (m : t) : t * option Song :=
  let r := AudiusApp.play (Some song) (Some (AudiusApp.songs (state m))) (state m) in
  (commit false m r.1, r.2).

(** The resolution that the effect of lines 171-180 started settles; when
    the captured song is still current the updater stores a new object. *)
Definition resolve (captured : Song) (url : string) (m : t) : t :=
  commit (isCurrent (AudiusApp.currentSong (state m)) captured) m
         (AudiusApp.resolve false captured url (state m)).1.

Definition togglePlay (m : t) : t :=
  commit false m (AudiusApp.render (AudiusApp.togglePlay (state m))).

(** Lines 316-318: [setSongs(prev => [...prev, song])], a new array. *)
Definition addToQueue (song : Song) (m : t) : t :=
  commit true m (AudiusApp.render (AudiusApp.handleAddToQueue song (state m))).

(** The audio element reports an error to the registered listener. *)
Definition error (m : t) : option (nat * (AudiusApp.State → AudiusApp.State)) :=
  AudiusApp.onError (held m).

End AudiusListeners.

(** ** Notions of the specification

    The index that the Queue Navigator of the specification steps from:
    that of the first track of the queue whose id is the id of the current
    track, and 0 when there is none. *)
Definition queueIndex (queue : list Song) (current : Song) : nat :=
  match list_find (λ s, id s = id current) queue with
  | Some (i, _) => i
  | None => 0
  end.


(** The two container tests of the stream-variant policy, read on a
    stream that may lack its [mimeType]. *)
Definition offersMp4 (s : PipedService.Stream.t) : bool :=
  match PipedService.Stream.mimeType s with
  | Some m => Js.includes "mp4" m || Js.includes "m4a" m
  | None => false
  end.

Definition offersWebm (s : PipedService.Stream.t) : bool :=
  match PipedService.Stream.mimeType s with
  | Some m => Js.includes "webm" m
  | None => false
  end.

(** Every stream of a list carries a [mimeType]. *)
Definition typed (audioStreams : list PipedService.Stream.t) : Prop :=
  Forall (λ s, is_Some (PipedService.Stream.mimeType s)) audioStreams.

(** ** Sample data for the examples *)

(** A track as the catalogue delivers it: [url] is its stream URL (empty
    until resolved) and [preview] its preview URL. *)
Definition track (ident url : string) (preview : option string) (local : bool)
  : Song :=
  {| id := ident; videoId := None; title := "Song " +:+ ident;
     artist := "Artist"; album := "Album"; coverUrl := "cover.png";
     audioUrl := url; previewUrl := preview; isLocal := local;
     lyrics := None |}.

Definition trackA : Song := track "a" "" (Some "https://preview.example/a.m4a") false.
Definition trackB : Song := track "b" "" (Some "https://preview.example/b.m4a") false.
Definition trackC : Song := track "c" "" None false.

(** A track whose stream URL is set but only five characters long. *)
Definition shortUrlTrack : Song := track "s" "a.mp3" None false.

(** A track whose stream URL has been resolved, and an imported file. *)
Definition resolvedTrack : Song :=
  track "r" "https://cdn.example/r.m4a" None false.
Definition localTrack : Song := track "local-1-0" "blob:imported" None true.

(** Two tracks are selected one after the other from the start page: the
    state after [play(trackA)] and after [play(trackB)], both resolutions
    still in flight. *)
Definition afterPlayA : PipedApp.State :=
  (PipedApp.play trackA (Some [trackA; trackB; trackC]) PipedApp.initial).1.
Definition afterPlayB : PipedApp.State :=
  (PipedApp.play trackB None afterPlayA).1.

(** The resolution started for [trackA] settles only now, [trackB] being
    current: with a stream URL, or with [null]. *)
Definition fullUrlA : string := "https://cdn.example/a.m4a".
Definition afterStaleSuccess : PipedApp.State :=
  PipedApp.resolve trackA (Ok (Url fullUrlA)) afterPlayB.
Definition afterStaleFailure : PipedApp.State :=
  PipedApp.resolve trackA (Ok Null) afterPlayB.

(** A session of the title/artist-keyed component: the featured songs
    arrive, the first is selected and resolved, the user pauses with
    the play button, adds a track to the queue, and resumes. *)
Definition pausedAndResumed : PipedListeners.t :=
  PipedListeners.togglePlay
    (PipedListeners.addToQueue trackC
       (PipedListeners.togglePlay
          (PipedListeners.resolve trackA (Ok (Url fullUrlA))
             (PipedListeners.selected trackA
                (PipedListeners.loaded [trackA; trackB] PipedListeners.mounted)).1))).

(** The same session of the id-keyed component. *)
Definition audiusPausedAndResumed : AudiusListeners.t :=
  AudiusListeners.togglePlay
    (AudiusListeners.addToQueue trackC
       (AudiusListeners.togglePlay
          (AudiusListeners.resolve trackA fullUrlA
             (AudiusListeners.selected trackA
                (AudiusListeners.loaded [trackA; trackB] AudiusListeners.mounted)).1))).

(** An iTunes search that answers every term with the same two songs, and
    a search for suggested titles that finds nothing. *)
Definition itunesServes (songs : list Song) : string → Response (option (list Song)) :=
  λ _, Replied true (Some (Some songs)).
Definition nothingFound : nat → string → list Song := λ _ _, [].

(** The state in which the suggestions for the prompt "calm" arrive: the
    queue holds [trackA]. *)
Definition awaitingSuggestions : PipedApp.State :=
  PipedApp.setIsAiLoading true
    (PipedApp.setAiPrompt "calm" (PipedApp.setSongs [trackA] PipedApp.initial)).

(** The query of lines 107-110 for a title and an artist that need no
    cleaning. *)
Definition plainQuery (title artist : string) : string :=
  title +:+ " " +:+ artist +:+ " official audio".

(** A pool reply: every instance finds the video [abc]; the first
    instance of [STREAM_APIS] then serves an audio stream without [url],
    every other instance a stream with one. *)
Definition firstWithoutUrl : PipedService.Network :=
  {| PipedService.search := λ _ _,
       Replied true
         (Some {| PipedService.items :=
                    Some [PipedService.Item.mk (Some "stream") (Some "/watch?v=abc")] |});
     PipedService.streams := λ instance _,
       Replied true
         (Some {| PipedService.audioStreams :=
                    Some [PipedService.Stream.mk (Some "audio/mp4")
                            (if String.eqb instance "https://pipedapi.kavin.rocks"
                             then Undefined
                             else Url "https://cdn.example/full.m4a")] |}) |}.

(** ** Imported files ([handleImportMusic]) *)

(** An entry of [e.target.files]: its [name], and what
    [URL.createObjectURL(file)] answers for it. *)
Module File.
Record t := mk { name : string; objectUrl : string }.
End File.

Module LocalFiles.
Import Stdlib.Strings.Ascii.

(** [[^/.]] *)
Definition isExtensionChar (c : Ascii.ascii) : bool :=
  negb (Ascii.eqb c "/"%char) && negb (Ascii.eqb c "."%char).

Fixpoint allExtensionChars (s : string) : bool :=
  match s with
  | EmptyString => true
  | String c rest => isExtensionChar c && allExtensionChars rest
  end.

(** [/\.[^/.]+$/] matches at the start of [s]: a dot, then one or more
    characters other than a slash and a dot, up to the end. *)
Definition extensionAt (s : string) : bool :=
  match s with
  | String c ((String _ _) as rest) => Ascii.eqb c "."%char && allExtensionChars rest
  | _ => false
  end.

(** [name.replace(/\.[^/.]+$/, "")]: the leftmost match is removed. *)
Fixpoint stripExtension (s : string) : string :=
  if extensionAt s then EmptyString
  else match s with
       | EmptyString => EmptyString
       | String c rest => String c (stripExtension rest)
       end.

(** The callback of [Array.from(e.target.files).map]; [now] is what
    [Date.now()] answers when it runs, a number of milliseconds. *)
Definition importedSong (cover : string) (now : N) (index : nat) (file : File.t)
  : Song :=
  {| id := "local-" +:+ pretty now +:+ "-" +:+ pretty index;
     videoId := None;
     title := stripExtension (File.name file);
     artist := "Local Device";
     album := "My Imports";
     coverUrl := cover;
     audioUrl := File.objectUrl file;
     previewUrl := None;
     isLocal := true;
     lyrics := None |}.

(** [now i] is the time at which the callback runs for the file at
    index [i]. *)
Definition newLocalSongs (cover : string) (now : nat → N) (files : list File.t)
  : list Song :=
  imap (λ index file, importedSong cover (now index) index file) files.

End LocalFiles.

(** [handleImportMusic] of the two components.  [librarySongs] is a state
    cell of its own; [files] is [e.target.files], [None] when it is
    [null]. *)
Module PipedLibrary.

Definition IMPORT_COVER : string :=
  "https://images.unsplash.com/photo-1470225620780-dba8ba36b745?w=400&h=400&fit=crop".

Definition handleImportMusic (now : nat → N) (files : option (list File.t))
    (librarySongs : list Song) (st : PipedApp.State)
  : list Song * PipedApp.State :=
  match files with
  | None | Some [] => (librarySongs, st)
  | Some files =>
      let newLocalSongs := LocalFiles.newLocalSongs IMPORT_COVER now files in
      (librarySongs ++ newLocalSongs,
       PipedApp.setView library
         (PipedApp.alert
            ("Imported " +:+ pretty (length newLocalSongs) +:+ " songs!")
            (PipedApp.setSongs (PipedApp.songs st ++ newLocalSongs) st)))
  end.

End PipedLibrary.

Module AudiusLibrary.

Definition IMPORT_COVER : string :=
  "https://images.unsplash.com/photo-1614613535308-eb5fbd3d2c17?w=400&h=400&fit=crop".

Definition handleImportMusic (now : nat → N) (files : option (list File.t))
    (librarySongs : list Song) (st : AudiusApp.State)
  : list Song * AudiusApp.State :=
  match files with
  | None | Some [] => (librarySongs, st)
  | Some files =>
      let newLocalSongs := LocalFiles.newLocalSongs IMPORT_COVER now files in
      (librarySongs ++ newLocalSongs,
       AudiusApp.setView library
         (AudiusApp.setSongs (AudiusApp.songs st ++ newLocalSongs) st))
  end.

End AudiusLibrary.

(** ** The lyrics effect of the title/artist-keyed component (lines 828-842) *)

Module PipedLyrics.

(** [{ ...song, lyrics: text }] *)
Definition withLyrics (text : string) (song : Song) : Song :=
  {| id := id song; videoId := videoId song; title := title song;
     artist := artist song; album := album song; coverUrl := coverUrl song;
     audioUrl := audioUrl song; previewUrl := previewUrl song;
     isLocal := isLocal song; lyrics := Some text |}.

(** The song for which the effect calls [getLyrics]; [isPlayerFull] and
    [lyricsLoading] are state cells of their own. *)
Definition lyricsEffect (isPlayerFull lyricsLoading : bool) (st : PipedApp.State)
  : option Song :=
  match PipedApp.currentSong st with
  | Some c =>
      if isPlayerFull && negb (Js.truthy_opt (lyrics c)) && negb (isLocal c)
         && negb lyricsLoading
      then Some c else None
  | None => None
  end.

(** What runs once [getLyrics] has settled for the song the effect
    captured; [text] is a string or [null]. *)
Definition lyricsFetched (captured : Song) (text : option string)
    (st : PipedApp.State) : PipedApp.State :=
  match text with
  | Some t =>
      if Js.truthy t
      then PipedApp.setSongs
             (map (λ s, if String.eqb (id s) (id captured) then withLyrics t s else s)
                (PipedApp.songs st))
             (PipedApp.setCurrentSong (withLyrics t <$> PipedApp.currentSong st) st)
      else st
  | None => st
  end.

End PipedLyrics.

(** ** The lyrics effect of the id-keyed component (lines 274-296) *)

Module AudiusLyrics.

(** The state cells [lyricsText] and [loadingLyrics]. *)
Record Cells := mk { lyricsText : option string; loadingLyrics : bool }.

(** [fetchLyrics] up to the [await]: the cells it leaves, and the song
    for which it calls [getLyrics(currentSong.artist, currentSong.title)]. *)
Definition fetchLyrics (currentSong : option Song) (cells : Cells)
  : Cells * option Song :=
  match currentSong with
  | None => (cells, None)
  | Some c =>
      if Js.truthy_opt (lyrics c)
      then (mk (lyrics c) (loadingLyrics cells), None)
      else if isLocal c
      then (mk (Some "Local audio file. Lyrics not available.") (loadingLyrics cells),
            None)
      else (mk None true, Some c)
  end.

(** What runs when [getLyrics] has settled with a string or [null]. *)
Definition fetched (text : option string) (cells : Cells) : Cells :=
  mk (if Js.truthy_opt text then text else Some "Lyrics not found for this song.")
     false.

(** The effect depends on [currentSong]: it runs when a commit has
    changed the current song. *)
Definition lyricsEffect (before after : AudiusApp.State) (cells : Cells)
  : Cells * option Song :=
  if decide (AudiusApp.currentSong before = AudiusApp.currentSong after)
  then (cells, None)
  else fetchLyrics (AudiusApp.currentSong after) cells.

End AudiusLyrics.

(** ** The host lookup of the id-keyed service ([getHost]) *)

Module AudiusHost.

Definition FALLBACK_HOST : string := "https://discoveryprovider.audius.co".

(** [getHost()] suspends at [await fetch(AUDIUS_ROOT)] (line 104), after
    it has read [cachedHost] (line 102) and before it writes it (line
    109): other calls may begin, and other requests settle, in between.
    So a call is two steps.  [cachedHost] is the module variable. *)

(** Line 102, up to the request: the call answers the cached host, or
    requests the root and waits. *)
Inductive Started : Type :=
| Answered (host : option string)
| Requested.

Definition getHost (cachedHost : option string) : Started :=
  if Js.truthy_opt cachedHost then Answered cachedHost else Requested.

(** Lines 105-115, once the request has settled.  [root] is the reply of
    [fetch(AUDIUS_ROOT)] decoded by [response.json()], with the [data]
    field of the payload as body ([Rejected] or a body [None] when either
    throws), [pick] is [Math.floor(Math.random() * json.data.length)], and
    [cachedHost] is the module variable as it is then.  The result is the
    host that the call answers ([None] is [undefined]) and the new value
    of [cachedHost]. *)
Definition settled (root : Response (option (list string))) (pick : nat)
    (cachedHost : option string) : option string * option string :=
  match root with
  | Replied _ (Some (Some ((_ :: _) as hosts))) =>
      let randomHost := hosts !! pick in
      (randomHost, randomHost)
  | _ => (Some FALLBACK_HOST, cachedHost)
  end.

(** The lookups of a session, as the events in which they take part: a
    call begins, or the request of a call that waits settles.  [run] gives
    what every event answers, and the cache after the last. *)
Inductive Event : Type :=
| Call
| Settle (root : Response (option (list string))) (pick : nat).

Inductive Outcome : Type :=
| FromCache (host : option string)
| Waits
| FromRoot (host : option string).

Fixpoint run (events : list Event) (cachedHost : option string)
  : list Outcome * option string :=
  match events with
  | [] => ([], cachedHost)
  | Call :: rest =>
      let r := run rest cachedHost in
      (match getHost cachedHost with
       | Answered host => FromCache host
       | Requested => Waits
       end :: r.1, r.2)
  | Settle root pick :: rest =>
      let r := run rest (settled root pick cachedHost).2 in
      (FromRoot (settled root pick cachedHost).1 :: r.1, r.2)
  end.

End AudiusHost.

(** ** The query of [getStreamUrl] (lines 107-110) and the search box

    A character of a string is a UTF-16 code unit below 256.  Of these,
    the line terminators, which [.] does not match, are 10 and 13, and the
    characters that [trim] removes are 9 to 13, 32 and 160. *)

Module Query.
Import Stdlib.Strings.Ascii.

Definition isLineTerminator (c : ascii) : bool :=
  match c with
  | "010" | "013" => true
  | _ => false
  end%char.

Definition isWhiteSpace (c : ascii) : bool :=
  match c with
  | "009" | "010" | "011" | "012" | "013" | " " | "160" => true
  | _ => false
  end%char.

Fixpoint singleLine (s : string) : bool :=
  match s with
  | EmptyString => true
  | String c rest => negb (isLineTerminator c) && singleLine rest
  end.

Fixpoint trimStart (s : string) : string :=
  match s with
  | EmptyString => EmptyString
  | String c rest => if isWhiteSpace c then trimStart rest else s
  end.

Fixpoint trimEnd (s : string) : string :=
  match s with
  | EmptyString => EmptyString
  | String c rest =>
      match trimEnd rest with
      | EmptyString => if isWhiteSpace c then EmptyString else String c EmptyString
      | kept => String c kept
      end
  end.

(** [s.trim()] *)
Definition trim (s : string) : string := trimEnd (trimStart s).

(** What follows the last [)] of the line that [s] starts with, when
    that line holds one: where a match of [.*\)] ends. *)
Fixpoint afterLastClose (s : string) : option string :=
  match s with
  | EmptyString => None
  | String c rest =>
      if isLineTerminator c then None
      else
        match afterLastClose rest with
        | Some after => Some after
        | None => if (c =? ")")%char then Some rest else None
        end
  end.

(** [s.replace(/\(.*\)/, '')]: the leftmost match is removed. *)
Fixpoint removeParenthesised (s : string) : string :=
  match s with
  | EmptyString => EmptyString
  | String c rest =>
      if (c =? "(")%char
      then match afterLastClose rest with
           | Some after => after
           | None => String c (removeParenthesised rest)
           end
      else String c (removeParenthesised rest)
  end.

(** What is left of [s] after the line it starts with. *)
Fixpoint dropLine (s : string) : string :=
  match s with
  | EmptyString => EmptyString
  | String c rest => if isLineTerminator c then s else dropLine rest
  end.

(** [s.replace(/feat\..*/, '')] *)
Fixpoint removeFeat (s : string) : string :=
  if String.prefix "feat." s then dropLine s
  else match s with
       | EmptyString => EmptyString
       | String c rest => String c (removeFeat rest)
       end.

Definition cleanTitle (title : string) : string :=
  trim (removeFeat (removeParenthesised title)).

(** The title that [getLyrics] asks for (line 161). *)
Definition lyricsTitle (title : string) : string :=
  trim (removeParenthesised title).

(** [artist.split(',')[0].trim()]; [split] always answers with at least
    one piece. *)
Definition cleanArtist (artist : string) : string :=
  trim (default "" (Js.split "," artist !! 0)).

Definition query (title artist : string) : string :=
  cleanTitle title +:+ " " +:+ cleanArtist artist +:+ " official audio".

End Query.

(** [handleSearch] of both components (lines 374-382 and 945-953), up to
    the [await]: [None] when it returns at once, else the state it leaves
    and the query it passes to [searchSongs]; and what runs when the
    results arrive.  [searchQuery] and [isContentLoading] are state cells
    of their own. *)
Module PipedSearch.

Definition handleSearch (searchQuery : string) (st : PipedApp.State)
  : option (PipedApp.State * string) :=
  if negb (Js.truthy (Query.trim searchQuery)) then None
  else Some (PipedApp.setView home st, searchQuery).

Definition searched (results : list Song) (st : PipedApp.State) : PipedApp.State :=
  PipedApp.setSongs results st.

End PipedSearch.

Module AudiusSearch.

Definition handleSearch (searchQuery : string) (st : AudiusApp.State)
  : option (AudiusApp.State * string) :=
  if negb (Js.truthy (Query.trim searchQuery)) then None
  else Some (AudiusApp.setView home st, searchQuery).

Definition searched (results : list Song) (st : AudiusApp.State) : AudiusApp.State :=
  AudiusApp.setSongs results st.

End AudiusSearch.

(** ** Notions used to state further properties of the code *)

(** The instance a request is sent to, and the instance of a search
    request. *)
Definition requestInstance (r : PipedService.Request) : string :=
  match r with
  | PipedService.SearchReq instance _ => instance
  | PipedService.StreamsReq instance _ => instance
  end.

Definition searchedInstance (r : PipedService.Request) : option string :=
  match r with
  | PipedService.SearchReq instance _ => Some instance
  | PipedService.StreamsReq _ _ => None
  end.

(** Calls of [getHost] of which each has answered before the next
    begins: each with the reply the root would give and the index that
    would be drawn; for every call, whether the root was requested and the
    host that was answered. *)
Fixpoint getHosts (calls : list (Response (option (list string)) * nat))
    (cachedHost : option string) : list (bool * option string) :=
  match calls with
  | [] => []
  | (root, pick) :: rest =>
      match AudiusHost.getHost cachedHost with
      | AudiusHost.Answered host => (false, host) :: getHosts rest cachedHost
      | AudiusHost.Requested =>
          (true, (AudiusHost.settled root pick cachedHost).1)
          :: getHosts rest (AudiusHost.settled root pick cachedHost).2
      end
  end.

(** Calls that all begin before the request of any of them settles, as
    the searches that [handleAIGenerate] starts at once (lines 389-390);
    the requests then settle in the order of the list. *)
Definition overlapping (calls : list (Response (option (list string)) * nat))
  : list AudiusHost.Event :=
  replicate (length calls) AudiusHost.Call
  ++ ((λ c, AudiusHost.Settle c.1 c.2) <$> calls).

(** ** More sample data *)

(** A pool of which only the instance [good] answers: it finds the video
    [abc] and serves an mp4 stream for it. *)
Definition onlyInstance (good : string) : PipedService.Network :=
  {| PipedService.search := λ instance _,
       if String.eqb instance good
       then Replied true
              (Some {| PipedService.items :=
                         Some [PipedService.Item.mk (Some "stream") (Some "/watch?v=abc")] |})
       else Rejected;
     PipedService.streams := λ _ _,
       Replied true
         (Some {| PipedService.audioStreams :=
                    Some [PipedService.Stream.mk (Some "audio/mp4")
                            (Url "https://cdn.example/full.m4a")] |}) |}.


(** A pool of which every instance finds the video [abc] and serves one
    mp4 stream whose [url] is [null]. *)
Definition nullUrlServed : PipedService.Network :=
  {| PipedService.search := λ _ _,
       Replied true
         (Some {| PipedService.items :=
                    Some [PipedService.Item.mk (Some "stream") (Some "/watch?v=abc")] |});
     PipedService.streams := λ _ _,
       Replied true
         (Some {| PipedService.audioStreams :=
                    Some [PipedService.Stream.mk (Some "audio/mp4") Null] |}) |}.

(** An entry of an Audius reply. *)
Definition catalogueItem : AudiusService.Item.t :=
  AudiusService.Item.mk (Some "D7KyD") (Some "Night Drive") None (Some "Electronic") None.

(** * Facts about the JavaScript helpers *)

Section JsFacts.
Context {A : Type}.
Implicit Types (p : A → bool) (arr : list A).

(** [findIndex] and [find] agree with the first match that stdpp's
    [list_find] computes. *)
Lemma findIndex_find_list_find p arr :
  match list_find (λ x, p x = true) arr with
  | Some (i, x) => Js.findIndex p arr = Z.of_nat i ∧ Js.find p arr = Some x
  | None => Js.findIndex p arr = (-1)%Z ∧ Js.find p arr = None
  end.
Proof.
  induction arr as [|a arr IH]; simpl; [done|].
  case_decide as Hp.
  - rewrite Hp. done.
  - apply not_true_is_false in Hp. rewrite Hp.
    destruct (list_find _ arr) as [[i x]|]; simpl in *.
    + destruct IH as [-> ->]. split; [|done].
      destruct (Z.ltb_spec (Z.of_nat i) 0); lia.
    + destruct IH as [-> ->]. done.
Qed.



Lemma findIndex_range p arr :
  (-1 ≤ Js.findIndex p arr < Z.of_nat (length arr))%Z.
Proof.
  pose proof (findIndex_find_list_find p arr) as H.
  destruct (list_find _ arr) as [[i x]|] eqn:Hfind.
  - apply list_find_Some in Hfind as (Hi & _ & _).
    apply lookup_lt_Some in Hi. lia.
  - lia.
Qed.

(** Reading [arr[k % n]] for a natural [k] and the length [n] of a
    non-empty array. *)
Lemma index_rem_nat arr (k : nat) :
  arr ≠ [] →
  Js.index arr (Js.rem (Z.of_nat k) (Z.of_nat (length arr)))
  = arr !! (k mod length arr).
Proof.
  intros Hne. unfold Js.rem, Js.index.
  assert (length arr ≠ 0) by (destruct arr; simpl; [done|lia]).
  destruct (Z.eqb_spec (Z.of_nat (length arr)) 0); [lia|].
  rewrite Z.rem_mod_nonneg by lia.
  rewrite <- Nat2Z.inj_mod.
  destruct (Z.ltb_spec (Z.of_nat (k mod length arr)) 0); [lia|].
  by rewrite Nat2Z.id.
Qed.

End JsFacts.

(** * The Queue Navigator *)

Lemma sameId_true c s : sameId c s = true ↔ id s = id c.
Proof. unfold sameId. apply String.eqb_eq. Qed.

Lemma isCurrent_true current song :
  isCurrent current song = true ↔ ∃ c, current = Some c ∧ id c = id song.
Proof.
  destruct current as [c|]; simpl.
  - rewrite String.eqb_eq. split.
    + intros Hid. by exists c.
    + by intros (c' & [= <-] & Hid).
  - split; [done|]. by intros (c' & [=] & _).
Qed.

(** [findIndex] by id is [queueIndex] when the id occurs, and [-1]
    otherwise. *)
Lemma findIndex_sameId queue c :
  (Js.findIndex (sameId c) queue = Z.of_nat (queueIndex queue c)
   ∧ ∃ s, queue !! queueIndex queue c = Some s ∧ id s = id c)
  ∨ (Js.findIndex (sameId c) queue = (-1)%Z
     ∧ queueIndex queue c = 0 ∧ ∀ s, s ∈ queue → id s ≠ id c).
Proof.
  pose proof (findIndex_find_list_find (sameId c) queue) as H.
  unfold queueIndex.
  rewrite (list_find_ext (λ s, id s = id c) (λ s, sameId c s = true)); last first.
  { intros s. symmetry. apply sameId_true. }
  destruct (list_find _ queue) as [[i s]|] eqn:Hfind.
  - left. destruct H as [-> _]. split; [done|].
    apply list_find_Some in Hfind as (Hi & Hs & _).
    exists s. split; [done|]. by apply sameId_true.
  - right. destruct H as [-> _]. split_and!; [done..|].
    intros s Hs Hid. apply list_find_None in Hfind.
    rewrite list.Forall_forall in Hfind. apply (Hfind s Hs). by apply sameId_true.
Qed.

Lemma queueIndex_lt queue c : queue ≠ [] → queueIndex queue c < length queue.
Proof.
  intros Hne. unfold queueIndex.
  destruct (list_find _ queue) as [[i s]|] eqn:Hfind.
  - apply list_find_Some in Hfind as (Hi & _). by apply lookup_lt_Some in Hi.
  - destruct queue; simpl; [done|lia].
Qed.


Lemma nextSong_index queue c :
  queue ≠ [] →
  AudiusApp.nextSong queue (Some c)
  = queue !! ((queueIndex queue c + 1) mod length queue).
Proof.
  intros Hne. unfold AudiusApp.nextSong.
  destruct (Nat.eqb_spec (length queue) 0) as [Hlen|_].
  { by destruct queue. }
  destruct (findIndex_sameId queue c) as [[-> _]|(-> & -> & _)].
  - destruct (Z.eqb_spec (Z.of_nat (queueIndex queue c)) (-1)); [lia|].
    replace (Z.of_nat (queueIndex queue c) + 1)%Z
      with (Z.of_nat (queueIndex queue c + 1)) by lia.
    by apply index_rem_nat.
  - simpl. by apply (index_rem_nat queue 1).
Qed.





(** The title/artist-keyed [handleNext] and [handlePrev] feed the same
    entries to [handlePlaySong] when the id of the current track occurs in
    the queue. *)
Lemma piped_handleNext_found st c :
  PipedApp.currentSong st = Some c →
  (∃ s, s ∈ PipedApp.songs st ∧ id s = id c) →
  ∃ target,
    PipedApp.songs st
      !! ((queueIndex (PipedApp.songs st) c + 1) mod length (PipedApp.songs st))
    = Some target
    ∧ PipedApp.handleNext st = PipedApp.handlePlaySong target None st.
Proof.
  intros Hc (s & Hs & Hid). unfold PipedApp.handleNext, PipedApp.playAt. rewrite Hc.
  assert (PipedApp.songs st ≠ []) as Hne by (intros Hnil; rewrite Hnil in Hs; inversion Hs).
  destruct (findIndex_sameId (PipedApp.songs st) c) as [[-> _]|(_ & _ & Hnone)];
    [|by destruct (Hnone s Hs)].
  replace (Z.of_nat (queueIndex (PipedApp.songs st) c) + 1)%Z
    with (Z.of_nat (queueIndex (PipedApp.songs st) c + 1)) by lia.
  rewrite index_rem_nat by done.
  destruct (lookup_lt_is_Some_2 (PipedApp.songs st)
              ((queueIndex (PipedApp.songs st) c + 1) mod length (PipedApp.songs st)))
    as [target Ht].
  { apply Nat.mod_upper_bound. destruct (PipedApp.songs st); simpl; [done|lia]. }
  exists target. by rewrite Ht.
Qed.



(** When the id of the current track does not occur in the queue, the
    title/artist-keyed [handleNext] computes with the index [-1]: it plays
    the first entry of the queue. *)
Lemma piped_handleNext_not_found st c first rest :
  PipedApp.currentSong st = Some c →
  PipedApp.songs st = first :: rest →
  (∀ s, s ∈ PipedApp.songs st → id s ≠ id c) →
  PipedApp.handleNext st = PipedApp.handlePlaySong first None st.
Proof.
  intros Hc Hq Hnone. unfold PipedApp.handleNext, PipedApp.playAt. rewrite Hc.
  destruct (findIndex_sameId (PipedApp.songs st) c) as [[_ (s & Hs & Hid)]|(-> & _)].
  { destruct (Hnone s); [|done]. by eapply list_elem_of_lookup_2. }
  by rewrite Hq.
Qed.




(** * The resolver *)

Section FindFacts.
Context {A : Type}.
Implicit Types (p : A → bool) (arr : list A).

Lemma find_Some p arr x : Js.find p arr = Some x → x ∈ arr ∧ p x = true.
Proof.
  induction arr as [|a arr IH]; simpl; [done|].
  destruct (p a) eqn:Hp.
  - intros [= <-]. split; [left|done].
  - intros Hx. destruct (IH Hx). split; [by right|done].
Qed.

End FindFacts.


Lemma findE_isWebm l :
  typed l → findE PipedService.isWebm l = Ok (Js.find offersWebm l).
Proof.
  induction 1 as [|s l [m Hm] _ IH]; simpl; [done|].
  unfold PipedService.isWebm, offersWebm. rewrite Hm. simpl.
  destruct (Js.includes _ _); [done|]. exact IH.
Qed.





(** What a candidate returns is the [url] field of the stream that
    [bestStream] selects. *)
Lemma fetchStream_returns_best net instance videoId first rest best :
  PipedService.streams net instance videoId
  = Replied true (Some {| PipedService.audioStreams := Some (first :: rest) |}) →
  PipedService.bestStream (first :: rest) = Ok (Some best) →
  PipedService.fetchStream net instance videoId
  = PipedService.Return (PipedService.urlOf best).
Proof.
  intros Hreply Hbest. unfold PipedService.fetchStream.
  rewrite Hreply. simpl. by rewrite Hbest.
Qed.

(** A stream without [mimeType] at the head of the list makes the first
    callback throw: nothing is selected. *)
Lemma bestStream_untyped_head u l :
  PipedService.bestStream (PipedService.Stream.mk None u :: l) = Throw.
Proof. reflexivity. Qed.

Section ResolverFacts.
Variable net : PipedService.Network.
Variable query : string.

Local Abbreviation tryInstance := (PipedService.tryInstance net query).
Local Abbreviation resolveOn := (PipedService.resolveOn net query).

(** One turn of the loop sends the search request, and the stream
    request only after it. *)
Lemma tryInstance_requests instance :
  (tryInstance instance).1 = [PipedService.SearchReq instance query]
  ∨ ∃ videoId,
      (tryInstance instance).1
      = [PipedService.SearchReq instance query;
         PipedService.StreamsReq instance videoId].
Proof.
  unfold PipedService.tryInstance.
  repeat (case_match; simpl; eauto).
Qed.

(** What a turn returns is the [url] field of the stream selected from
    the reply to its stream request. *)
Lemma tryInstance_returns instance v :
  (tryInstance instance).2 = PipedService.Return v →
  ∃ videoId streamData l best,
    (tryInstance instance).1
    = [PipedService.SearchReq instance query;
       PipedService.StreamsReq instance videoId]
    ∧ PipedService.streams net instance videoId = Replied true (Some streamData)
    ∧ PipedService.audioStreams streamData = Some l
    ∧ PipedService.bestStream l = Ok (Some best)
    ∧ PipedService.Stream.url best = v.
Proof.
  unfold PipedService.tryInstance, PipedService.fetchStream, PipedService.urlOf.
  repeat (case_match; simpl; try done).
  all: intros [= <-]; eexists _, _, _, _; split_and!; try done.
Qed.

(** Single pass, exhausted: when every instance of the pool fails, each
    has been tried once, in order, and the result is [null]. *)
Lemma resolveOn_exhausted instances :
  (∀ i, i ∈ instances → (tryInstance i).2 = PipedService.Continue) →
  resolveOn instances
  = (concat ((λ i, (tryInstance i).1) <$> instances), Null).
Proof.
  induction instances as [|i rest IH]; intros Hall; simpl; [done|].
  pose proof (Hall i ltac:(left)) as Hi.
  destruct (tryInstance i) as [reqs step]. simpl in Hi. subst step.
  rewrite IH; [done|]. intros j Hj. apply Hall. by right.
Qed.

(** Single pass, success: the first instance whose turn returns ends the
    loop; the instances after it are not contacted. *)
Lemma resolveOn_first failed instance rest v :
  (∀ i, i ∈ failed → (tryInstance i).2 = PipedService.Continue) →
  (tryInstance instance).2 = PipedService.Return v →
  resolveOn (failed ++ instance :: rest)
  = (concat ((λ i, (tryInstance i).1) <$> failed) ++ (tryInstance instance).1, v).
Proof.
  induction failed as [|i failed IH]; intros Hall Hret; simpl.
  - destruct (tryInstance instance) as [reqs step]. simpl in *. by subst step.
  - pose proof (Hall i ltac:(left)) as Hi.
    destruct (tryInstance i) as [reqs step]. simpl in Hi. subst step.
    rewrite IH; [by rewrite (assoc_L (++))|..|done].
    intros j Hj. apply Hall. by right.
Qed.

(** Where a result comes from: the loop ran through the whole pool, every
    turn failing, and the result is [null]; or the turns of the instances
    before some instance failed and the turn of that instance returned the
    result. *)
Lemma resolveOn_cases instances :
  ((∀ i, i ∈ instances → (tryInstance i).2 = PipedService.Continue)
   ∧ (resolveOn instances).2 = Null)
  ∨ ∃ failed instance rest,
      instances = failed ++ instance :: rest
      ∧ (∀ i, i ∈ failed → (tryInstance i).2 = PipedService.Continue)
      ∧ (tryInstance instance).2 = PipedService.Return (resolveOn instances).2.
Proof.
  induction instances as [|i rest IH]; simpl.
  { left. split; [by inversion 1|done]. }
  destruct (tryInstance i) as [reqs [|v]] eqn:Htry; simpl.
  - destruct (resolveOn rest) as [more r]. simpl in *.
    destruct IH as [[Hall Hr]|(failed & instance & rest' & -> & Hfailed & Hret)].
    + left. split; [|done].
      intros j [->|Hj]%elem_of_cons; [by rewrite Htry|by apply Hall].
    + right. exists (i :: failed), instance, rest'. split_and!; [done| |done].
      intros j [->|Hj]%elem_of_cons; [by rewrite Htry|by apply Hfailed].
  - right. exists [], i, rest. split_and!; [done|by inversion 1|by rewrite Htry].
Qed.

End ResolverFacts.

(** C4, at an input on which the code departs from it.  The pool is
    tried in the order of [STREAM_APIS]; the first instance answers both
    requests, but the audio stream it offers has no [url].  [getStreamUrl] returns
    [undefined] after these two requests: the missing field did not move the
    loop on to the next instance, the result is neither a usable URL nor the
    [null] that stands for an exhausted pool, and the other twelve
    instances, each of which serves a usable URL, were never tried. *)
Theorem resolver_returns_missing_url :
  PipedService.getStreamUrl firstWithoutUrl plainQuery PipedService.STREAM_APIS
    "Song" "Artist"
  = ([ PipedService.SearchReq "https://pipedapi.kavin.rocks" "Song Artist official audio";
       PipedService.StreamsReq "https://pipedapi.kavin.rocks" "abc" ],
     Undefined)
  ∧ usable Undefined = false
  ∧ (PipedService.getStreamUrl firstWithoutUrl plainQuery
       (tail PipedService.STREAM_APIS) "Song" "Artist").2
    = Url "https://cdn.example/full.m4a".
Proof. split_and!; reflexivity. Qed.

(** * The playback controller *)

(** A render only drives the audio element. *)
Lemma piped_render_frame st :
  PipedApp.songs (PipedApp.render st) = PipedApp.songs st
  ∧ PipedApp.currentSong (PipedApp.render st) = PipedApp.currentSong st
  ∧ PipedApp.isPlaying (PipedApp.render st) = PipedApp.isPlaying st
  ∧ PipedApp.isResolvingAudio (PipedApp.render st) = PipedApp.isResolvingAudio st
  ∧ PipedApp.usingPreview (PipedApp.render st) = PipedApp.usingPreview st
  ∧ PipedApp.alerts (PipedApp.render st) = PipedApp.alerts st.
Proof.
  unfold PipedApp.render, PipedApp.syncAudio, PipedApp.applySrc.
  repeat (case_match; simpl; try done).
Qed.

(** After a render the element carries the source that line 1134 gives
    it. *)
Lemma piped_render_src st :
  Audio.src (PipedApp.audio (PipedApp.render st)) = PipedApp.srcProp st.
Proof.
  unfold PipedApp.render, PipedApp.syncAudio, PipedApp.applySrc.
  repeat (case_match; simpl; try done).
Qed.


Lemma audius_render_frame st :
  AudiusApp.songs (AudiusApp.render st) = AudiusApp.songs st
  ∧ AudiusApp.currentSong (AudiusApp.render st) = AudiusApp.currentSong st
  ∧ AudiusApp.isPlaying (AudiusApp.render st) = AudiusApp.isPlaying st
  ∧ AudiusApp.alerts (AudiusApp.render st) = AudiusApp.alerts st.
Proof.
  unfold AudiusApp.render, AudiusApp.syncAudio, AudiusApp.applySrc.
  repeat (case_match; simpl; try done).
Qed.

Lemma audius_render_src st :
  Audio.src (AudiusApp.audio (AudiusApp.render st)) = AudiusApp.srcProp st.
Proof.
  unfold AudiusApp.render, AudiusApp.syncAudio, AudiusApp.applySrc.
  repeat (case_match; simpl; try done).
Qed.

(** The same-track branch of the title/artist-keyed [handlePlaySong]. *)
Lemma piped_handlePlaySong_current st song ctx :
  isCurrent (PipedApp.currentSong st) song = true →
  PipedApp.handlePlaySong song ctx st
  = (PipedApp.setIsPlaying (negb (PipedApp.isPlaying st))
       match ctx with
       | Some queue => PipedApp.setSongs queue st
       | None => st
       end,
     Settled).
Proof. intros Hcur. unfold PipedApp.handlePlaySong. by rewrite Hcur. Qed.




Lemma truthy_length s : 0 < String.length s → Js.truthy s = true.
Proof. by destruct s; simpl; [lia|]. Qed.

Lemma truthy_nonempty s : s ≠ "" → Js.truthy s = true.
Proof. by destruct s. Qed.

(** The branch of the title/artist-keyed [handlePlaySong] for a track that
    is not the current one. *)
Lemma piped_handlePlaySong_other st song ctx :
  isCurrent (PipedApp.currentSong st) song = false →
  PipedApp.handlePlaySong song ctx st
  = let st2 :=
      PipedApp.setUsingPreview false
        (PipedApp.setShowLyrics false
           (PipedApp.setIsPlaying true
              (PipedApp.setCurrentSong (Some song)
                 match ctx with
                 | Some queue => PipedApp.setSongs queue st
                 | None => st
                 end))) in
    if isLocal song
       || (Js.truthy (audioUrl song) && (5 <? String.length (audioUrl song))%nat)
    then (PipedApp.setIsResolvingAudio false st2, Settled)
    else (PipedApp.setIsResolvingAudio true st2, Awaiting song).
Proof. intros Hcur. unfold PipedApp.handlePlaySong. by rewrite Hcur. Qed.

Lemma piped_applySrc_frame st :
  PipedApp.currentSong (PipedApp.applySrc st) = PipedApp.currentSong st
  ∧ PipedApp.isPlaying (PipedApp.applySrc st) = PipedApp.isPlaying st
  ∧ PipedApp.isResolvingAudio (PipedApp.applySrc st) = PipedApp.isResolvingAudio st
  ∧ PipedApp.usingPreview (PipedApp.applySrc st) = PipedApp.usingPreview st.
Proof. unfold PipedApp.applySrc. by case_decide. Qed.

(** A render commands the element to play when the intent is to play, no
    resolution is in flight and the current song has a source. *)
Lemma piped_render_playing st c :
  PipedApp.currentSong st = Some c →
  PipedApp.isResolvingAudio st = false →
  Js.truthy (audioUrl c) || PipedApp.usingPreview st = true →
  PipedApp.isPlaying st = true →
  Audio.paused (PipedApp.audio (PipedApp.render st)) = false.
Proof.
  intros Hc Hr Hsrc Hp. unfold PipedApp.render, PipedApp.syncAudio.
  destruct (piped_applySrc_frame st) as (-> & -> & -> & ->).
  by rewrite Hc, Hr, Hsrc, Hp.
Qed.

(** A render of a state whose element already carries its source leaves
    the playback position alone, and does not pause an element that plays
    while the intent is to play. *)
Lemma piped_render_in_sync st :
  Audio.src (PipedApp.audio st) = PipedApp.srcProp st →
  Audio.currentTime (PipedApp.audio (PipedApp.render st))
  = Audio.currentTime (PipedApp.audio st)
  ∧ (PipedApp.isPlaying st = true → Audio.paused (PipedApp.audio st) = false →
     Audio.paused (PipedApp.audio (PipedApp.render st)) = false).
Proof.
  intros Hsync. unfold PipedApp.render, PipedApp.applySrc.
  rewrite decide_True by done. unfold PipedApp.syncAudio.
  split; [|intros Hp Hpaused; rewrite Hp]; repeat (case_match; simpl; try done).
Qed.

(** C8, as amended.  [play(track)] never invokes the resolver for a local
    track, nor for a track whose stream URL is longer than five characters
    (title/artist-keyed variant) or not empty (id-keyed variant).  When the
    track is not the current one, the title/artist-keyed variant marks
    resolution as not in flight and the audio element is given the URL the
    track already has, and plays it when that URL is not empty; when it is
    the current one the call is the same-track toggle of C7. *)
Theorem resolution_skipped :
  (∀ st song ctx,
     isLocal song = true ∨ 5 < String.length (audioUrl song) →
     (PipedApp.play song ctx st).2 = Settled
     ∧ (isCurrent (PipedApp.currentSong st) song = false →
        PipedApp.isResolvingAudio (PipedApp.play song ctx st).1 = false
        ∧ PipedApp.currentSong (PipedApp.play song ctx st).1 = Some song
        ∧ Audio.src (PipedApp.audio (PipedApp.play song ctx st).1)
          = Some (audioUrl song)
        ∧ (Js.truthy (audioUrl song) = true →
           Audio.paused (PipedApp.audio (PipedApp.play song ctx st).1) = false)))
  ∧ (∀ st song ctx,
       isLocal song = true ∨ audioUrl song ≠ "" →
       (AudiusApp.play (Some song) ctx st).2 = None).
Proof.
  split.
  - intros st song ctx Hskip.
    assert (isLocal song
            || (Js.truthy (audioUrl song) && (5 <? String.length (audioUrl song))%nat)
            = true) as Hcond.
    { destruct Hskip as [->|Hlen]; [done|].
      rewrite truthy_length by lia.
      destruct (Nat.ltb_spec 5 (String.length (audioUrl song))); [|lia].
      by rewrite orb_true_r. }
    unfold PipedApp.play, PipedApp.rendered.
    destruct (isCurrent (PipedApp.currentSong st) song) eqn:Hcur.
    + by rewrite piped_handlePlaySong_current.
    + rewrite piped_handlePlaySong_other by done. cbv zeta. rewrite Hcond. simpl.
      split; [done|]. intros _.
      set (st' := PipedApp.setIsResolvingAudio _ _).
      destruct (piped_render_frame st') as (_ & -> & _ & -> & _ & _).
      rewrite piped_render_src.
      split_and!; [by destruct ctx..|].
      intros Htruthy.
      apply (piped_render_playing st' song); subst st'; destruct ctx; simpl;
        by rewrite ?Htruthy.
  - intros st song ctx Hskip.
    unfold AudiusApp.play, AudiusApp.commit, AudiusApp.handlePlaySong. simpl.
    destruct (Js.truthy (id song)); simpl; [|by rewrite decide_True].
    destruct (isCurrent (AudiusApp.currentSong st) song); simpl.
    + rewrite decide_True; [done|by destruct ctx].
    + case_decide; [done|].
      unfold AudiusApp.autoResolve.
      assert (negb (isLocal song) && negb (Js.truthy (audioUrl song)) = false) as Hno.
      { destruct Hskip as [->|Hurl]; [done|].
        rewrite (truthy_nonempty _ Hurl). by rewrite andb_false_r. }
      by destruct ctx; simpl; rewrite Hno.
Qed.

Lemma resolution_skipped_witness :
  (PipedApp.play resolvedTrack None PipedApp.initial).2 = Settled
  ∧ (PipedApp.play localTrack None PipedApp.initial).2 = Settled
  ∧ (AudiusApp.play (Some localTrack) None AudiusApp.initial).2 = None.
Proof.
  split_and!.
  - apply (proj1 resolution_skipped PipedApp.initial resolvedTrack None).
    right. simpl. lia.
  - apply (proj1 resolution_skipped PipedApp.initial localTrack None).
    by left.
  - apply (proj2 resolution_skipped AudiusApp.initial localTrack None).
    by left.
Defined.

(** The claim C8 as stated fails: the stream URL of [shortUrlTrack] is not
    empty, yet [play] suspends at [getStreamUrl] for it and marks
    resolution as in flight, because line 863 asks for more than five
    characters. *)
Lemma short_url_counterexample :
  audioUrl shortUrlTrack ≠ ""
  ∧ isLocal shortUrlTrack = false
  ∧ (PipedApp.play shortUrlTrack None PipedApp.initial).2 = Awaiting shortUrlTrack
  ∧ PipedApp.isResolvingAudio
      (PipedApp.play shortUrlTrack None PipedApp.initial).1 = true.
Proof. split_and!; [discriminate|reflexivity..]. Qed.

(** The id-keyed variant discards a stale resolution: when the current
    song is not the one the effect captured, the callback of
    [getStreamUrl] changes nothing, cancelled or not. *)
Lemma audius_stale_resolution_discarded cancelled captured url st :
  isCurrent (AudiusApp.currentSong st) captured = false →
  AudiusApp.resolved cancelled captured url st = st
  ∧ AudiusApp.resolve cancelled captured url st = (AudiusApp.render st, None).
Proof.
  intros Hcur.
  assert (AudiusApp.resolved cancelled captured url st = st) as Heq.
  { unfold AudiusApp.resolved. destruct cancelled; [done|].
    destruct st as [q [c|] p m v a l au al]; simpl in *; [|done].
    by rewrite Hcur. }
  split; [done|].
  unfold AudiusApp.resolve, AudiusApp.commit. rewrite Heq.
  by rewrite decide_True.
Qed.

(** In the title/artist-keyed variant a resolution that settles never
    rewrites a queue entry with another id. *)
Lemma piped_resolution_keeps_other_entries song r st i s :
  PipedApp.songs st !! i = Some s → id s ≠ id song →
  PipedApp.songs (PipedApp.resolve song r st) !! i = Some s.
Proof.
  intros Hi Hid. unfold PipedApp.resolve.
  destruct (piped_render_frame (PipedApp.resolved song r st)) as (-> & _).
  assert (sameId song s = false) as Hs.
  { apply not_true_is_false. by rewrite sameId_true. }
  unfold PipedApp.resolved.
  destruct r as [[u| |]|]; simpl;
    repeat (case_match; simpl; try done);
    by rewrite list_lookup_fmap, Hi; simpl; rewrite Hs.
Qed.

(** Whatever the current song is, a resolution that settles with a
    non-empty URL makes the song it was started for the current one. *)
Lemma piped_resolution_sets_current song u st :
  Js.truthy u = true →
  PipedApp.currentSong (PipedApp.resolve song (Ok (Url u)) st)
  = Some (withAudioUrl u song)
  ∧ PipedApp.isResolvingAudio (PipedApp.resolve song (Ok (Url u)) st) = false
  ∧ Audio.src (PipedApp.audio (PipedApp.resolve song (Ok (Url u)) st))
    = Some (if PipedApp.usingPreview st && Js.truthy_opt (previewUrl song)
            then default "" (previewUrl song) else u).
Proof.
  intros Hu. unfold PipedApp.resolve.
  set (st' := PipedApp.resolved _ _ _).
  destruct (piped_render_frame st') as (_ & -> & _ & -> & _ & _).
  rewrite piped_render_src.
  subst st'. unfold PipedApp.resolved, PipedApp.srcProp. rewrite Hu. simpl.
  split_and!; [done..|].
  destruct (PipedApp.usingPreview st); simpl; [|done].
  by destruct (previewUrl song) as [p|]; simpl; [destruct (Js.truthy p)|].
Qed.

(** C1, at an input on which the code departs from it.  [trackA] and then
    [trackB] are selected; both resolutions are in flight and [trackB] is
    current.
    When the resolution of [trackA] now settles with a URL, the continuation
    of [handlePlaySong] makes [trackA], carrying that URL, the current song
    again, the audio element is given this URL and plays it, and the
    in-flight mark is cleared although [trackB] is still being resolved.
    When it settles with [null], the fallback flag is raised while [trackB]
    is current, so the element is given and plays the preview of [trackB],
    again with the in-flight mark cleared.  The stale result is not
    discarded. *)
Theorem stale_resolution_not_discarded :
  (PipedApp.play trackA (Some [trackA; trackB; trackC]) PipedApp.initial).2
  = Awaiting trackA
  ∧ (PipedApp.play trackB None afterPlayA).2 = Awaiting trackB
  ∧ PipedApp.currentSong afterPlayB = Some trackB
  ∧ PipedApp.isResolvingAudio afterPlayB = true
  ∧ Audio.src (PipedApp.audio afterPlayB) = Some ""
  ∧ PipedApp.currentSong afterStaleSuccess = Some (withAudioUrl fullUrlA trackA)
  ∧ Audio.src (PipedApp.audio afterStaleSuccess) = Some fullUrlA
  ∧ Audio.paused (PipedApp.audio afterStaleSuccess) = false
  ∧ PipedApp.isResolvingAudio afterStaleSuccess = false
  ∧ PipedApp.currentSong afterStaleFailure = Some trackB
  ∧ PipedApp.usingPreview afterStaleFailure = true
  ∧ Audio.src (PipedApp.audio afterStaleFailure) = previewUrl trackB
  ∧ Audio.paused (PipedApp.audio afterStaleFailure) = false
  ∧ PipedApp.isResolvingAudio afterStaleFailure = false.
Proof. split_and!; reflexivity. Qed.

(** What [play] leaves when it suspends at the resolver. *)
Lemma piped_play_awaiting st song ctx :
  (PipedApp.play song ctx st).2 = Awaiting song →
  PipedApp.currentSong (PipedApp.play song ctx st).1 = Some song
  ∧ PipedApp.isPlaying (PipedApp.play song ctx st).1 = true
  ∧ PipedApp.usingPreview (PipedApp.play song ctx st).1 = false
  ∧ PipedApp.isResolvingAudio (PipedApp.play song ctx st).1 = true
  ∧ PipedApp.alerts (PipedApp.play song ctx st).1 = PipedApp.alerts st.
Proof.
  unfold PipedApp.play, PipedApp.rendered.
  destruct (isCurrent (PipedApp.currentSong st) song) eqn:Hcur.
  { by rewrite piped_handlePlaySong_current. }
  rewrite piped_handlePlaySong_other by done. cbv zeta.
  destruct (isLocal song || _); [done|]. simpl. intros _.
  set (st' := PipedApp.setIsResolvingAudio _ _).
  destruct (piped_render_frame st') as (_ & -> & -> & -> & -> & ->).
  by subst st'; destruct ctx.
Qed.

(** C2.  [play(track)] has suspended at the resolver (so the track is not
    local) and the resolver answers with nothing usable, [null] in
    particular.  If the track has a non-empty [previewUrl], the final state
    has [usingPreview] set and [isPlaying] still set, the audio element is
    given the preview and plays it, and no notice is shown.  Otherwise
    [isPlaying] is cleared and the notice "Song unavailable." is shown.
    Either way resolution is no longer in flight. *)
Theorem resolution_failure_fallback st song ctx r :
  (PipedApp.play song ctx st).2 = Awaiting song →
  usable r = false →
  (Js.truthy_opt (previewUrl song) = true →
     PipedApp.usingPreview (PipedApp.resolve song (Ok r) (PipedApp.play song ctx st).1)
     = true
     ∧ PipedApp.isPlaying (PipedApp.resolve song (Ok r) (PipedApp.play song ctx st).1)
       = true
     ∧ Audio.src
         (PipedApp.audio (PipedApp.resolve song (Ok r) (PipedApp.play song ctx st).1))
       = previewUrl song
     ∧ Audio.paused
         (PipedApp.audio (PipedApp.resolve song (Ok r) (PipedApp.play song ctx st).1))
       = false
     ∧ PipedApp.alerts (PipedApp.resolve song (Ok r) (PipedApp.play song ctx st).1)
       = PipedApp.alerts st)
  ∧ (Js.truthy_opt (previewUrl song) = false →
       PipedApp.isPlaying (PipedApp.resolve song (Ok r) (PipedApp.play song ctx st).1)
       = false
       ∧ PipedApp.usingPreview
           (PipedApp.resolve song (Ok r) (PipedApp.play song ctx st).1)
         = false
       ∧ PipedApp.alerts (PipedApp.resolve song (Ok r) (PipedApp.play song ctx st).1)
         = PipedApp.alerts st ++ ["Song unavailable."])
  ∧ PipedApp.isResolvingAudio
      (PipedApp.resolve song (Ok r) (PipedApp.play song ctx st).1)
    = false.
Proof.
  intros Hawait Hr.
  destruct (piped_play_awaiting st song ctx Hawait) as (Hc & Hp & Hu & _ & Ha).
  set (st1 := (PipedApp.play song ctx st).1) in *.
  assert (PipedApp.resolved song (Ok r) st1
          = PipedApp.setIsResolvingAudio false
              (if Js.truthy_opt (previewUrl song)
               then PipedApp.setUsingPreview true st1
               else PipedApp.setIsPlaying false
                      (PipedApp.alert "Song unavailable." st1))) as Hres.
  { unfold PipedApp.resolved. destruct r as [u| |]; simpl in *; [|done..].
    by rewrite Hr. }
  unfold PipedApp.resolve. rewrite Hres.
  set (st2 := PipedApp.setIsResolvingAudio _ _).
  destruct (piped_render_frame st2) as (_ & _ & -> & -> & -> & ->).
  split_and!.
  - intros Hprev. rewrite piped_render_src.
    assert (st2 = PipedApp.setIsResolvingAudio false (PipedApp.setUsingPreview true st1))
      as -> by (subst st2; by rewrite Hprev).
    split_and!; simpl; try done.
    + unfold PipedApp.srcProp. simpl. by rewrite Hc, Hprev.
    + apply (piped_render_playing _ song); simpl; try done.
      by rewrite orb_true_r.
  - intros Hprev. subst st2. rewrite Hprev. simpl. by rewrite Ha.
  - done.
Qed.

Lemma resolution_failure_fallback_witness :
  PipedApp.usingPreview
    (PipedApp.resolve trackA (Ok Null)
       (PipedApp.play trackA (Some [trackA; trackB; trackC]) PipedApp.initial).1)
  = true
  ∧ PipedApp.isPlaying
      (PipedApp.resolve trackC (Ok Null)
         (PipedApp.play trackC (Some [trackA; trackB; trackC]) PipedApp.initial).1)
    = false.
Proof.
  split.
  - apply (resolution_failure_fallback PipedApp.initial trackA
             (Some [trackA; trackB; trackC]) Null); reflexivity.
  - apply (resolution_failure_fallback PipedApp.initial trackC
             (Some [trackA; trackB; trackC]) Null); reflexivity.
Defined.

(** A listener that holds the current [isPlaying] runs the [handleNext]
    of the current render. *)
Lemma piped_handleNextHeld_current st :
  PipedApp.handleNextHeld (PipedApp.isPlaying st) st = PipedApp.handleNext st.
Proof.
  unfold PipedApp.handleNextHeld, PipedApp.handleNext, PipedApp.playAt.
  destruct (PipedApp.currentSong st) as [c|] eqn:Hc; [|done]. cbv zeta.
  destruct (Js.index _ _) as [song|]; [|done].
  unfold PipedApp.handlePlaySongHeld, PipedApp.handlePlaySong.
  rewrite Hc. by destruct (isCurrent (Some c) song).
Qed.

(** The else-branches of [onError]: for a listener that holds the intent
    to play while it is the intent, an error on the fallback, or on a song
    without a preview, is handled by [handleNext]. *)
Lemma piped_error_skips st :
  PipedApp.isPlaying st = true →
  PipedApp.usingPreview st = true
  ∨ Js.truthy_opt (PipedApp.currentSong st ≫= previewUrl) = false →
  PipedApp.error true st = PipedApp.next st.
Proof.
  intros Hp Hskip. unfold PipedApp.error, PipedApp.next, PipedApp.onError.
  rewrite <- piped_handleNextHeld_current, Hp.
  destruct Hskip as [->| ->]; simpl; [done|].
  by rewrite andb_false_r.
Qed.

(** [handleNext] on a queue that holds the current track, when the entry
    after it is another track: that entry becomes current, the intent is to
    play, and the fallback flag is reset. *)
Lemma piped_next_advances st c target :
  PipedApp.currentSong st = Some c →
  (∃ s, s ∈ PipedApp.songs st ∧ id s = id c) →
  PipedApp.songs st
    !! ((queueIndex (PipedApp.songs st) c + 1) mod length (PipedApp.songs st))
  = Some target →
  id target ≠ id c →
  PipedApp.currentSong (PipedApp.next st).1 = Some target
  ∧ PipedApp.isPlaying (PipedApp.next st).1 = true
  ∧ PipedApp.usingPreview (PipedApp.next st).1 = false.
Proof.
  intros Hc Hin Ht Hid.
  destruct (piped_handleNext_found st c Hc Hin) as (target' & Ht' & Hnext).
  assert (target' = target) as -> by congruence.
  unfold PipedApp.next, PipedApp.rendered. rewrite Hnext.
  assert (isCurrent (PipedApp.currentSong st) target = false) as Hcur.
  { rewrite Hc. simpl. apply not_true_is_false. rewrite String.eqb_eq. congruence. }
  rewrite piped_handlePlaySong_other by done. cbv zeta.
  destruct (isLocal target || _); simpl;
    set (st' := PipedApp.setIsResolvingAudio _ _);
    by destruct (piped_render_frame st') as (_ & -> & -> & _ & -> & _).
Qed.

(** The first branch of [onError], for a listener that holds the intent
    to play while it is the intent: the fallback is taken into use, the
    element gets the preview as its source, at position 0, and plays; the
    change of [usingPreview] registers the listeners anew, and a second
    error on that song is handled by [handleNext]. *)
Lemma piped_error_falls_back m c u :
  PipedApp.currentSong (PipedListeners.state m) = Some c →
  previewUrl c = Some u → Js.truthy u = true →
  PipedApp.isPlaying (PipedListeners.state m) = true →
  PipedListeners.held m = true →
  PipedApp.usingPreview (PipedListeners.state m) = false →
  (PipedListeners.error m).2 = Settled
  ∧ PipedApp.usingPreview (PipedListeners.state (PipedListeners.error m).1) = true
  ∧ PipedApp.currentSong (PipedListeners.state (PipedListeners.error m).1) = Some c
  ∧ PipedApp.isPlaying (PipedListeners.state (PipedListeners.error m).1) = true
  ∧ Audio.src (PipedApp.audio (PipedListeners.state (PipedListeners.error m).1))
    = Some u
  ∧ Audio.currentTime (PipedApp.audio (PipedListeners.state (PipedListeners.error m).1))
    = 0%Z
  ∧ Audio.paused (PipedApp.audio (PipedListeners.state (PipedListeners.error m).1))
    = false
  ∧ PipedListeners.held (PipedListeners.error m).1 = true
  ∧ PipedListeners.state (PipedListeners.error (PipedListeners.error m).1).1
    = (PipedApp.next (PipedListeners.state (PipedListeners.error m).1)).1.
Proof.
  destruct m as [st held]. cbn [PipedListeners.state PipedListeners.held].
  intros Hc Hprev Hu Hp -> Hfb.
  set (st' := PipedApp.setAudio
                (Audio.play (Audio.load (Some u) (PipedApp.audio st)))
                (PipedApp.setUsingPreview true st)).
  assert (PipedApp.error true st = (PipedApp.render st', Settled)) as Herr.
  { unfold PipedApp.error, PipedApp.rendered, PipedApp.onError.
    rewrite Hc, Hfb. simpl. by rewrite Hprev; simpl; rewrite Hu. }
  assert (Audio.src (PipedApp.audio st') = PipedApp.srcProp st') as Hsync.
  { subst st'. unfold PipedApp.srcProp. simpl.
    by rewrite Hc, Hprev; simpl; rewrite Hu. }
  destruct (piped_render_frame st') as (Hs' & Hc' & Hp' & _ & Hu' & _).
  destruct (piped_render_in_sync st' Hsync) as [Htime Hpaused].
  assert (PipedListeners.error (PipedListeners.mk st true)
          = (PipedListeners.mk (PipedApp.render st') true, Settled)) as ->.
  { unfold PipedListeners.error, PipedListeners.commit.
    cbn [PipedListeners.state PipedListeners.held]. rewrite Herr.
    cbn [fst snd orb]. rewrite bool_decide_eq_false_2;
      [cbn [negb]; rewrite Hp';
       change (PipedApp.isPlaying st') with (PipedApp.isPlaying st); by rewrite Hp|].
    unfold PipedListeners.deps. rewrite Hu'. simpl. rewrite Hfb.
    intros [= _ _ ?]. }
  cbn [fst snd PipedListeners.state PipedListeners.held].
  rewrite Hc', Hp', Hu', piped_render_src, <- Hsync, Htime.
  split_and!; [done|done|exact Hc|exact Hp|done|done|by apply Hpaused|done|].
  unfold PipedListeners.error.
  cbn [fst snd PipedListeners.state PipedListeners.held PipedListeners.commit].
  rewrite piped_error_skips; [done|by rewrite Hp'|left; by rewrite Hu'].
Qed.

(** C3.  The claim fails on the code for a listener that was registered
    while the intent was to pause.  In the session [pausedAndResumed] the
    full stream of a track with a preview is playing, the fallback is not
    in use, and the registered listeners hold [isPlaying = false]: the
    track was added to the queue during the pause, and resuming does not
    register the listeners anew.  An error of the audio element then
    changes nothing: no preview, no next track.  The branches of the
    listener are those of the claim when it holds the intent to play: the
    preview becomes the source, at position 0, and plays, and a second
    error on that song is handled by [handleNext]; an error on the
    fallback, or on a song without preview, is handled by [handleNext],
    which makes the entry after the current track current when that is
    another track.  The id-keyed variant has no preview; its listener arms
    a timer of 1000 ms that runs [handleNext] when it holds the intent to
    play, and does nothing in the same session. *)
Theorem playback_error_unrecovered :
  (PipedApp.isPlaying (PipedListeners.state pausedAndResumed) = true
   ∧ PipedApp.usingPreview (PipedListeners.state pausedAndResumed) = false
   ∧ PipedApp.currentSong (PipedListeners.state pausedAndResumed)
     = Some (withAudioUrl fullUrlA trackA)
   ∧ previewUrl (withAudioUrl fullUrlA trackA) = Some "https://preview.example/a.m4a"
   ∧ Audio.src (PipedApp.audio (PipedListeners.state pausedAndResumed))
     = Some fullUrlA
   ∧ Audio.paused (PipedApp.audio (PipedListeners.state pausedAndResumed)) = false
   ∧ PipedListeners.held pausedAndResumed = false
   ∧ PipedListeners.error pausedAndResumed = (pausedAndResumed, Settled))
  ∧ (∀ m c u,
       PipedApp.currentSong (PipedListeners.state m) = Some c →
       previewUrl c = Some u → Js.truthy u = true →
       PipedApp.isPlaying (PipedListeners.state m) = true →
       PipedListeners.held m = true →
       PipedApp.usingPreview (PipedListeners.state m) = false →
       (PipedListeners.error m).2 = Settled
       ∧ PipedApp.usingPreview (PipedListeners.state (PipedListeners.error m).1) = true
       ∧ PipedApp.currentSong (PipedListeners.state (PipedListeners.error m).1)
         = Some c
       ∧ PipedApp.isPlaying (PipedListeners.state (PipedListeners.error m).1) = true
       ∧ Audio.src (PipedApp.audio (PipedListeners.state (PipedListeners.error m).1))
         = Some u
       ∧ Audio.currentTime
           (PipedApp.audio (PipedListeners.state (PipedListeners.error m).1))
         = 0%Z
       ∧ Audio.paused
           (PipedApp.audio (PipedListeners.state (PipedListeners.error m).1))
         = false
       ∧ PipedListeners.held (PipedListeners.error m).1 = true
       ∧ PipedListeners.state (PipedListeners.error (PipedListeners.error m).1).1
         = (PipedApp.next (PipedListeners.state (PipedListeners.error m).1)).1)
  ∧ (∀ st,
       PipedApp.isPlaying st = true →
       PipedApp.usingPreview st = true
       ∨ Js.truthy_opt (PipedApp.currentSong st ≫= previewUrl) = false →
       PipedApp.error true st = PipedApp.next st)
  ∧ (∀ st c target,
       PipedApp.currentSong st = Some c →
       (∃ s, s ∈ PipedApp.songs st ∧ id s = id c) →
       PipedApp.songs st
         !! ((queueIndex (PipedApp.songs st) c + 1) mod length (PipedApp.songs st))
       = Some target →
       id target ≠ id c →
       PipedApp.currentSong (PipedApp.next st).1 = Some target
       ∧ PipedApp.isPlaying (PipedApp.next st).1 = true
       ∧ PipedApp.usingPreview (PipedApp.next st).1 = false)
  ∧ (∀ st, PipedApp.onError false st = (st, Settled))
  ∧ (AudiusApp.isPlaying (AudiusListeners.state audiusPausedAndResumed) = true
     ∧ AudiusApp.currentSong (AudiusListeners.state audiusPausedAndResumed)
       = Some (withAudioUrl fullUrlA trackA)
     ∧ AudiusListeners.held audiusPausedAndResumed = false
     ∧ AudiusListeners.error audiusPausedAndResumed = None)
  ∧ AudiusApp.onError true = Some (1000, AudiusApp.handleNext)
  ∧ (∀ st,
       AudiusApp.currentSong (AudiusApp.handleNext st)
       = AudiusApp.nextSong (AudiusApp.songs st) (AudiusApp.currentSong st)
       ∧ AudiusApp.isPlaying (AudiusApp.handleNext st) = true).
Proof.
  split; [by vm_compute|].
  split; [apply piped_error_falls_back|].
  split; [apply piped_error_skips|].
  split; [apply piped_next_advances|].
  split; [done|].
  split; [by vm_compute|].
  split; [done|].
  done.
Qed.

(** * Generated playlists and search *)

(** The loop of lines 391-393 keeps the head of every non-empty result
    list, in order. *)
Lemma firstOfEach_omap results : firstOfEach results = omap head results.
Proof.
  unfold firstOfEach.
  induction results as [|[|first rest] results IH]; simpl; [done|exact IH|].
  by rewrite IH.
Qed.

Lemma firstOfEach_length results :
  (length (firstOfEach results) ≤ length results)%nat.
Proof.
  unfold firstOfEach.
  induction results as [|[|first rest] results IH]; simpl; lia.
Qed.

(** The queue after [generated] when at least one title has a match. *)
Lemma piped_generated_songs titles search st first rest :
  firstOfEach (searchAll search titles) = first :: rest →
  PipedApp.songs (PipedApp.generated titles search st).1 = first :: rest.
Proof.
  intros Hp. unfold PipedApp.generated. rewrite Hp.
  unfold PipedApp.handlePlaySong.
  repeat (case_match; simplify_eq/=; try done).
Qed.

Lemma audius_generated_songs titles search featured st first rest :
  firstOfEach (searchAll search titles) = first :: rest →
  AudiusApp.songs (AudiusApp.generated titles search featured st) = first :: rest.
Proof.
  intros Hp. unfold AudiusApp.generated. rewrite Hp.
  unfold AudiusApp.handlePlaySong.
  repeat (case_match; simplify_eq/=; try done).
Qed.

(** C9, as amended.  Playlist generation searches the first five
    suggested titles, one search per title, and keeps the first result of
    every search that has one, in the order of the suggestions; for the
    suggestions A to E of which B and D find nothing the playlist is the
    first results for A, C and E.  A non-empty playlist becomes the queue
    in both variants.  When no title has a match, the id-keyed variant shows
    a notice and makes the trending list the queue, while the
    title/artist-keyed variant only shows a notice and leaves the queue as
    it was. *)
Theorem generated_playlist :
  (∀ search titles,
     firstOfEach (searchAll search titles) = omap head (imap search (take 5 titles))
     ∧ (length (firstOfEach (searchAll search titles)) ≤ 5)%nat)
  ∧ (∀ search more a c e ra rc re,
       search 0 "A" = a :: ra → search 1 "B" = [] → search 2 "C" = c :: rc →
       search 3 "D" = [] → search 4 "E" = e :: re →
       firstOfEach (searchAll search (["A"; "B"; "C"; "D"; "E"] ++ more)) = [a; c; e])
  ∧ (∀ titles search featured st first rest,
       firstOfEach (searchAll search titles) = first :: rest →
       AudiusApp.songs (AudiusApp.generated titles search featured st) = first :: rest)
  ∧ (∀ titles search st first rest,
       firstOfEach (searchAll search titles) = first :: rest →
       PipedApp.songs (PipedApp.generated titles search st).1 = first :: rest)
  ∧ (∀ titles search featured st,
       firstOfEach (searchAll search titles) = [] →
       AudiusApp.songs (AudiusApp.generated titles search featured st) = featured
       ∧ AudiusApp.alerts (AudiusApp.generated titles search featured st)
         = AudiusApp.alerts st
           ++ ["AI suggestion not found in library. Playing trending hits."])
  ∧ (∀ titles search st,
       firstOfEach (searchAll search titles) = [] →
       PipedApp.songs (PipedApp.generated titles search st).1 = PipedApp.songs st
       ∧ PipedApp.alerts (PipedApp.generated titles search st).1
         = PipedApp.alerts st ++ ["AI couldn't find matches. Try simpler keywords."]).
Proof.
  split_and!.
  - intros search titles. split; [apply firstOfEach_omap|].
    etrans; [apply firstOfEach_length|].
    unfold searchAll. rewrite length_imap, length_take. lia.
  - intros search more a c e ra rc re Ha Hb Hc Hd He.
    unfold searchAll. simpl. by rewrite Ha, Hb, Hc, Hd, He.
  - apply audius_generated_songs.
  - apply piped_generated_songs.
  - intros titles search featured st Hp. unfold AudiusApp.generated. by rewrite Hp.
  - intros titles search st Hp. unfold PipedApp.generated. by rewrite Hp.
Qed.

Lemma generated_playlist_witness :
  AudiusApp.songs
    (AudiusApp.generated ["A"; "B"] nothingFound [trackB; trackC] AudiusApp.initial)
  = [trackB; trackC]
  ∧ PipedApp.songs
      (PipedApp.generated ["A"; "B"]
         (λ i _, if (i =? 1)%nat then [trackC; trackA] else [])
         awaitingSuggestions).1
    = [trackC].
Proof.
  destruct generated_playlist as (_ & _ & _ & Hqueue & Htrending & _).
  split.
  - apply (Htrending ["A"; "B"] nothingFound [trackB; trackC] AudiusApp.initial).
    reflexivity.
  - apply (Hqueue ["A"; "B"] _ awaitingSuggestions trackC []). reflexivity.
Defined.

(** The claim C9 as stated fails: in the title/artist-keyed variant, when
    no suggested title has a match, the queue stays as it was ([trackA])
    and a notice is shown; it does not become the trending list, which here
    is [trackB; trackC]. *)
Lemma no_trending_fallback_counterexample :
  firstOfEach (searchAll nothingFound ["A"; "B"; "C"]) = []
  ∧ PipedService.getFeaturedSongs (itunesServes [trackB; trackC]) 0 2
    = Some (["Top Hits 2024"], [trackB; trackC])
  ∧ PipedApp.songs
      (PipedApp.generated ["A"; "B"; "C"] nothingFound awaitingSuggestions).1
    = [trackA]
  ∧ PipedApp.alerts
      (PipedApp.generated ["A"; "B"; "C"] nothingFound awaitingSuggestions).1
    = ["AI couldn't find matches. Try simpler keywords."]
  ∧ [trackA] ≠ [trackB; trackC].
Proof. split_and!; [reflexivity..|discriminate]. Qed.

(** C10.  [searchSongs] with the empty query is [getFeaturedSongs]: in the
    iTunes-backed service it sends exactly one request, for the entry of
    [trendingSearches] that was drawn, which is not empty, and returns what
    that search returns; three levels of calls suffice.  In the Audius-backed
    service it requests the trending endpoint and no search at all. *)
Theorem empty_query_is_featured :
  (∀ itunes pick fuel,
     pick < length PipedService.trendingSearches →
     PipedService.searchSongs itunes pick (S (S (S fuel))) ""
     = PipedService.getFeaturedSongs itunes pick (S (S fuel))
     ∧ ∃ term,
         PipedService.trendingSearches !! pick = Some term
         ∧ term ≠ ""
         ∧ PipedService.searchSongs itunes pick (S (S (S fuel))) ""
           = Some ([term], PipedService.searchRemote itunes term))
  ∧ (∀ fetchJson,
       AudiusService.searchSongs fetchJson ""
       = AudiusService.getFeaturedSongs fetchJson
       ∧ (AudiusService.searchSongs fetchJson "").1 = [AudiusService.Trending]).
Proof.
  split.
  - intros itunes pick fuel Hpick. split; [done|].
    destruct (lookup_lt_is_Some_2 _ _ Hpick) as [term Hterm].
    exists term. split; [done|].
    assert (Forall (λ s, s ≠ "") PipedService.trendingSearches) as Hall
      by (repeat constructor; discriminate).
    pose proof (Forall_lookup_1 _ _ _ _ Hall Hterm) as Hne.
    split; [done|]. simpl. rewrite Hterm. simpl.
    by rewrite (truthy_nonempty _ Hne).
  - done.
Qed.

Lemma empty_query_is_featured_witness :
  PipedService.searchSongs (itunesServes [trackB; trackC]) 6 3 ""
  = Some (["Taylor Swift"], [trackB; trackC]).
Proof.
  destruct (proj1 empty_query_is_featured (itunesServes [trackB; trackC]) 6 0)
    as (_ & term & Hterm & _ & ->); [simpl; lia|].
  by injection Hterm as <-.
Defined.

(** * The requests of the resolver *)

Section ResolverLog.
Variable net : PipedService.Network.
Variable query : string.

Local Abbreviation tryInstance := (PipedService.tryInstance net query).
Local Abbreviation resolveOn := (PipedService.resolveOn net query).

(** A turn that sends only the search request continues; a stream
    request carries a non-empty video id. *)
Lemma tryInstance_log instance :
  ((tryInstance instance).1 = [PipedService.SearchReq instance query]
   ∧ (tryInstance instance).2 = PipedService.Continue)
  ∨ ∃ videoId, videoId ≠ "" ∧
      (tryInstance instance).1
      = [PipedService.SearchReq instance query;
         PipedService.StreamsReq instance videoId].
Proof.
  unfold PipedService.tryInstance.
  repeat (case_match; simpl; eauto).
  right. eexists. split; [|done]. by intros ->.
Qed.

(** The log of a run in which every turn fails holds one search request
    for every instance, in the order of the pool. *)
Lemma resolveOn_search_log instances :
  (∀ i, i ∈ instances → (tryInstance i).2 = PipedService.Continue) →
  omap searchedInstance (resolveOn instances).1 = instances.
Proof.
  induction instances as [|i rest IH]; intros Hall; simpl; [done|].
  pose proof (tryInstance_requests net query i) as Hreq.
  pose proof (Hall i ltac:(left)) as Hi.
  destruct (tryInstance i) as [reqs step]. simpl in Hi, Hreq. subst step.
  destruct (resolveOn rest) as [more r] eqn:Hrest. simpl in *.
  rewrite omap_app, IH by (intros j Hj; apply Hall; by right).
  by destruct Hreq as [->|[videoId ->]].
Qed.

Lemma resolveOn_log_length instances :
  (length (resolveOn instances).1 ≤ 2 * length instances)%nat.
Proof.
  induction instances as [|i rest IH]; simpl; [lia|].
  pose proof (tryInstance_requests net query i) as Hreq.
  destruct (tryInstance i) as [reqs [|v]]; simpl in *.
  - destruct (resolveOn rest) as [more r]. simpl in *.
    rewrite length_app. destruct Hreq as [->|[videoId ->]]; simpl; lia.
  - destruct Hreq as [->|[videoId ->]]; simpl; lia.
Qed.

Lemma resolveOn_log_instances instances r :
  r ∈ (resolveOn instances).1 → requestInstance r ∈ instances.
Proof.
  induction instances as [|i rest IH]; simpl; [by inversion 1|].
  pose proof (tryInstance_requests net query i) as Hreq.
  assert (r ∈ (tryInstance i).1 → requestInstance r = i) as Hturn.
  { destruct Hreq as [->|[videoId ->]]; intros Hr;
      repeat (apply elem_of_cons in Hr as [->|Hr]; [done|]); inversion Hr. }
  destruct (tryInstance i) as [reqs [|v]]; simpl in *.
  - destruct (resolveOn rest) as [more res]. simpl in *.
    intros [Hr|Hr]%elem_of_app.
    + rewrite (Hturn Hr). left.
    + right. by apply IH.
  - intros Hr. rewrite (Hturn Hr). left.
Qed.

Lemma resolveOn_log_queries instances instance q :
  PipedService.SearchReq instance q ∈ (resolveOn instances).1 → q = query.
Proof.
  induction instances as [|i rest IH]; simpl; [by inversion 1|].
  pose proof (tryInstance_requests net query i) as Hreq.
  assert (PipedService.SearchReq instance q ∈ (tryInstance i).1 → q = query) as Hturn.
  { destruct Hreq as [->|[videoId ->]]; intros Hr;
      repeat (apply elem_of_cons in Hr as [Heq|Hr]; [congruence|]); inversion Hr. }
  destruct (tryInstance i) as [reqs [|v]]; simpl in *.
  - destruct (resolveOn rest) as [more res]. simpl in *.
    intros [Hr|Hr]%elem_of_app; [by apply Hturn|by apply IH].
  - done.
Qed.

Lemma resolveOn_log_streams instances k instance videoId :
  (resolveOn instances).1 !! k = Some (PipedService.StreamsReq instance videoId) →
  videoId ≠ ""
  ∧ ∃ j, k = S j
      ∧ (resolveOn instances).1 !! j = Some (PipedService.SearchReq instance query).
Proof.
  revert k. induction instances as [|i rest IH]; intros k; simpl; [done|].
  pose proof (tryInstance_log i) as Hlog.
  assert (∀ tl,
    ((tryInstance i).1 ++ tl) !! k = Some (PipedService.StreamsReq instance videoId) →
    (∀ k', tl !! k' = Some (PipedService.StreamsReq instance videoId) →
       videoId ≠ "" ∧ ∃ j, k' = S j
         ∧ tl !! j = Some (PipedService.SearchReq instance query)) →
    videoId ≠ "" ∧ ∃ j, k = S j
      ∧ ((tryInstance i).1 ++ tl) !! j = Some (PipedService.SearchReq instance query))
    as Hturn.
  { intros tl. destruct Hlog as [[-> _]|(v & Hv & ->)]; intros Hk Htl.
    - destruct k as [|k]; simpl in Hk; [done|].
      destruct (Htl k Hk) as (Hne & j & -> & Hj). split; [done|].
      exists (S j). by split.
    - destruct k as [|[|k]]; simpl in Hk; [done| |].
      + injection Hk as <- <-. split; [done|]. by exists 0.
      + destruct (Htl k Hk) as (Hne & j & -> & Hj). split; [done|].
        exists (S (S j)). by split. }
  destruct (tryInstance i) as [reqs [|v]]; simpl in *.
  - destruct (resolveOn rest) as [more res]. simpl in *.
    intros Hk. apply (Hturn more Hk). intros k'. apply IH.
  - intros Hk. specialize (Hturn []). rewrite app_nil_r in Hturn.
    apply Hturn; [done|]. by intros k' ?.
Qed.

Lemma resolveOn_log_last instances :
  (resolveOn instances).2 ≠ Null →
  ∃ instance videoId,
    list.last (resolveOn instances).1 = Some (PipedService.StreamsReq instance videoId).
Proof.
  induction instances as [|i rest IH]; simpl; [done|].
  pose proof (tryInstance_log i) as Hlog.
  destruct (tryInstance i) as [reqs [|v]]; simpl in *.
  - destruct (resolveOn rest) as [more res]. simpl in *.
    intros Hres. destruct (IH Hres) as (instance & videoId & Hlast).
    exists instance, videoId.
    destruct more as [|m more]; [done|].
    by rewrite last_app, Hlast.
  - intros _. destruct Hlog as [[_ [=]]|(videoId & _ & ->)].
    by exists i, videoId.
Qed.

End ResolverLog.

(** The first instance whose turn returns ends [getStreamUrl]: the result
    is what that turn returns, the requests are those of a run on the pool
    cut after that instance, and none of them goes to an instance that
    only stands later in the pool. *)
Theorem resolver_stops_at_first_success net clean failed instance rest title artist v :
  (∀ i, i ∈ failed →
     (PipedService.tryInstance net (clean title artist) i).2 = PipedService.Continue) →
  (PipedService.tryInstance net (clean title artist) instance).2 = PipedService.Return v →
  PipedService.getStreamUrl net clean (failed ++ instance :: rest) title artist
  = PipedService.getStreamUrl net clean (failed ++ [instance]) title artist
  ∧ (PipedService.getStreamUrl net clean (failed ++ instance :: rest) title artist).2 = v
  ∧ ∀ r, r ∈ (PipedService.getStreamUrl net clean (failed ++ instance :: rest) title artist).1 →
         requestInstance r ∈ failed ++ [instance].
Proof.
  intros Hfailed Hret. unfold PipedService.getStreamUrl.
  rewrite (resolveOn_first net _ failed instance rest v Hfailed Hret).
  rewrite <- (resolveOn_first net _ failed instance [] v Hfailed Hret).
  split_and!; [done| |].
  - by rewrite (resolveOn_first net _ failed instance [] v Hfailed Hret).
  - apply resolveOn_log_instances.
Qed.

Lemma resolver_stops_at_first_success_witness :
  PipedService.getStreamUrl (onlyInstance "https://api.piped.ot.ax") plainQuery
    PipedService.STREAM_APIS "Song" "Artist"
  = ([ PipedService.SearchReq "https://pipedapi.kavin.rocks" "Song Artist official audio";
       PipedService.SearchReq "https://api.piped.ot.ax" "Song Artist official audio";
       PipedService.StreamsReq "https://api.piped.ot.ax" "abc" ],
     Url "https://cdn.example/full.m4a").
Proof.
  destruct (resolver_stops_at_first_success (onlyInstance "https://api.piped.ot.ax")
              plainQuery ["https://pipedapi.kavin.rocks"] "https://api.piped.ot.ax"
              (drop 2 PipedService.STREAM_APIS) "Song" "Artist"
              (Url "https://cdn.example/full.m4a")) as (Heq & _).
  - intros i ->%list_elem_of_singleton. reflexivity.
  - reflexivity.
  - change PipedService.STREAM_APIS
      with (["https://pipedapi.kavin.rocks"] ++ "https://api.piped.ot.ax"
            :: drop 2 PipedService.STREAM_APIS).
    rewrite Heq. reflexivity.
Defined.

(** The requests of a call of [getStreamUrl], whatever the instances
    reply: at most two per instance of the pool; every request goes to an
    instance of the pool; every search carries the cleaned query; a stream
    request directly follows the search request to the same instance and
    carries a non-empty video id; and a result other than [null] is preceded
    by a stream request as the last request. *)
Theorem resolver_request_discipline net clean instances title artist :
  let log := (PipedService.getStreamUrl net clean instances title artist).1 in
  (length log ≤ 2 * length instances)%nat
  ∧ (∀ r, r ∈ log → requestInstance r ∈ instances)
  ∧ (∀ instance q, PipedService.SearchReq instance q ∈ log → q = clean title artist)
  ∧ (∀ k instance videoId,
       log !! k = Some (PipedService.StreamsReq instance videoId) →
       videoId ≠ ""
       ∧ ∃ j, k = S j
           ∧ log !! j = Some (PipedService.SearchReq instance (clean title artist)))
  ∧ ((PipedService.getStreamUrl net clean instances title artist).2 ≠ Null →
     ∃ instance videoId, list.last log = Some (PipedService.StreamsReq instance videoId)).
Proof.
  unfold PipedService.getStreamUrl. simpl. split_and!.
  - apply resolveOn_log_length.
  - apply resolveOn_log_instances.
  - apply resolveOn_log_queries.
  - apply resolveOn_log_streams.
  - apply resolveOn_log_last.
Qed.

(** * Stream selection and video ids *)

(** [split] on a string that does not hold the separator, and on one
    that starts with it. *)

Lemma split_from_no_sep sep piece s :
  Js.includes sep s = false →
  Js.split_from sep 0 piece s = [String.rev_app piece s].
Proof.
  revert piece. induction s as [|c rest IH]; intros piece; [done|].
  cbn [Js.includes Js.split_from].
  intros [Hpre Hrest]%orb_false_iff. rewrite Hpre.
  by rewrite IH.
Qed.

Lemma split_no_sep sep s : Js.includes sep s = false → Js.split sep s = [s].
Proof. apply split_from_no_sep. Qed.

Lemma prefix_append sep v : String.prefix sep (sep +:+ v) = true.
Proof.
  induction sep as [|c sep IH]; simpl; [by destruct v|].
  by destruct (Ascii.ascii_dec c c).
Qed.

Lemma split_from_skip sep a piece v :
  Js.split_from sep (String.length a) piece (a +:+ v) = Js.split_from sep 0 piece v.
Proof. induction a as [|c a IH]; simpl; [by destruct v|done]. Qed.

Lemma split_prefix c sep v :
  Js.split (String c sep) (String c sep +:+ v) = "" :: Js.split (String c sep) v.
Proof.
  unfold Js.split.
  change (String c sep +:+ v) with (String c (sep +:+ v)).
  cbn [Js.split_from].
  change (String c (sep +:+ v)) with (String c sep +:+ v).
  rewrite prefix_append. f_equal.
  cbn [String.length]. rewrite Nat.sub_succ, Nat.sub_0_r.
  apply split_from_skip.
Qed.

(** The first callback of the stream selection on a list that may hold
    streams without [mimeType]. *)

Section BestStreamFacts.
Import PipedService.

Lemma findE_isMp4_Throw l :
  findE isMp4 l = Throw
  ↔ ∃ k s, l !! k = Some s ∧ Stream.mimeType s = None
           ∧ ∀ j y, l !! j = Some y → j < k → offersMp4 y = false.
Proof.
  induction l as [|x l IH]; simpl.
  { split; [done|]. by intros (k & s & Hk & _). }
  unfold isMp4 at 1. unfold offersMp4 in *.
  destruct (Stream.mimeType x) as [m|] eqn:Hm; simpl.
  - destruct (Js.includes "mp4" m || Js.includes "m4a" m) eqn:Hx.
    + split; [done|]. intros (k & s & Hk & Hs & Hbefore).
      destruct k as [|k]; simpl in Hk; [congruence|].
      specialize (Hbefore 0 x eq_refl ltac:(lia)). rewrite Hm in Hbefore. congruence.
    + rewrite IH. split.
      * intros (k & s & Hk & Hs & Hbefore). exists (S k), s. split_and!; [done..|].
        intros [|j] y Hj Hlt; simpl in Hj.
        -- injection Hj as <-. by rewrite Hm.
        -- apply (Hbefore j); [done|lia].
      * intros (k & s & Hk & Hs & Hbefore).
        destruct k as [|k]; simpl in Hk; [congruence|].
        exists k, s. split_and!; [done..|].
        intros j y Hj Hlt. apply (Hbefore (S j)); [done|lia].
  - split; [|done]. intros _. exists 0, x. split_and!; [done..|]. lia.
Qed.

Lemma findE_isMp4_None l :
  findE isMp4 l = Ok None → typed l ∧ ∀ y, y ∈ l → offersMp4 y = false.
Proof.
  induction l as [|x l IH]; simpl.
  { intros _. split; [constructor|]. by inversion 1. }
  unfold isMp4 at 1. unfold offersMp4 in *.
  destruct (Stream.mimeType x) as [m|] eqn:Hm; simpl; [|done].
  destruct (Js.includes "mp4" m || Js.includes "m4a" m) eqn:Hx; [done|].
  intros [Htyped Hno]%IH. split.
  - constructor; [by rewrite Hm|done].
  - intros y [->|Hy]%elem_of_cons; [by rewrite Hm|by apply Hno].
Qed.

Lemma findE_isMp4_Some l s :
  findE isMp4 l = Ok (Some s) → s ∈ l.
Proof.
  induction l as [|x l IH]; simpl; [done|].
  unfold isMp4 at 1.
  destruct (Stream.mimeType x) as [m|]; simpl; [|done].
  destruct (_ || _).
  - intros [= <-]. left.
  - intros Hs. right. by apply IH.
Qed.

Lemma findE_isMp4_first l i s :
  l !! i = Some s → offersMp4 s = true →
  (∀ j y, l !! j = Some y → j < i →
     is_Some (Stream.mimeType y) ∧ offersMp4 y = false) →
  findE isMp4 l = Ok (Some s).
Proof.
  revert i. induction l as [|x l IH]; intros i Hi Hs Hbefore; [done|].
  simpl. unfold isMp4 at 1. destruct i as [|i]; simpl in Hi.
  - injection Hi as ->. unfold offersMp4 in Hs.
    destruct (Stream.mimeType s); [|done]. simpl. by rewrite Hs.
  - destruct (Hbefore 0 x eq_refl ltac:(lia)) as [[m Hm] Hx].
    unfold offersMp4 in Hx. rewrite Hm in Hx |- *. simpl. rewrite Hx.
    apply (IH i); [done..|]. intros j y Hj Hlt. apply (Hbefore (S j)); [done|lia].
Qed.

End BestStreamFacts.

(** The stream selection of [getStreamUrl] on every list of audio
    streams, typed or not.  It throws exactly when a stream without
    [mimeType] stands in the list with no mp4 or m4a stream before it.  It
    selects nothing only on the empty list, and what it selects is a stream
    of the list.  The first mp4 or m4a stream is selected as soon as the
    streams before it carry a [mimeType]: the streams after it are not
    inspected. *)
Theorem bestStream_outcomes l :
  (PipedService.bestStream l = Throw
   ↔ ∃ k s, l !! k = Some s ∧ PipedService.Stream.mimeType s = None
            ∧ ∀ j y, l !! j = Some y → j < k → offersMp4 y = false)
  ∧ (PipedService.bestStream l = Ok None ↔ l = [])
  ∧ (∀ s, PipedService.bestStream l = Ok (Some s) → s ∈ l)
  ∧ (∀ i s, l !! i = Some s → offersMp4 s = true →
       (∀ j y, l !! j = Some y → j < i →
          is_Some (PipedService.Stream.mimeType y) ∧ offersMp4 y = false) →
       PipedService.bestStream l = Ok (Some s)).
Proof.
  unfold PipedService.bestStream. split_and!.
  - rewrite <- findE_isMp4_Throw.
    destruct (findE PipedService.isMp4 l) as [[s|]|] eqn:Hmp4; simpl; [done| |done].
    apply findE_isMp4_None in Hmp4 as [Htyped _].
    rewrite findE_isWebm by done. simpl.
    by destruct (Js.find offersWebm l).
  - split; [|by intros ->].
    destruct (findE PipedService.isMp4 l) as [[s|]|] eqn:Hmp4; simpl; [done| |done].
    destruct (findE PipedService.isWebm l) as [[s|]|]; simpl; [done| |done].
    by destruct l.
  - intros s.
    destruct (findE PipedService.isMp4 l) as [[s'|]|] eqn:Hmp4; simpl; [| |done].
    { intros [= <-]. by eapply findE_isMp4_Some. }
    apply findE_isMp4_None in Hmp4 as [Htyped _].
    rewrite findE_isWebm by done. simpl.
    destruct (Js.find offersWebm l) as [s'|] eqn:Hwebm.
    + intros [= <-]. by apply find_Some in Hwebm as [? _].
    + intros [= Hhead]. by apply head_Some_elem_of.
  - intros i s Hi Hs Hbefore.
    by rewrite (findE_isMp4_first l i s Hi Hs Hbefore).
Qed.

(** The video id of a search reply is read from the first item of
    type 'stream' and from no other.  Without such an item there is no id;
    when the item has no [url] the expression throws; when its [url] is
    '/watch?v=' followed by an id that does not hold the marker again, the
    id is returned; when its [url] does not hold the marker there is no
    id. *)
Theorem videoIdOf_first_stream_item :
  (∀ items,
     (∀ i, i ∈ items → PipedService.Item.type i ≠ Some "stream") →
     PipedService.videoIdOf items = Ok None)
  ∧ (∀ before item after,
       (∀ i, i ∈ before → PipedService.Item.type i ≠ Some "stream") →
       PipedService.Item.type item = Some "stream" →
       (PipedService.Item.url item = None →
        PipedService.videoIdOf (before ++ item :: after) = Throw)
       ∧ (∀ v, PipedService.Item.url item = Some ("/watch?v=" +:+ v) →
               Js.includes "/watch?v=" v = false →
               PipedService.videoIdOf (before ++ item :: after) = Ok (Some v))
       ∧ (∀ u, PipedService.Item.url item = Some u →
               Js.includes "/watch?v=" u = false →
               PipedService.videoIdOf (before ++ item :: after) = Ok None)).
Proof.
  assert (∀ before item after,
    (∀ i, i ∈ before → PipedService.Item.type i ≠ Some "stream") →
    PipedService.Item.type item = Some "stream" →
    Js.find (λ i, bool_decide (PipedService.Item.type i = Some "stream"))
      (before ++ item :: after) = Some item) as Hfind.
  { intros before item after Hbefore Hitem.
    induction before as [|b before IH]; simpl.
    - by rewrite bool_decide_eq_true_2.
    - rewrite bool_decide_eq_false_2 by (apply Hbefore; left).
      apply IH. intros i Hi. apply Hbefore. by right. }
  split.
  - intros items Hnone. unfold PipedService.videoIdOf.
    destruct (Js.find _ items) as [i|] eqn:Hi; [|done].
    apply find_Some in Hi as [Hin Htype].
    apply bool_decide_eq_true in Htype. by destruct (Hnone i Hin).
  - intros before item after Hbefore Hitem.
    unfold PipedService.videoIdOf. rewrite (Hfind _ _ _ Hbefore Hitem).
    split_and!.
    + by intros ->.
    + intros v -> Hv. f_equal.
      by rewrite split_prefix, split_no_sep.
    + intros u -> Hu. by rewrite split_no_sep.
Qed.

Lemma videoIdOf_first_stream_item_witness :
  PipedService.videoIdOf
    [ PipedService.Item.mk (Some "channel") (Some "/channel/UC1");
      PipedService.Item.mk (Some "stream") (Some "/watch?v=abc");
      PipedService.Item.mk (Some "stream") (Some "/watch?v=xyz") ]
  = Ok (Some "abc").
Proof.
  destruct videoIdOf_first_stream_item as [_ H].
  destruct (H [PipedService.Item.mk (Some "channel") (Some "/channel/UC1")]
              (PipedService.Item.mk (Some "stream") (Some "/watch?v=abc"))
              [PipedService.Item.mk (Some "stream") (Some "/watch?v=xyz")])
    as (_ & Hid & _).
  - intros i ->%list_elem_of_singleton. discriminate.
  - reflexivity.
  - apply (Hid "abc"); reflexivity.
Defined.

(** What the stream selection selects is a stream of the list. *)
Lemma bestStream_elem_of l best :
  PipedService.bestStream l = Ok (Some best) → best ∈ l.
Proof.
  unfold PipedService.bestStream.
  destruct (findE PipedService.isMp4 l) as [[s|]|] eqn:Hmp4; simpl; [| |done].
  { intros [= <-]. by eapply findE_isMp4_Some. }
  apply findE_isMp4_None in Hmp4 as [Htyped _].
  rewrite findE_isWebm by done. simpl.
  destruct (Js.find offersWebm l) as [s|] eqn:Hwebm.
  - intros [= <-]. by apply find_Some in Hwebm as [? _].
  - intros [= Hhead]. by apply head_Some_elem_of.
Qed.

(** The two ways in which [getStreamUrl] answers [null].  When the turn
    of every instance of the pool fails the answer is [null], after one
    search request to every instance in the order of the pool: a single
    pass, no instance retried and none left out.  An answer [null] comes
    from such a pass, or from an instance, reached after the instances
    before it failed, whose selected stream has [null] as its [url]: line
    145 returns that field as it is, and the instances after it are not
    contacted.  So when no stream of any reply has a [null] url, [null]
    means that every instance failed. *)
Theorem resolver_null_result net clean instances title artist :
  ((∀ i, i ∈ instances →
      (PipedService.tryInstance net (clean title artist) i).2 = PipedService.Continue) →
   (PipedService.getStreamUrl net clean instances title artist).2 = Null
   ∧ omap searchedInstance (PipedService.getStreamUrl net clean instances title artist).1
     = instances)
  ∧ ((PipedService.getStreamUrl net clean instances title artist).2 = Null →
     (∀ i, i ∈ instances →
        (PipedService.tryInstance net (clean title artist) i).2 = PipedService.Continue)
     ∨ ∃ failed instance rest videoId streamData l best,
         instances = failed ++ instance :: rest
         ∧ (∀ i, i ∈ failed →
              (PipedService.tryInstance net (clean title artist) i).2
              = PipedService.Continue)
         ∧ PipedService.streams net instance videoId = Replied true (Some streamData)
         ∧ PipedService.audioStreams streamData = Some l
         ∧ PipedService.bestStream l = Ok (Some best)
         ∧ PipedService.Stream.url best = Null
         ∧ ∀ r, r ∈ (PipedService.getStreamUrl net clean instances title artist).1 →
                requestInstance r ∈ failed ++ [instance])
  ∧ ((∀ instance videoId streamData l s,
        PipedService.streams net instance videoId = Replied true (Some streamData) →
        PipedService.audioStreams streamData = Some l →
        s ∈ l → PipedService.Stream.url s ≠ Null) →
     (PipedService.getStreamUrl net clean instances title artist).2 = Null →
     ∀ i, i ∈ instances →
       (PipedService.tryInstance net (clean title artist) i).2 = PipedService.Continue).
Proof.
  unfold PipedService.getStreamUrl.
  assert ((PipedService.resolveOn net (clean title artist) instances).2 = Null →
    (∀ i, i ∈ instances →
       (PipedService.tryInstance net (clean title artist) i).2 = PipedService.Continue)
    ∨ ∃ failed instance rest videoId streamData l best,
        instances = failed ++ instance :: rest
        ∧ (∀ i, i ∈ failed →
             (PipedService.tryInstance net (clean title artist) i).2
             = PipedService.Continue)
        ∧ PipedService.streams net instance videoId = Replied true (Some streamData)
        ∧ PipedService.audioStreams streamData = Some l
        ∧ PipedService.bestStream l = Ok (Some best)
        ∧ PipedService.Stream.url best = Null
        ∧ ∀ r, r ∈ (PipedService.resolveOn net (clean title artist) instances).1 →
               requestInstance r ∈ failed ++ [instance]) as Hnull.
  { intros Hres.
    destruct (resolveOn_cases net (clean title artist) instances)
      as [[Hall _]|(failed & instance & rest & Hsplit & Hfailed & Hret)]; [by left|].
    right. rewrite Hres in Hret.
    destruct (tryInstance_returns net _ instance Null Hret)
      as (videoId & streamData & l & best & _ & Hstreams & Hl & Hbest & Hurl).
    exists failed, instance, rest, videoId, streamData, l, best.
    split_and!; [done..|].
    rewrite Hsplit, (resolveOn_first net _ failed instance rest Null Hfailed Hret).
    rewrite <- (resolveOn_first net _ failed instance [] Null Hfailed Hret).
    apply resolveOn_log_instances. }
  split_and!.
  - intros Hall. split; [by rewrite resolveOn_exhausted|].
    by apply resolveOn_search_log.
  - exact Hnull.
  - intros Hno Hres.
    destruct (Hnull Hres)
      as [Hall|(failed & instance & rest & videoId & streamData & l & best
                & _ & _ & Hstreams & Hl & Hbest & Hurl & _)]; [done|].
    destruct (Hno instance videoId streamData l best Hstreams Hl); [|done].
    by apply bestStream_elem_of.
Qed.

Lemma resolver_null_result_witness :
  PipedService.getStreamUrl nullUrlServed plainQuery PipedService.STREAM_APIS
    "Song" "Artist"
  = ([ PipedService.SearchReq "https://pipedapi.kavin.rocks" "Song Artist official audio";
       PipedService.StreamsReq "https://pipedapi.kavin.rocks" "abc" ],
     Null)
  ∧ (PipedService.getStreamUrl (onlyInstance "nowhere") plainQuery
       ["https://pipedapi.kavin.rocks"; "https://api.piped.ot.ax"] "Song" "Artist").2
    = Null.
Proof.
  split; [reflexivity|].
  apply (proj1 (resolver_null_result (onlyInstance "nowhere") plainQuery
                  ["https://pipedapi.kavin.rocks"; "https://api.piped.ot.ax"]
                  "Song" "Artist")).
  intros i Hi. repeat (apply elem_of_cons in Hi as [->|Hi]; [reflexivity|]).
  inversion Hi.
Defined.

(** * Resolution that succeeds *)

(** [play] for a track that is not the current one. *)
Lemma piped_play_other st song ctx :
  isCurrent (PipedApp.currentSong st) song = false →
  PipedApp.currentSong (PipedApp.play song ctx st).1 = Some song
  ∧ PipedApp.isPlaying (PipedApp.play song ctx st).1 = true
  ∧ PipedApp.usingPreview (PipedApp.play song ctx st).1 = false
  ∧ PipedApp.songs (PipedApp.play song ctx st).1 = default (PipedApp.songs st) ctx
  ∧ PipedApp.alerts (PipedApp.play song ctx st).1 = PipedApp.alerts st
  ∧ Audio.src (PipedApp.audio (PipedApp.play song ctx st).1) = Some (audioUrl song)
  ∧ PipedApp.isResolvingAudio (PipedApp.play song ctx st).1
    = negb (isLocal song
            || (Js.truthy (audioUrl song) && (5 <? String.length (audioUrl song))%nat))
  ∧ (PipedApp.play song ctx st).2
    = if isLocal song
         || (Js.truthy (audioUrl song) && (5 <? String.length (audioUrl song))%nat)
      then Settled else Awaiting song.
Proof.
  intros Hcur. unfold PipedApp.play, PipedApp.rendered.
  rewrite piped_handlePlaySong_other by done. cbv zeta.
  destruct (isLocal song || _); simpl;
    set (st' := PipedApp.setIsResolvingAudio _ _);
    destruct (piped_render_frame st') as (-> & -> & -> & -> & -> & ->);
    rewrite piped_render_src;
    by subst st'; destruct ctx.
Qed.

(** [play(track)] has suspended at the resolver and the resolver answers
    with a non-empty URL.  The track, carrying the URL, is then the current
    song, the intent is still to play, resolution is no longer in flight and
    the fallback is off; the audio element is given the URL and plays it; no
    notice is shown; every entry of the queue with the id of the track is
    replaced by the track with the URL and every other entry is kept; and
    when the URL is longer than five characters a later [play] of the
    updated track never asks the resolver again. *)
Theorem resolution_success st song ctx u :
  (PipedApp.play song ctx st).2 = Awaiting song →
  Js.truthy u = true →
  let st1 := (PipedApp.play song ctx st).1 in
  let st2 := PipedApp.resolve song (Ok (Url u)) st1 in
  PipedApp.currentSong st2 = Some (withAudioUrl u song)
  ∧ PipedApp.isPlaying st2 = true
  ∧ PipedApp.isResolvingAudio st2 = false
  ∧ PipedApp.usingPreview st2 = false
  ∧ Audio.src (PipedApp.audio st2) = Some u
  ∧ Audio.paused (PipedApp.audio st2) = false
  ∧ PipedApp.alerts st2 = PipedApp.alerts st
  ∧ length (PipedApp.songs st2) = length (PipedApp.songs st1)
  ∧ (∀ i s, PipedApp.songs st1 !! i = Some s →
       PipedApp.songs st2 !! i
       = Some (if decide (id s = id song) then withAudioUrl u song else s))
  ∧ ((5 < String.length u)%nat →
     ∀ st' ctx', (PipedApp.play (withAudioUrl u song) ctx' st').2 = Settled).
Proof.
  intros Hawait Hu st1 st2.
  destruct (piped_play_awaiting st song ctx Hawait) as (Hc & Hp & Hfb & _ & Ha).
  fold st1 in Hc, Hp, Hfb, Ha.
  destruct (piped_resolution_sets_current song u st1 Hu) as (Hc2 & Hr2 & Hsrc2).
  fold st2 in Hc2, Hr2, Hsrc2. rewrite Hfb in Hsrc2. simpl in Hsrc2.
  assert (PipedApp.resolved song (Ok (Url u)) st1
          = PipedApp.setIsResolvingAudio false
              (PipedApp.setSongs
                 (map (λ s, if sameId song s then withAudioUrl u song else s)
                    (PipedApp.songs st1))
                 (PipedApp.setCurrentSong (Some (withAudioUrl u song)) st1))) as Hres.
  { unfold PipedApp.resolved. by rewrite Hu. }
  assert (st2 = PipedApp.render (PipedApp.resolved song (Ok (Url u)) st1)) as Hst2
    by done.
  destruct (piped_render_frame (PipedApp.resolved song (Ok (Url u)) st1))
    as (Hq & _ & Hp' & _ & Hfb' & Ha').
  rewrite <- Hst2 in Hq, Hp', Hfb', Ha'. rewrite Hres in Hq, Hp', Hfb', Ha'.
  simpl in Hq, Hp', Hfb', Ha'.
  split_and!; try done.
  - congruence.
  - congruence.
  - rewrite Hst2. apply (piped_render_playing _ (withAudioUrl u song));
      rewrite Hres; simpl; [done|done|by rewrite Hu|done].
  - congruence.
  - by rewrite Hq, length_map.
  - intros i s Hi. rewrite Hq, list_lookup_fmap, Hi. simpl. f_equal.
    unfold sameId. case_decide as Hid.
    + by rewrite (proj2 (String.eqb_eq _ _) Hid).
    + by rewrite (proj2 (String.eqb_neq _ _) Hid).
  - intros Hlen st' ctx'. unfold PipedApp.play, PipedApp.rendered, PipedApp.handlePlaySong.
    simpl. rewrite Hu. destruct (Nat.ltb_spec 5 (String.length u)); [|lia].
    rewrite orb_true_r. by destruct (isCurrent _ _).
Qed.

Lemma resolution_success_witness :
  Audio.src
    (PipedApp.audio
       (PipedApp.resolve trackA (Ok (Url fullUrlA))
          (PipedApp.play trackA (Some [trackA; trackB; trackC]) PipedApp.initial).1))
  = Some fullUrlA
  ∧ PipedApp.songs
      (PipedApp.resolve trackA (Ok (Url fullUrlA))
         (PipedApp.play trackA (Some [trackA; trackB; trackC]) PipedApp.initial).1)
    !! 0 = Some (withAudioUrl fullUrlA trackA).
Proof.
  destruct (resolution_success PipedApp.initial trackA
              (Some [trackA; trackB; trackC]) fullUrlA)
    as (_ & _ & _ & _ & Hsrc & _ & _ & _ & Hq & _); [reflexivity..|].
  split; [exact Hsrc|].
  apply (Hq 0 trackA). reflexivity.
Defined.

(** * The id-keyed catalogue and its resolution *)

Lemma truthy_opt_default o : Js.truthy_opt o = true → Js.truthy (default "" o) = true.
Proof. by destruct o. Qed.

Lemma orElse_truthy a b : Js.truthy b = true →
  Js.truthy (default "" (AudiusService.orElse a (Some b))) = true.
Proof.
  intros Hb. unfold AudiusService.orElse.
  destruct (Js.truthy_opt a) eqn:Ha; [by apply truthy_opt_default|done].
Qed.

Lemma mapAudiusSong_Some item s :
  AudiusService.mapAudiusSong item = Some s →
  Js.truthy (id s) = true ∧ Js.truthy (title s) = true
  ∧ Js.truthy (artist s) = true ∧ Js.truthy (album s) = true
  ∧ audioUrl s = "" ∧ isLocal s = false.
Proof.
  unfold AudiusService.mapAudiusSong. destruct item as [it|]; [|done].
  destruct (Js.truthy_opt (AudiusService.Item.id it)) eqn:Hid; [|done].
  destruct (Js.truthy_opt (AudiusService.Item.title it)) eqn:Ht; [|done].
  simpl. intros [= <-]. simpl.
  split_and!; [by apply truthy_opt_default..|by apply orElse_truthy
              |by apply orElse_truthy|done|done].
Qed.

Lemma getStreamUrl_truthy host songId :
  Js.truthy (AudiusService.getStreamUrl host songId) = true.
Proof. unfold AudiusService.getStreamUrl. by destruct host. Qed.

Lemma audius_play_other st song ctx :
  Js.truthy (id song) = true →
  isCurrent (AudiusApp.currentSong st) song = false →
  AudiusApp.currentSong (AudiusApp.play (Some song) ctx st).1 = Some song
  ∧ AudiusApp.isPlaying (AudiusApp.play (Some song) ctx st).1 = true
  ∧ AudiusApp.songs (AudiusApp.play (Some song) ctx st).1
    = default (AudiusApp.songs st) ctx
  ∧ Audio.src (AudiusApp.audio (AudiusApp.play (Some song) ctx st).1)
    = Some (audioUrl song)
  ∧ (AudiusApp.play (Some song) ctx st).2
    = if negb (isLocal song) && negb (Js.truthy (audioUrl song))
      then Some song else None.
Proof.
  intros Hid Hcur.
  unfold AudiusApp.play, AudiusApp.commit, AudiusApp.handlePlaySong.
  rewrite Hid, Hcur. simpl.
  set (st' := AudiusApp.setPlayerMode _ _).
  destruct (audius_render_frame st') as (-> & -> & -> & _).
  rewrite audius_render_src.
  assert (AudiusApp.currentSong st' = Some song) as Hc by (subst st'; by destruct ctx).
  unfold AudiusApp.srcProp, AudiusApp.autoResolve. rewrite Hc.
  split_and!; [done|by subst st'; destruct ctx..|done|].
  rewrite decide_False; [done|].
  intros Heq. rewrite Heq in Hcur. simpl in Hcur.
  by rewrite String.eqb_refl in Hcur.
Qed.

(** Every track that [searchSongs] or [getFeaturedSongs] of the id-keyed
    service returns, whatever the network replies, has a non-empty id,
    title, artist and album and is not local, and either has no stream URL
    yet or is one of the fallback tracks.  So the guard at the head of
    [handlePlaySong] never drops it: played while another track (or none)
    is current it becomes the current song with the intent to play, and a
    resolution is started for it exactly when it has no stream URL. *)
Theorem catalogue_tracks_playable fetchJson query s :
  s ∈ (AudiusService.searchSongs fetchJson query).2
  ∨ s ∈ (AudiusService.getFeaturedSongs fetchJson).2 →
  (Js.truthy (id s) = true ∧ Js.truthy (title s) = true
   ∧ Js.truthy (artist s) = true ∧ Js.truthy (album s) = true
   ∧ isLocal s = false
   ∧ (audioUrl s = "" ∨ s ∈ AudiusService.FALLBACK_SONGS))
  ∧ ∀ st ctx,
      isCurrent (AudiusApp.currentSong st) s = false →
      AudiusApp.currentSong (AudiusApp.play (Some s) ctx st).1 = Some s
      ∧ AudiusApp.isPlaying (AudiusApp.play (Some s) ctx st).1 = true
      ∧ (AudiusApp.play (Some s) ctx st).2
        = if Js.truthy (audioUrl s) then None else Some s.
Proof.
  intros Hs.
  set (P := Js.truthy (id s) = true ∧ Js.truthy (title s) = true
            ∧ Js.truthy (artist s) = true ∧ Js.truthy (album s) = true
            ∧ isLocal s = false
            ∧ (audioUrl s = "" ∨ s ∈ AudiusService.FALLBACK_SONGS)).
  assert (∀ entries, s ∈ AudiusService.mapped entries → P) as Hmapped.
  { intros entries (item & Hitem & Hmap)%list_elem_of_omap.
    destruct (mapAudiusSong_Some item s Hmap) as (? & ? & ? & ? & ? & ?).
    subst P. split_and!; [done..|by left]. }
  assert (s ∈ AudiusService.FALLBACK_SONGS → P) as Hfallback.
  { intros Hfb. subst P. split_and!; [..|by right];
      unfold AudiusService.FALLBACK_SONGS in Hfb;
      repeat (apply elem_of_cons in Hfb as [->|Hfb]; [done|]); inversion Hfb. }
  assert (s ∈ (AudiusService.getFeaturedSongs fetchJson).2 → P) as Hfeatured.
  { unfold AudiusService.getFeaturedSongs. simpl.
    destruct (fetchJson AudiusService.Trending) as [[[entries|]]|]; eauto. }
  assert P as Hinv.
  { destruct Hs as [Hs|Hs]; [|by apply Hfeatured].
    unfold AudiusService.searchSongs in Hs.
    destruct (negb (Js.truthy query)); [by apply Hfeatured|].
    simpl in Hs.
    destruct (fetchJson (AudiusService.SearchTracks query)) as [[[entries|]]|];
      [by eapply Hmapped|inversion Hs..]. }
  clear Hmapped Hfallback Hfeatured. subst P.
  split; [done|].
  intros st ctx Hcur. destruct Hinv as (Hid & _ & _ & _ & Hlocal & _).
  destruct (audius_play_other st s ctx Hid Hcur) as (-> & -> & _ & _ & ->).
  rewrite Hlocal. simpl. by destruct (Js.truthy (audioUrl s)).
Qed.

Lemma catalogue_tracks_playable_witness :
  (AudiusApp.play
     (AudiusService.mapAudiusSong (Some catalogueItem)) None AudiusApp.initial).2
  = AudiusService.mapAudiusSong (Some catalogueItem).
Proof.
  destruct (catalogue_tracks_playable
              (λ _, Some {| AudiusService.data := Some [Some catalogueItem] |})
              "night"
              (default trackA (AudiusService.mapAudiusSong (Some catalogueItem))))
    as [_ Hplay].
  - left. simpl. left.
  - destruct (Hplay AudiusApp.initial None) as (_ & _ & Hpending); [reflexivity|].
    exact Hpending.
Defined.

(** The resolution of the id-keyed variant runs once per selection.  A
    track without stream URL is selected: the effect asks for its URL.  When
    the URL built from the host and the id arrives, the current song carries
    it, the audio element is given it and plays, the queue is left as it
    was, and although the current song has changed the effect starts no
    further resolution.  A resolution whose effect was cleaned up changes
    nothing. *)
Theorem audius_resolution_completes st song ctx host :
  Js.truthy (id song) = true →
  isCurrent (AudiusApp.currentSong st) song = false →
  isLocal song = false → audioUrl song = "" →
  let url := AudiusService.getStreamUrl host (id song) in
  let st1 := (AudiusApp.play (Some song) ctx st).1 in
  (AudiusApp.play (Some song) ctx st).2 = Some song
  ∧ AudiusApp.currentSong (AudiusApp.resolve false song url st1).1
    = Some (withAudioUrl url song)
  ∧ (AudiusApp.resolve false song url st1).2 = None
  ∧ AudiusApp.isPlaying (AudiusApp.resolve false song url st1).1 = true
  ∧ Audio.src (AudiusApp.audio (AudiusApp.resolve false song url st1).1) = Some url
  ∧ Audio.paused (AudiusApp.audio (AudiusApp.resolve false song url st1).1) = false
  ∧ AudiusApp.songs (AudiusApp.resolve false song url st1).1 = AudiusApp.songs st1
  ∧ AudiusApp.resolve true song url st1 = (AudiusApp.render st1, None).
Proof.
  intros Hid Hcur Hlocal Hurl url st1.
  destruct (audius_play_other st song ctx Hid Hcur) as (Hc & Hp & _ & _ & Hpending).
  fold st1 in Hc, Hp.
  rewrite Hlocal, Hurl in Hpending. simpl in Hpending.
  split; [done|]. clear Hpending. clearbody st1.
  assert (AudiusApp.resolved false song url st1
          = AudiusApp.setCurrentSong (Some (withAudioUrl url song)) st1) as Hres.
  { unfold AudiusApp.resolved. rewrite Hc. by rewrite String.eqb_refl. }
  unfold AudiusApp.resolve, AudiusApp.commit. rewrite Hres. simpl.
  set (st2 := AudiusApp.setCurrentSong _ _).
  destruct (audius_render_frame st2) as (-> & -> & -> & _).
  rewrite audius_render_src.
  pose proof (getStreamUrl_truthy host (id song)) as Htruthy. fold url in Htruthy.
  split_and!; try done.
  - rewrite decide_False.
    + unfold AudiusApp.autoResolve. simpl. rewrite Htruthy. by rewrite andb_false_r.
    + rewrite Hc. intros Heq%(inj Some)%(f_equal audioUrl). simpl in Heq.
      rewrite Hurl in Heq. by rewrite <- Heq in Htruthy.
  - unfold AudiusApp.render, AudiusApp.syncAudio.
    assert (AudiusApp.currentSong (AudiusApp.applySrc st2) = Some (withAudioUrl url song)
            ∧ AudiusApp.isPlaying (AudiusApp.applySrc st2) = true) as [-> ->].
    { unfold AudiusApp.applySrc. by case_decide. }
    simpl. by rewrite Htruthy.
  - by rewrite decide_True.
Qed.

Lemma audius_resolution_completes_witness :
  (AudiusApp.resolve false trackC
     (AudiusService.getStreamUrl "https://host.example" "c")
     (AudiusApp.play (Some trackC) (Some [trackC]) AudiusApp.initial).1).2
  = None.
Proof.
  destruct (audius_resolution_completes AudiusApp.initial trackC (Some [trackC])
              "https://host.example") as (_ & _ & Hdone & _); [reflexivity..|].
  exact Hdone.
Defined.

(** * Queue operations *)

(** Appending to a queue that holds the id does not move its first
    occurrence. *)

Lemma queueIndex_app queue x c :
  (∃ s, s ∈ queue ∧ id s = id c) →
  queueIndex (queue ++ [x]) c = queueIndex queue c.
Proof.
  intros (s & Hs & Hid). unfold queueIndex.
  destruct (list_find_elem_of (λ s, id s = id c) queue s Hs Hid) as [[i y] Hfind].
  by rewrite (list_find_app_l _ _ _ _ _ Hfind), Hfind.
Qed.

(** [handleAddToQueue] appends the track and leaves the current song and
    the intent to play alone (the title/artist-keyed variant also shows
    "Added to queue!").  When the queue holds the current track, the next
    track after the addition is the entry that follows the current one in
    the extended queue; so a track added while the last entry plays is
    played next, instead of the wrap-around to the first entry. *)
Theorem queued_track_follows_last :
  (∀ st c x,
     AudiusApp.currentSong st = Some c →
     (∃ s, s ∈ AudiusApp.songs st ∧ id s = id c) →
     AudiusApp.songs (AudiusApp.handleAddToQueue x st) = AudiusApp.songs st ++ [x]
     ∧ AudiusApp.currentSong (AudiusApp.handleAddToQueue x st) = Some c
     ∧ AudiusApp.isPlaying (AudiusApp.handleAddToQueue x st) = AudiusApp.isPlaying st
     ∧ AudiusApp.currentSong (AudiusApp.handleNext (AudiusApp.handleAddToQueue x st))
       = (AudiusApp.songs st ++ [x]) !! (queueIndex (AudiusApp.songs st) c + 1)
     ∧ (queueIndex (AudiusApp.songs st) c + 1 = length (AudiusApp.songs st) →
        AudiusApp.currentSong (AudiusApp.handleNext (AudiusApp.handleAddToQueue x st))
        = Some x))
  ∧ (∀ st c x,
       PipedApp.currentSong st = Some c →
       (∃ s, s ∈ PipedApp.songs st ∧ id s = id c) →
       PipedApp.songs (PipedApp.handleAddToQueue x st) = PipedApp.songs st ++ [x]
       ∧ PipedApp.currentSong (PipedApp.handleAddToQueue x st) = Some c
       ∧ PipedApp.isPlaying (PipedApp.handleAddToQueue x st) = PipedApp.isPlaying st
       ∧ PipedApp.alerts (PipedApp.handleAddToQueue x st)
         = PipedApp.alerts st ++ ["Added to queue!"]
       ∧ ∃ target,
           (PipedApp.songs st ++ [x]) !! (queueIndex (PipedApp.songs st) c + 1)
           = Some target
           ∧ PipedApp.handleNext (PipedApp.handleAddToQueue x st)
             = PipedApp.handlePlaySong target None (PipedApp.handleAddToQueue x st)
           ∧ (queueIndex (PipedApp.songs st) c + 1 = length (PipedApp.songs st) →
              target = x)).
Proof.
  assert (∀ queue c (x : Song),
    (∃ s, s ∈ queue ∧ id s = id c) →
    (queueIndex (queue ++ [x]) c + 1) mod length (queue ++ [x])
    = queueIndex queue c + 1) as Hmod.
  { intros queue c x Hin. rewrite queueIndex_app by done.
    assert (queue ≠ []) as Hne.
    { destruct Hin as (s & Hs & _). intros ->. inversion Hs. }
    pose proof (queueIndex_lt queue c Hne).
    rewrite length_app. simpl. apply Nat.mod_small. lia. }
  split.
  - intros st c x Hc Hin. split_and!; [done..| |].
    + unfold AudiusApp.handleNext, AudiusApp.handleAddToQueue. simpl. rewrite Hc.
      rewrite nextSong_index by (by destruct (AudiusApp.songs st)).
      by rewrite Hmod.
    + intros Hlast.
      unfold AudiusApp.handleNext, AudiusApp.handleAddToQueue. simpl. rewrite Hc.
      rewrite nextSong_index by (by destruct (AudiusApp.songs st)).
      rewrite Hmod, Hlast by done.
      by rewrite lookup_app_r, Nat.sub_diag by lia.
  - intros st c x Hc Hin. split_and!; [done..|].
    destruct (piped_handleNext_found (PipedApp.handleAddToQueue x st) c)
      as (target & Ht & Hnext).
    { done. }
    { destruct Hin as (s & Hs & Hid). exists s. split; [|done].
      simpl. apply elem_of_app. by left. }
    simpl in Ht. rewrite Hmod in Ht by done.
    exists target. split_and!; [done..|].
    intros Hlast. rewrite Hlast in Ht.
    rewrite lookup_app_r, Nat.sub_diag in Ht by lia. by injection Ht.
Qed.

Lemma queued_track_follows_last_witness :
  AudiusApp.currentSong
    (AudiusApp.handleNext
       (AudiusApp.handleAddToQueue trackC
          (AudiusApp.setCurrentSong (Some trackB)
             (AudiusApp.setSongs [trackA; trackB] AudiusApp.initial))))
  = Some trackC.
Proof.
  destruct queued_track_follows_last as [Haudius _].
  destruct (Haudius
              (AudiusApp.setCurrentSong (Some trackB)
                 (AudiusApp.setSongs [trackA; trackB] AudiusApp.initial))
              trackB trackC) as (_ & _ & _ & _ & Hlast).
  - reflexivity.
  - exists trackB. split; [|done]. right. left.
  - apply Hlast. reflexivity.
Defined.

(** The title/artist-keyed navigation when the id of the current track
    does not occur in the non-empty queue (after a search has replaced the
    queue, say): [findIndex] answers -1, so next plays the first entry of
    the queue and previous plays the entry before the last one (the only
    entry of a one-track queue), not the last. *)
Theorem piped_navigation_not_in_queue st c :
  PipedApp.currentSong st = Some c →
  PipedApp.songs st ≠ [] →
  (∀ s, s ∈ PipedApp.songs st → id s ≠ id c) →
  PipedApp.currentSong (PipedApp.next st).1 = head (PipedApp.songs st)
  ∧ PipedApp.currentSong (PipedApp.previous st).1
    = PipedApp.songs st !! (length (PipedApp.songs st) - 2)
  ∧ PipedApp.isPlaying (PipedApp.next st).1 = true
  ∧ PipedApp.isPlaying (PipedApp.previous st).1 = true.
Proof.
  intros Hc Hne Hnone.
  assert (∀ target, target ∈ PipedApp.songs st →
            isCurrent (PipedApp.currentSong st) target = false) as Hcur.
  { intros target Ht. rewrite Hc. simpl. apply String.eqb_neq.
    intros Hid. by apply (Hnone target Ht). }
  assert (∃ target, PipedApp.songs st !! (length (PipedApp.songs st) - 2) = Some target
            ∧ PipedApp.handlePrev st = PipedApp.handlePlaySong target None st)
    as (prev & Hprev & Hhandle).
  { unfold PipedApp.handlePrev, PipedApp.playAt. rewrite Hc.
    destruct (findIndex_sameId (PipedApp.songs st) c) as [[_ (s & Hs & Hid)]|(-> & _)].
    { destruct (Hnone s); [|done]. by eapply list_elem_of_lookup_2. }
    destruct (PipedApp.songs st) as [|a [|b rest]] eqn:Hq; [done| |].
    - exists a. by split.
    - rewrite <- Hq.
      replace (-1 - 1 + Z.of_nat (length (PipedApp.songs st)))%Z
        with (Z.of_nat (length (PipedApp.songs st) - 2))
        by (rewrite Hq; simpl; lia).
      rewrite index_rem_nat by (by rewrite Hq).
      rewrite Nat.mod_small by (rewrite Hq; simpl; lia).
      destruct (lookup_lt_is_Some_2 (PipedApp.songs st)
                  (length (PipedApp.songs st) - 2)) as [target Ht].
      { rewrite Hq. simpl. lia. }
      exists target. by rewrite Ht. }
  destruct (PipedApp.songs st) as [|first rest] eqn:Hq; [done|].
  rewrite <- Hq in *.
  unfold PipedApp.next, PipedApp.previous.
  rewrite (piped_handleNext_not_found st c first rest Hc Hq Hnone), Hhandle.
  assert (first ∈ PipedApp.songs st) as Hfirst by (rewrite Hq; left).
  assert (prev ∈ PipedApp.songs st) as Hprev' by (by eapply list_elem_of_lookup_2).
  destruct (piped_play_other st first None (Hcur first Hfirst)) as (Hc1 & Hp1 & _).
  destruct (piped_play_other st prev None (Hcur prev Hprev')) as (Hc2 & Hp2 & _).
  unfold PipedApp.play in Hc1, Hp1, Hc2, Hp2.
  rewrite Hc1, Hp1, Hc2, Hp2, Hprev. by rewrite Hq.
Qed.

Lemma piped_navigation_not_in_queue_witness :
  PipedApp.currentSong
    (PipedApp.previous
       (PipedApp.setCurrentSong (Some resolvedTrack)
          (PipedApp.setSongs [trackA; trackB; trackC] PipedApp.initial))).1
  = Some trackB.
Proof.
  destruct (piped_navigation_not_in_queue
              (PipedApp.setCurrentSong (Some resolvedTrack)
                 (PipedApp.setSongs [trackA; trackB; trackC] PipedApp.initial))
              resolvedTrack) as (_ & Hprev & _).
  - reflexivity.
  - discriminate.
  - intros s Hs. simpl in Hs.
    repeat (apply elem_of_cons in Hs as [->|Hs]; [discriminate|]). inversion Hs.
  - exact Hprev.
Defined.

(** A generated playlist that is not empty is played from its first
    track: the prompt is cleared, the start page is shown and loading ends;
    when the first track is not the current one it becomes current with the
    intent to play (in the title/artist-keyed variant the resolver is asked
    unless the track is local or carries a URL of more than five
    characters); when it has the id of the current track the call is the
    same-track toggle, so generating a playlist pauses a track that was
    playing. *)
Theorem generated_playlist_starts titles search first rest :
  firstOfEach (searchAll search titles) = first :: rest →
  (∀ st,
     PipedApp.isAiLoading (PipedApp.generated titles search st).1 = false
     ∧ PipedApp.aiPrompt (PipedApp.generated titles search st).1 = ""
     ∧ PipedApp.view (PipedApp.generated titles search st).1 = home
     ∧ (isCurrent (PipedApp.currentSong st) first = false →
        PipedApp.currentSong (PipedApp.generated titles search st).1 = Some first
        ∧ PipedApp.isPlaying (PipedApp.generated titles search st).1 = true
        ∧ (PipedApp.generated titles search st).2
          = if isLocal first
               || (Js.truthy (audioUrl first) && (5 <? String.length (audioUrl first))%nat)
            then Settled else Awaiting first)
     ∧ (isCurrent (PipedApp.currentSong st) first = true →
        PipedApp.currentSong (PipedApp.generated titles search st).1
        = PipedApp.currentSong st
        ∧ PipedApp.isPlaying (PipedApp.generated titles search st).1
          = negb (PipedApp.isPlaying st)
        ∧ (PipedApp.generated titles search st).2 = Settled))
  ∧ (∀ featured st,
       Js.truthy (id first) = true →
       AudiusApp.isAiLoading (AudiusApp.generated titles search featured st) = false
       ∧ AudiusApp.aiPrompt (AudiusApp.generated titles search featured st) = ""
       ∧ AudiusApp.view (AudiusApp.generated titles search featured st) = home
       ∧ (isCurrent (AudiusApp.currentSong st) first = false →
          AudiusApp.currentSong (AudiusApp.generated titles search featured st)
          = Some first
          ∧ AudiusApp.isPlaying (AudiusApp.generated titles search featured st) = true)
       ∧ (isCurrent (AudiusApp.currentSong st) first = true →
          AudiusApp.currentSong (AudiusApp.generated titles search featured st)
          = AudiusApp.currentSong st
          ∧ AudiusApp.isPlaying (AudiusApp.generated titles search featured st)
            = negb (AudiusApp.isPlaying st))).
Proof.
  intros Hp. split.
  - intros st. unfold PipedApp.generated. rewrite Hp.
    unfold PipedApp.handlePlaySong. simpl.
    destruct (isCurrent (PipedApp.currentSong st) first); simpl.
    + by split_and!.
    + destruct (isLocal first || _); by split_and!.
  - intros featured st Hid. unfold AudiusApp.generated. rewrite Hp.
    unfold AudiusApp.handlePlaySong. simpl. rewrite Hid. simpl.
    destruct (isCurrent (AudiusApp.currentSong st) first); by split_and!.
Qed.

Lemma generated_playlist_starts_witness :
  PipedApp.isPlaying
    (PipedApp.generated ["A"] (λ _ _, [trackA])
       (PipedApp.setIsPlaying true
          (PipedApp.setCurrentSong (Some trackA) PipedApp.initial))).1
  = false.
Proof.
  destruct (generated_playlist_starts ["A"] (λ _ _, [trackA]) trackA [])
    as [Hpiped _]; [reflexivity|].
  destruct (Hpiped (PipedApp.setIsPlaying true
                      (PipedApp.setCurrentSong (Some trackA) PipedApp.initial)))
    as (_ & _ & _ & _ & Htoggle).
  destruct Htoggle as (_ & Hplaying & _); [reflexivity|].
  exact Hplaying.
Defined.

(** * Imported files *)

(** [+:+] computes on its first argument. *)

Lemma append_cons c a b : String c a +:+ b = String c (a +:+ b).
Proof. done. Qed.

Lemma append_nil b : "" +:+ b = b.
Proof. done. Qed.

Section StripExtension.
Import LocalFiles.

Lemma allExtensionChars_dot a b :
  allExtensionChars (a +:+ "." +:+ b) = false.
Proof.
  induction a as [|c a IH]; [done|].
  rewrite append_cons. simpl. by rewrite IH, andb_false_r.
Qed.

Lemma allExtensionChars_slash a b :
  allExtensionChars (a +:+ "/" +:+ b) = false.
Proof.
  induction a as [|c a IH]; [done|].
  rewrite append_cons. simpl. by rewrite IH, andb_false_r.
Qed.

Lemma extensionAt_cons c rest :
  allExtensionChars rest = false → extensionAt (String c rest) = false.
Proof.
  intros Hrest. unfold extensionAt. destruct rest; [done|].
  by rewrite Hrest, andb_false_r.
Qed.

Lemma prefix_empty s : String.prefix "" s = true.
Proof. by destruct s. Qed.

Lemma stripExtension_ext base ext :
  ext ≠ "" → allExtensionChars ext = true →
  stripExtension (base +:+ "." +:+ ext) = base.
Proof.
  intros Hne Hext. induction base as [|c base IH].
  - destruct ext as [|e ext]; [done|].
    rewrite append_nil, append_cons, append_nil.
    unfold stripExtension, extensionAt. by rewrite Hext.
  - rewrite append_cons. cbn [stripExtension].
    by rewrite extensionAt_cons, IH by apply allExtensionChars_dot.
Qed.

Lemma stripExtension_no_dot name :
  Js.includes "." name = false → stripExtension name = name.
Proof.
  induction name as [|c name IH]; [done|].
  cbn [Js.includes String.prefix].
  intros [Hc Hrest]%orb_false_iff.
  cbn [stripExtension]. rewrite IH by done.
  assert (extensionAt (String c name) = false) as ->; [|done].
  unfold extensionAt. destruct name; [done|].
  destruct (Ascii.eqb c _) eqn:Heq; [|done].
  apply Ascii.eqb_eq in Heq. subst c. by rewrite prefix_empty in Hc.
Qed.

Lemma stripExtension_trailing_dot name :
  stripExtension (name +:+ ".") = name +:+ ".".
Proof.
  induction name as [|c name IH]; [done|].
  rewrite append_cons. cbn [stripExtension]. rewrite IH.
  rewrite extensionAt_cons; [done|].
  apply (allExtensionChars_dot name "").
Qed.

Lemma stripExtension_slash dir rest :
  stripExtension (dir +:+ "/" +:+ rest) = dir +:+ "/" +:+ stripExtension rest.
Proof.
  induction dir as [|c dir IH].
  - rewrite !append_nil, !append_cons, !append_nil. cbn [stripExtension].
    unfold extensionAt. by destruct rest.
  - rewrite !(append_cons c dir). cbn [stripExtension]. rewrite IH.
    by rewrite extensionAt_cons by apply allExtensionChars_slash.
Qed.

End StripExtension.

(** The title of an imported file is its name without the extension:
    a final dot followed by one or more characters other than a dot and a
    slash is removed with what follows it.  A name without a dot, and a
    name that ends in a dot, are kept as they are, and nothing before a
    slash is touched. *)
Theorem stripExtension_spec :
  (∀ base ext,
     ext ≠ "" → LocalFiles.allExtensionChars ext = true →
     LocalFiles.stripExtension (base +:+ "." +:+ ext) = base)
  ∧ (∀ name, Js.includes "." name = false → LocalFiles.stripExtension name = name)
  ∧ (∀ name, LocalFiles.stripExtension (name +:+ ".") = name +:+ ".")
  ∧ (∀ dir rest,
       LocalFiles.stripExtension (dir +:+ "/" +:+ rest)
       = dir +:+ "/" +:+ LocalFiles.stripExtension rest).
Proof.
  split_and!.
  - apply stripExtension_ext.
  - apply stripExtension_no_dot.
  - apply stripExtension_trailing_dot.
  - apply stripExtension_slash.
Qed.

Lemma stripExtension_spec_witness :
  LocalFiles.stripExtension "01. Intro.final.mp3" = "01. Intro.final".
Proof.
  apply (proj1 stripExtension_spec "01. Intro.final" "mp3"); [discriminate|reflexivity].
Defined.

(** The decimal notation of a number holds no dash, so an id of the form
    local-[time]-[index] determines its index. *)

Lemma includes_cons sep c s :
  Js.includes sep (String c s) = false → Js.includes sep s = false.
Proof. cbn [Js.includes]. by intros [_ ?]%orb_false_iff. Qed.

Lemma includes_dash_head s : Js.includes "-" ("-" +:+ s) = true.
Proof. by destruct s. Qed.

Lemma pretty_N_go_no_dash x s :
  Js.includes "-" s = false → Js.includes "-" (pretty_N_go x s) = false.
Proof.
  revert s. induction (N.lt_wf_0 x) as [x _ IH]; intros s Hs.
  assert (x = 0 ∨ 0 < x)%N as [->|?] by lia.
  - by rewrite pretty_N_go_0.
  - rewrite pretty_N_go_step by done. apply IH.
    { by apply N.div_lt. }
    cbn [Js.includes]. rewrite Hs, orb_false_r.
    unfold pretty_N_char. by repeat case_match.
Qed.

Lemma pretty_N_no_dash (x : N) : Js.includes "-" (pretty x) = false.
Proof.
  unfold pretty, pretty_N. case_decide; [done|].
  by apply pretty_N_go_no_dash.
Qed.

Lemma dash_split a b c d :
  Js.includes "-" a = false → Js.includes "-" b = false →
  a +:+ "-" +:+ c = b +:+ "-" +:+ d → a = b ∧ c = d.
Proof.
  revert b. induction a as [|x a IH]; intros [|y b] Ha Hb Heq.
  - rewrite !append_nil in Heq. by injection Heq.
  - rewrite append_nil, append_cons in Heq. injection Heq as <- _.
    pose proof (includes_dash_head b) as H.
    rewrite append_cons, append_nil in H. congruence.
  - rewrite append_nil, append_cons in Heq. injection Heq as -> _.
    pose proof (includes_dash_head a) as H.
    rewrite append_cons, append_nil in H. congruence.
  - rewrite !append_cons in Heq. injection Heq as -> Heq.
    apply includes_cons in Ha, Hb.
    destruct (IH b Ha Hb Heq) as [-> ->]. done.
Qed.

Lemma importedSong_id_inj cover cover' now now' i j file file' :
  id (LocalFiles.importedSong cover now i file)
  = id (LocalFiles.importedSong cover' now' j file') → i = j.
Proof.
  unfold LocalFiles.importedSong. simpl.
  intros Heq%(inj (String.app "local-")).
  apply dash_split in Heq as [_ Heq]; [|apply pretty_N_no_dash..].
  by apply (inj pretty) in Heq.
Qed.

(** The ids given to the files of one import are pairwise distinct,
    whatever [Date.now()] answers for each file; every id is non-empty and
    starts with "local-"; and there is one track per file. *)
Theorem imported_ids_distinct cover now files :
  NoDup (id <$> LocalFiles.newLocalSongs cover now files)
  ∧ (∀ s, s ∈ LocalFiles.newLocalSongs cover now files →
       Js.truthy (id s) = true ∧ String.prefix "local-" (id s) = true)
  ∧ length (LocalFiles.newLocalSongs cover now files) = length files.
Proof.
  unfold LocalFiles.newLocalSongs. split_and!.
  - apply NoDup_alt. intros i j x.
    rewrite !list_lookup_fmap, !list_lookup_imap.
    destruct (files !! i) as [fi|]; [|done].
    destruct (files !! j) as [fj|]; [|done].
    intros Hi Hj. rewrite <- Hj in Hi. apply (inj Some) in Hi.
    by eapply importedSong_id_inj.
  - intros s (i & Hi)%list_elem_of_lookup_1.
    rewrite list_lookup_imap in Hi.
    destruct (files !! i) as [file|]; [|done].
    injection Hi as <-. split; [done|]. simpl. apply prefix_append.
  - apply length_imap.
Qed.


Lemma newLocalSongs_lookup cover now files i s :
  LocalFiles.newLocalSongs cover now files !! i = Some s →
  ∃ file, files !! i = Some file
          ∧ s = LocalFiles.importedSong cover (now i) i file.
Proof.
  unfold LocalFiles.newLocalSongs. rewrite list_lookup_imap.
  destruct (files !! i) as [file|]; [|done].
  intros [= <-]. by exists file.
Qed.

Lemma newLocalSongs_local cover now files s :
  s ∈ LocalFiles.newLocalSongs cover now files →
  isLocal s = true ∧ Js.truthy (id s) = true.
Proof.
  intros (i & Hi)%list_elem_of_lookup_1.
  by apply newLocalSongs_lookup in Hi as (file & _ & ->).
Qed.

(** [handleImportMusic] with a non-empty selection, in both variants.
    The new tracks are appended to the library and to the queue, the library
    view is shown, and the current song, the intent to play and the audio
    element are left alone (the title/artist-keyed variant shows
    "Imported n songs!").  The track made for a file is local, has the
    object URL of the file as its stream URL and the file name without
    extension as its title.  Playing an imported track from the library,
    while another track is current, never asks the resolver: the track
    becomes current, the library becomes the queue, no resolution is in
    flight and the audio element is given the object URL. *)
Theorem imported_files_play_offline now files librarySongs :
  files ≠ [] →
  (∀ st,
     let newLocalSongs := LocalFiles.newLocalSongs PipedLibrary.IMPORT_COVER now files in
     let after := PipedLibrary.handleImportMusic now (Some files) librarySongs st in
     after.1 = librarySongs ++ newLocalSongs
     ∧ PipedApp.songs after.2 = PipedApp.songs st ++ newLocalSongs
     ∧ PipedApp.view after.2 = library
     ∧ PipedApp.currentSong after.2 = PipedApp.currentSong st
     ∧ PipedApp.isPlaying after.2 = PipedApp.isPlaying st
     ∧ PipedApp.audio after.2 = PipedApp.audio st
     ∧ PipedApp.alerts after.2
       = PipedApp.alerts st ++ ["Imported " +:+ pretty (length files) +:+ " songs!"]
     ∧ (∀ i file, files !! i = Some file →
          ∃ s, newLocalSongs !! i = Some s
               ∧ title s = LocalFiles.stripExtension (File.name file)
               ∧ audioUrl s = File.objectUrl file
               ∧ isLocal s = true)
     ∧ (∀ s st', s ∈ newLocalSongs →
          isCurrent (PipedApp.currentSong st') s = false →
          (PipedApp.play s (Some after.1) st').2 = Settled
          ∧ PipedApp.currentSong (PipedApp.play s (Some after.1) st').1 = Some s
          ∧ PipedApp.songs (PipedApp.play s (Some after.1) st').1 = after.1
          ∧ PipedApp.isResolvingAudio (PipedApp.play s (Some after.1) st').1 = false
          ∧ Audio.src (PipedApp.audio (PipedApp.play s (Some after.1) st').1)
            = Some (audioUrl s)))
  ∧ (∀ st,
       let newLocalSongs :=
         LocalFiles.newLocalSongs AudiusLibrary.IMPORT_COVER now files in
       let after := AudiusLibrary.handleImportMusic now (Some files) librarySongs st in
       after.1 = librarySongs ++ newLocalSongs
       ∧ AudiusApp.songs after.2 = AudiusApp.songs st ++ newLocalSongs
       ∧ AudiusApp.view after.2 = library
       ∧ AudiusApp.currentSong after.2 = AudiusApp.currentSong st
       ∧ AudiusApp.isPlaying after.2 = AudiusApp.isPlaying st
       ∧ AudiusApp.audio after.2 = AudiusApp.audio st
       ∧ (∀ s st', s ∈ newLocalSongs →
            isCurrent (AudiusApp.currentSong st') s = false →
            (AudiusApp.play (Some s) (Some after.1) st').2 = None
            ∧ AudiusApp.currentSong (AudiusApp.play (Some s) (Some after.1) st').1
              = Some s
            ∧ AudiusApp.songs (AudiusApp.play (Some s) (Some after.1) st').1 = after.1
            ∧ Audio.src (AudiusApp.audio (AudiusApp.play (Some s) (Some after.1) st').1)
              = Some (audioUrl s))).
Proof.
  intros Hne. destruct files as [|file files]; [done|]. clear Hne.
  split.
  - intros st newLocalSongs after.
    assert (after = (librarySongs ++ newLocalSongs,
                     PipedApp.setView library
                       (PipedApp.alert
                          ("Imported " +:+ pretty (length newLocalSongs) +:+ " songs!")
                          (PipedApp.setSongs (PipedApp.songs st ++ newLocalSongs) st))))
      as -> by done.
    assert (length newLocalSongs = length (file :: files)) as Hlen
      by apply length_imap.
    cbn [fst snd]. split_and!; try done.
    + by rewrite <- Hlen.
    + intros i f Hi.
      destruct (lookup_lt_is_Some_2 newLocalSongs i) as [s Hs].
      { rewrite Hlen. by eapply lookup_lt_Some. }
      exists s. split; [done|].
      apply newLocalSongs_lookup in Hs as (f' & Hf' & ->).
      by assert (f' = f) as -> by congruence.
    + intros s st' Hs Hcur.
      destruct (newLocalSongs_local _ _ _ _ Hs) as [Hlocal _].
      destruct (piped_play_other st' s (Some (librarySongs ++ newLocalSongs)) Hcur)
        as (-> & _ & _ & -> & _ & -> & -> & ->).
      by rewrite Hlocal.
  - intros st newLocalSongs after.
    assert (after = (librarySongs ++ newLocalSongs,
                     AudiusApp.setView library
                       (AudiusApp.setSongs (AudiusApp.songs st ++ newLocalSongs) st)))
      as -> by done.
    cbn [fst snd]. split_and!; try done.
    intros s st' Hs Hcur.
    destruct (newLocalSongs_local _ _ _ _ Hs) as [Hlocal Hid].
    destruct (audius_play_other st' s (Some (librarySongs ++ newLocalSongs)) Hid Hcur)
      as (-> & _ & -> & -> & ->).
    by rewrite Hlocal.
Qed.

Lemma imported_files_play_offline_witness :
  PipedApp.songs
    (PipedLibrary.handleImportMusic (λ _, 1700000000000%N)
       (Some [File.mk "a.mp3" "blob:a"; File.mk "b.flac" "blob:b"]) []
       PipedApp.initial).2
  = LocalFiles.newLocalSongs PipedLibrary.IMPORT_COVER (λ _, 1700000000000%N)
      [File.mk "a.mp3" "blob:a"; File.mk "b.flac" "blob:b"].
Proof.
  destruct (imported_files_play_offline (λ _, 1700000000000%N)
              [File.mk "a.mp3" "blob:a"; File.mk "b.flac" "blob:b"] [])
    as [Hpiped _]; [discriminate|].
  destruct (Hpiped PipedApp.initial) as (_ & Hsongs & _).
  exact Hsongs.
Defined.

(** * The lyrics effect *)

(** Lyrics that arrive are attached without comparing ids: the current
    song, whichever it is by then, receives the text that was fetched for
    the captured song, and with it every queue entry that has the id of the
    captured song.  The effect then no longer fetches lyrics for the current
    song.  Attaching lyrics changes neither the intent to play nor the
    source of the audio element: the render that follows leaves the source
    and the playback position of an element in sync as they are. *)
Theorem lyrics_attached_to_current_song captured text st c :
  Js.truthy text = true →
  PipedApp.currentSong st = Some c →
  let st' := PipedLyrics.lyricsFetched captured (Some text) st in
  PipedApp.currentSong st' = Some (PipedLyrics.withLyrics text c)
  ∧ (∀ i s, PipedApp.songs st !! i = Some s →
       PipedApp.songs st' !! i
       = Some (if decide (id s = id captured)
               then PipedLyrics.withLyrics text s else s))
  ∧ (∀ isPlayerFull lyricsLoading,
       PipedLyrics.lyricsEffect isPlayerFull lyricsLoading st' = None)
  ∧ PipedApp.isPlaying st' = PipedApp.isPlaying st
  ∧ PipedApp.srcProp st' = PipedApp.srcProp st
  ∧ (Audio.src (PipedApp.audio st) = PipedApp.srcProp st →
     Audio.src (PipedApp.audio (PipedApp.render st')) = Audio.src (PipedApp.audio st)
     ∧ Audio.currentTime (PipedApp.audio (PipedApp.render st'))
       = Audio.currentTime (PipedApp.audio st)).
Proof.
  intros Htext Hc st'.
  assert (st' = PipedApp.setSongs
                  (map (λ s, if String.eqb (id s) (id captured)
                             then PipedLyrics.withLyrics text s else s)
                     (PipedApp.songs st))
                  (PipedApp.setCurrentSong
                     (PipedLyrics.withLyrics text <$> PipedApp.currentSong st) st))
    as Hst'.
  { subst st'. unfold PipedLyrics.lyricsFetched. by rewrite Htext. }
  clearbody st'. subst st'. rewrite Hc. simpl.
  assert (PipedApp.srcProp
            (PipedApp.setSongs
               (map (λ s, if String.eqb (id s) (id captured)
                          then PipedLyrics.withLyrics text s else s)
                  (PipedApp.songs st))
               (PipedApp.setCurrentSong (Some (PipedLyrics.withLyrics text c)) st))
          = PipedApp.srcProp st) as Hsrc.
  { unfold PipedApp.srcProp. simpl. by rewrite Hc. }
  split_and!; try done.
  - intros i s Hi. rewrite list_lookup_fmap, Hi. simpl. f_equal.
    case_decide as Hid.
    + by rewrite (proj2 (String.eqb_eq _ _) Hid).
    + by rewrite (proj2 (String.eqb_neq _ _) Hid).
  - intros isPlayerFull lyricsLoading. unfold PipedLyrics.lyricsEffect. simpl.
    rewrite Htext. simpl. by rewrite andb_false_r.
  - intros Hsync.
    set (st' := PipedApp.setSongs _ _) in *.
    assert (Audio.src (PipedApp.audio st') = PipedApp.srcProp st') as Hsync'
      by (by rewrite Hsrc).
    destruct (piped_render_in_sync st' Hsync') as [-> _].
    by rewrite piped_render_src, Hsrc.
Qed.

Lemma lyrics_attached_to_current_song_witness :
  PipedApp.currentSong
    (PipedLyrics.lyricsFetched trackA (Some "la la") afterPlayB)
  = Some (PipedLyrics.withLyrics "la la" trackB).
Proof.
  destruct (lyrics_attached_to_current_song trackA "la la" afterPlayB trackB)
    as (Hc & _); [reflexivity..|].
  exact Hc.
Defined.

(** * The host lookup *)

(** The outcomes and the cache of a run of events that is followed by
    another. *)
Lemma host_run_app events more cachedHost :
  AudiusHost.run (events ++ more) cachedHost
  = ((AudiusHost.run events cachedHost).1
     ++ (AudiusHost.run more (AudiusHost.run events cachedHost).2).1,
     (AudiusHost.run more (AudiusHost.run events cachedHost).2).2).
Proof.
  revert cachedHost. induction events as [|[|root pick] events IH];
    intros cachedHost; simpl.
  - by destruct (AudiusHost.run more cachedHost).
  - by rewrite IH.
  - by rewrite IH.
Qed.

(** Calls that begin on an empty cache all request the root. *)
Lemma host_calls_wait n cachedHost :
  Js.truthy_opt cachedHost = false →
  AudiusHost.run (replicate n AudiusHost.Call) cachedHost
  = (replicate n AudiusHost.Waits, cachedHost).
Proof.
  intros Hcache. induction n as [|n IH]; [done|].
  simpl. unfold AudiusHost.getHost. by rewrite Hcache, IH.
Qed.

(** Every request that settles answers what its own reply gives, whatever
    the cache holds. *)
Lemma host_settled_answer root pick c c' :
  (AudiusHost.settled root pick c).1 = (AudiusHost.settled root pick c').1.
Proof. unfold AudiusHost.settled. by repeat case_match. Qed.

Lemma host_settles_answer (calls : list (Response (option (list string)) * nat))
    cachedHost :
  (AudiusHost.run ((λ c, AudiusHost.Settle c.1 c.2) <$> calls) cachedHost).1
  = (λ c, AudiusHost.FromRoot (AudiusHost.settled c.1 c.2 None).1) <$> calls.
Proof.
  revert cachedHost. induction calls as [|[root pick] calls IH];
    intros cachedHost; [done|].
  simpl. by rewrite IH, (host_settled_answer root pick cachedHost None).
Qed.

(** The host lookup and its cache.  A call that finds a non-empty host
    cached answers it without a request to the root.  Of calls that each
    answer before the next begins, and with no other lookup under way: once
    a non-empty host is cached every call answers it; the first call with
    an empty cache that draws a non-empty host requests the root once and
    that host is answered by all calls after it; a failed lookup (rejected
    request, undecodable reply, no or empty [data]) answers the fallback
    host and leaves the cache as it was.  Calls that begin on an empty
    cache before any request settles all request the root, each answers
    its own draw, and every successful lookup that settles overwrites the
    cache: the cache then holds the host of the one that settled last,
    which is what a later call answers. *)
Theorem host_lookup_and_cache :
  (∀ host, Js.truthy host = true →
     AudiusHost.getHost (Some host) = AudiusHost.Answered (Some host))
  ∧ (∀ calls host,
       Js.truthy host = true →
       getHosts calls (Some host) = (λ _, (false, Some host)) <$> calls)
  ∧ (∀ ok hosts pick host cachedHost calls,
       Js.truthy_opt cachedHost = false →
       hosts !! pick = Some host → Js.truthy host = true →
       getHosts ((Replied ok (Some (Some hosts)), pick) :: calls) cachedHost
       = (true, Some host) :: ((λ _, (false, Some host)) <$> calls))
  ∧ (∀ root pick cachedHost calls,
       Js.truthy_opt cachedHost = false →
       (root = Rejected ∨ (∃ ok, root = Replied ok None)
        ∨ (∃ ok, root = Replied ok (Some None))
        ∨ (∃ ok, root = Replied ok (Some (Some [])))) →
       getHosts ((root, pick) :: calls) cachedHost
       = (true, Some AudiusHost.FALLBACK_HOST) :: getHosts calls cachedHost)
  ∧ (∀ calls cachedHost,
       Js.truthy_opt cachedHost = false →
       (AudiusHost.run (overlapping calls) cachedHost).1
       = replicate (length calls) AudiusHost.Waits
         ++ ((λ c, AudiusHost.FromRoot (AudiusHost.settled c.1 c.2 None).1) <$> calls))
  ∧ (∀ events ok hosts pick host cachedHost,
       hosts !! pick = Some host →
       (AudiusHost.run
          (events ++ [AudiusHost.Settle (Replied ok (Some (Some hosts))) pick])
          cachedHost).2
       = Some host)
  ∧ (∀ ok1 hosts1 pick1 host1 ok2 hosts2 pick2 host2 cachedHost,
       Js.truthy_opt cachedHost = false →
       hosts1 !! pick1 = Some host1 →
       hosts2 !! pick2 = Some host2 → Js.truthy host2 = true →
       AudiusHost.run
         (overlapping [ (Replied ok1 (Some (Some hosts1)), pick1);
                        (Replied ok2 (Some (Some hosts2)), pick2) ]
          ++ [AudiusHost.Call])
         cachedHost
       = ([ AudiusHost.Waits; AudiusHost.Waits;
            AudiusHost.FromRoot (Some host1); AudiusHost.FromRoot (Some host2);
            AudiusHost.FromCache (Some host2) ],
          Some host2)).
Proof.
  assert (∀ calls host, Js.truthy host = true →
            getHosts calls (Some host) = (λ _, (false, Some host)) <$> calls) as Hcached.
  { intros calls host Hhost. induction calls as [|[root pick] calls IH]; [done|].
    simpl. unfold AudiusHost.getHost. simpl. by rewrite Hhost, IH. }
  split_and!; [|done| | | | |].
  - intros host Hhost. unfold AudiusHost.getHost. simpl. by rewrite Hhost.
  - intros ok hosts pick host cachedHost calls Hcache Hpick Hhost.
    simpl. unfold AudiusHost.getHost. rewrite Hcache.
    destruct hosts as [|h hosts]; [done|].
    unfold AudiusHost.settled. cbn [fst snd]. rewrite Hpick. by rewrite Hcached.
  - intros root pick cachedHost calls Hcache Hroot.
    simpl. unfold AudiusHost.getHost. rewrite Hcache.
    by destruct Hroot as [->|[[ok ->]|[[ok ->]|[ok ->]]]].
  - intros calls cachedHost Hcache. unfold overlapping.
    rewrite host_run_app, host_calls_wait by done. cbn [fst snd].
    by rewrite host_settles_answer.
  - intros events ok hosts pick host cachedHost Hpick.
    rewrite host_run_app. cbn [fst snd AudiusHost.run].
    destruct hosts as [|h hosts]; [done|].
    unfold AudiusHost.settled. cbn [fst snd]. by rewrite Hpick.
  - intros ok1 hosts1 pick1 host1 ok2 hosts2 pick2 host2 cachedHost
      Hcache Hpick1 Hpick2 Hhost2.
    destruct hosts1 as [|h1 hosts1]; [done|].
    destruct hosts2 as [|h2 hosts2]; [done|].
    unfold overlapping. simpl. unfold AudiusHost.getHost, AudiusHost.settled.
    rewrite Hcache. cbn [fst snd]. rewrite Hpick1, Hpick2. simpl.
    by rewrite Hhost2.
Qed.

Lemma host_lookup_and_cache_witness :
  getHosts
    [ (Rejected, 0);
      (Replied true (Some (Some ["https://a.example"; "https://b.example"])), 1);
      (Rejected, 0);
      (Replied true (Some (Some ["https://c.example"])), 0) ]
    None
  = [ (true, Some AudiusHost.FALLBACK_HOST); (true, Some "https://b.example");
      (false, Some "https://b.example"); (false, Some "https://b.example") ]
  ∧ AudiusHost.run
      (overlapping
         [ (Replied true (Some (Some ["https://a.example"; "https://b.example"])), 0);
           (Replied true (Some (Some ["https://a.example"; "https://b.example"])), 1) ]
       ++ [AudiusHost.Call])
      None
    = ([ AudiusHost.Waits; AudiusHost.Waits;
         AudiusHost.FromRoot (Some "https://a.example");
         AudiusHost.FromRoot (Some "https://b.example");
         AudiusHost.FromCache (Some "https://b.example") ],
       Some "https://b.example").
Proof.
  destruct host_lookup_and_cache as (_ & _ & Hfirst & Hfallback & _ & _ & Hlast).
  split.
  - rewrite Hfallback; [|reflexivity|by left].
    rewrite (Hfirst _ _ _ "https://b.example"); reflexivity.
  - apply Hlast; reflexivity.
Defined.

(** * The query of the resolver and the search box *)

Section QueryFacts.
Import Query.
Import Stdlib.Strings.Ascii.

(** A one-character separator is a prefix of [String c s] exactly when
    [c] is that character. *)
Lemma prefix_char a c s :
  String.prefix (String a "") (String c s) = bool_decide (a = c).
Proof.
  simpl. destruct (Ascii.ascii_dec a c) as [->|Hne].
  - by rewrite prefix_empty, bool_decide_eq_true_2.
  - by rewrite bool_decide_eq_false_2.
Qed.

Lemma includes_char_cons a c s :
  Js.includes (String a "") (String c s) = false ↔ a ≠ c ∧ Js.includes (String a "") s = false.
Proof.
  cbn [Js.includes]. rewrite prefix_char, orb_false_iff, bool_decide_eq_false. done.
Qed.

Lemma removeParenthesised_no_open s :
  Js.includes "(" s = false → removeParenthesised s = s.
Proof.
  induction s as [|c s IH]; [done|].
  intros [Hc Hs]%includes_char_cons. cbn [removeParenthesised].
  rewrite IH by done.
  destruct (Ascii.eqb_spec c "("%char); [by subst c|done].
Qed.

Lemma afterLastClose_no_close s :
  Js.includes ")" s = false → afterLastClose s = None.
Proof.
  induction s as [|c s IH]; [done|].
  intros [Hc Hs]%includes_char_cons. cbn [afterLastClose].
  rewrite IH by done.
  destruct (isLineTerminator c); [done|].
  destruct (Ascii.eqb_spec c ")"%char); [by subst c|done].
Qed.

Lemma removeParenthesised_no_close s :
  Js.includes ")" s = false → removeParenthesised s = s.
Proof.
  induction s as [|c s IH]; [done|].
  intros [Hc Hs]%includes_char_cons. cbn [removeParenthesised].
  rewrite IH, afterLastClose_no_close by done.
  by destruct (Ascii.eqb c "("%char).
Qed.

Lemma afterLastClose_last b c :
  singleLine b = true → Js.includes ")" c = false →
  afterLastClose (b +:+ ")" +:+ c) = Some c.
Proof.
  intros Hb Hc. induction b as [|x b IH].
  - rewrite append_nil, append_cons, append_nil. cbn [afterLastClose].
    by rewrite afterLastClose_no_close.
  - rewrite append_cons. cbn [afterLastClose].
    simpl in Hb. apply andb_true_iff in Hb as [Hx Hb].
    apply negb_true_iff in Hx. by rewrite Hx, IH.
Qed.

Lemma removeParenthesised_match a b c :
  Js.includes "(" a = false → singleLine b = true → Js.includes ")" c = false →
  removeParenthesised (a +:+ "(" +:+ b +:+ ")" +:+ c) = a +:+ c.
Proof.
  intros Ha Hb Hc. induction a as [|x a IH].
  - rewrite !append_nil, append_cons, append_nil. cbn [removeParenthesised].
    by rewrite afterLastClose_last.
  - apply includes_char_cons in Ha as [Hx Ha].
    rewrite !(append_cons x a). cbn [removeParenthesised].
    rewrite IH by done.
    destruct (Ascii.eqb_spec x "("%char); [by subst x|done].
Qed.

Lemma removeFeat_no_feat s :
  Js.includes "feat." s = false → removeFeat s = s.
Proof.
  induction s as [|c s IH]; [done|].
  cbn [Js.includes]. intros [Hc Hs]%orb_false_iff.
  cbn [removeFeat]. by rewrite Hc, IH.
Qed.

Lemma prefix_append_long p x y :
  (String.length p ≤ String.length x)%nat →
  String.prefix p (x +:+ y) = String.prefix p x.
Proof.
  revert x. induction p as [|a p IH]; intros x Hlen.
  - by rewrite !prefix_empty.
  - destruct x as [|c x]; simpl in Hlen; [lia|].
    rewrite append_cons. simpl. destruct (Ascii.ascii_dec a c); [|done].
    apply IH. lia.
Qed.

Lemma length_append a b :
  String.length (a +:+ b) = (String.length a + String.length b)%nat.
Proof. induction a as [|c a IH]; [done|]. rewrite append_cons. simpl. by rewrite IH. Qed.

Lemma append_nil_r a : a +:+ "" = a.
Proof. induction a as [|x a IH]; [done|]. by rewrite append_cons, IH. Qed.

Lemma append_assoc a b c : (a +:+ b) +:+ c = a +:+ b +:+ c.
Proof. induction a as [|x a IH]; [done|]. by rewrite !append_cons, IH. Qed.

Lemma dropLine_feat b : dropLine ("feat." +:+ b) = dropLine b.
Proof. done. Qed.

Lemma removeFeat_unfold s :
  removeFeat s
  = if String.prefix "feat." s then dropLine s
    else match s with
         | EmptyString => EmptyString
         | String c rest => String c (removeFeat rest)
         end.
Proof. by destruct s. Qed.

Lemma removeFeat_match a b :
  Js.includes "feat." (a +:+ "feat") = false →
  removeFeat (a +:+ "feat." +:+ b) = a +:+ dropLine b.
Proof.
  induction a as [|x a IH]; intros Ha.
  - rewrite !append_nil.
    assert (removeFeat ("feat." +:+ b) = dropLine ("feat." +:+ b)) as ->.
    { by rewrite removeFeat_unfold, prefix_append. }
    apply dropLine_feat.
  - rewrite append_cons in Ha. cbn [Js.includes] in Ha.
    apply orb_false_iff in Ha as [Hx Ha].
    rewrite !(append_cons x a). cbn [removeFeat]. rewrite IH by done.
    assert (String.prefix "feat." (String x (a +:+ "feat." +:+ b)) = false) as ->;
      [|done].
    etrans; [|exact Hx].
    assert (a +:+ "feat." +:+ b = (a +:+ "feat") +:+ "." +:+ b) as ->
      by (by rewrite append_assoc).
    rewrite <- (append_cons x (a +:+ "feat") ("." +:+ b)).
    apply prefix_append_long.
    simpl. rewrite length_append. simpl. lia.
Qed.

Lemma dropLine_singleLine s : singleLine s = true → dropLine s = "".
Proof.
  induction s as [|c s IH]; [done|]. simpl.
  intros [Hc Hs]%andb_true_iff. apply negb_true_iff in Hc. by rewrite Hc, IH.
Qed.

(** [trim] is idempotent, and a trimmed string is a piece of the
    string. *)
Lemma trimEnd_cons c s :
  trimEnd (String c s)
  = match trimEnd s with
    | EmptyString => if isWhiteSpace c then EmptyString else String c EmptyString
    | kept => String c kept
    end.
Proof. done. Qed.

Lemma trimEnd_idemp s : trimEnd (trimEnd s) = trimEnd s.
Proof.
  induction s as [|c s IH]; [done|]. rewrite trimEnd_cons.
  destruct (trimEnd s) as [|k kept] eqn:Hkept.
  - destruct (isWhiteSpace c) eqn:Hc; [done|]. simpl. by rewrite Hc.
  - by rewrite trimEnd_cons, IH.
Qed.

Lemma trimEnd_head c s :
  isWhiteSpace c = false → ∃ kept, trimEnd (String c s) = String c kept.
Proof.
  intros Hc. cbn [trimEnd]. destruct (trimEnd s); rewrite ?Hc; eauto.
Qed.

Lemma trimStart_head s :
  trimStart s = "" ∨ ∃ c rest, trimStart s = String c rest ∧ isWhiteSpace c = false.
Proof.
  induction s as [|c s IH]; [by left|]. simpl.
  destruct (isWhiteSpace c) eqn:Hc; [done|]. right. by exists c, s.
Qed.

Lemma trim_idemp s : trim (trim s) = trim s.
Proof.
  unfold trim. destruct (trimStart_head s) as [->|(c & rest & -> & Hc)]; [done|].
  destruct (trimEnd_head c rest Hc) as [kept Hkept].
  rewrite Hkept. simpl trimStart. rewrite Hc. rewrite <- Hkept. apply trimEnd_idemp.
Qed.

Lemma trimStart_suffix s : ∃ w, s = w +:+ trimStart s.
Proof.
  induction s as [|c s [w IH]]; [by exists ""|]. simpl.
  destruct (isWhiteSpace c).
  - exists (String c w). by rewrite append_cons, <- IH.
  - by exists "".
Qed.

Lemma trimEnd_prefix s : ∃ w, s = trimEnd s +:+ w.
Proof.
  induction s as [|c s [w IH]]; [by exists ""|]. cbn [trimEnd].
  destruct (trimEnd s) as [|k kept].
  - destruct (isWhiteSpace c).
    + by exists (String c s).
    + exists s. by rewrite append_cons, append_nil.
  - exists w. by rewrite append_cons, <- IH.
Qed.

Lemma prefix_append_r p x y :
  String.prefix p x = true → String.prefix p (x +:+ y) = true.
Proof.
  revert x. induction p as [|a p IH]; intros x; [by rewrite !prefix_empty|].
  destruct x as [|c x]; [done|]. rewrite append_cons. simpl.
  destruct (Ascii.ascii_dec a c); [apply IH|done].
Qed.

Lemma includes_append_l sep x y :
  Js.includes sep (x +:+ y) = false → Js.includes sep x = false.
Proof.
  induction x as [|c x IH].
  - rewrite append_nil. destruct sep; [by destruct y|done].
  - rewrite append_cons. cbn [Js.includes].
    intros [Hp Hrest]%orb_false_iff. rewrite IH by done.
    rewrite orb_false_r. apply not_true_is_false. intros Hpre.
    apply (prefix_append_r _ _ y) in Hpre. rewrite append_cons in Hpre. congruence.
Qed.

Lemma includes_append_r sep x y :
  Js.includes sep (x +:+ y) = false → Js.includes sep y = false.
Proof.
  induction x as [|c x IH]; [done|].
  rewrite append_cons. intros H%includes_cons. by apply IH.
Qed.

Lemma includes_trim sep s :
  Js.includes sep s = false → Js.includes sep (trim s) = false.
Proof.
  intros Hs. unfold trim.
  destruct (trimStart_suffix s) as [w Hw].
  destruct (trimEnd_prefix (trimStart s)) as [w' Hw'].
  rewrite Hw in Hs. apply includes_append_r in Hs.
  rewrite Hw' in Hs. by apply includes_append_l in Hs.
Qed.

(** The first piece of a split holds no separator. *)
Lemma split_from_head a piece s :
  ∃ first, Js.split_from (String a "") 0 piece s !! 0
           = Some (String.rev_app piece first)
           ∧ Js.includes (String a "") first = false.
Proof.
  revert piece. induction s as [|c s IH]; intros piece.
  - by exists "".
  - cbn [Js.split_from]. rewrite prefix_char. case_bool_decide as Hc.
    + by exists "".
    + destruct (IH (String c piece)) as (first & Hfirst & Hno).
      exists (String c first). split; [done|].
      by apply includes_char_cons.
Qed.

Lemma split_comma_head artist :
  ∃ first, Js.split "," artist !! 0 = Some first ∧ Js.includes "," first = false.
Proof. apply (split_from_head ","%char "" artist). Qed.

Lemma truthy_append_r a b : Js.truthy b = true → Js.truthy (a +:+ b) = true.
Proof. by destruct a, b. Qed.

End QueryFacts.

(** The query that [getStreamUrl] searches for.  For a title without
    "(" and "feat." and an artist without ",", both without surrounding
    white space, it is title, artist and "official audio" separated by one
    space.  For every title and artist: the cleaned artist holds no comma,
    neither it nor the cleaned title has surrounding white space, and the
    query is never empty. *)
Theorem query_of_clean_names :
  (∀ title artist,
     Js.includes "(" title = false → Js.includes "feat." title = false →
     Query.trim title = title →
     Js.includes "," artist = false → Query.trim artist = artist →
     Query.query title artist = plainQuery title artist)
  ∧ (∀ title artist,
       Js.includes "," (Query.cleanArtist artist) = false
       ∧ Query.trim (Query.cleanArtist artist) = Query.cleanArtist artist
       ∧ Query.trim (Query.cleanTitle title) = Query.cleanTitle title
       ∧ Js.truthy (Query.query title artist) = true).
Proof.
  split.
  - intros title artist Hopen Hfeat Htitle Hcomma Hartist.
    unfold Query.query, Query.cleanTitle, Query.cleanArtist, plainQuery.
    rewrite removeParenthesised_no_open, removeFeat_no_feat, Htitle by done.
    rewrite split_no_sep by done. simpl. by rewrite Hartist.
  - intros title artist. unfold Query.cleanArtist, Query.cleanTitle. split_and!.
    + apply includes_trim.
      by destruct (split_comma_head artist) as (first & -> & Hno).
    + apply trim_idemp.
    + apply trim_idemp.
    + unfold Query.query. by do 3 apply truthy_append_r.
Qed.

Lemma query_of_clean_names_witness :
  Query.query "Song" "Artist" = "Song Artist official audio".
Proof.
  apply (proj1 query_of_clean_names "Song" "Artist"); reflexivity.
Defined.

(** What the cleaning of a title removes.  The first "(" together with
    everything up to the last ")" of the title is removed when the text in
    between stays on one line; a title without ")" keeps its "(".  The first
    "feat." is removed with the rest of its line.  What is left is
    trimmed; the title that [getLyrics] asks for is cleaned of the
    parenthesised part only. *)
Theorem title_cleaning :
  (∀ a b c,
     Js.includes "(" a = false → Query.singleLine b = true →
     Js.includes ")" c = false →
     Query.removeParenthesised (a +:+ "(" +:+ b +:+ ")" +:+ c) = a +:+ c
     ∧ Query.lyricsTitle (a +:+ "(" +:+ b +:+ ")" +:+ c) = Query.trim (a +:+ c)
     ∧ (Js.includes "feat." (a +:+ c) = false →
        Query.cleanTitle (a +:+ "(" +:+ b +:+ ")" +:+ c) = Query.trim (a +:+ c)))
  ∧ (∀ title,
       Js.includes ")" title = false → Query.removeParenthesised title = title)
  ∧ (∀ a b,
       Js.includes "feat." (a +:+ "feat") = false →
       Query.removeFeat (a +:+ "feat." +:+ b) = a +:+ Query.dropLine b
       ∧ (Query.singleLine b = true →
          Js.includes "(" (a +:+ "feat." +:+ b) = false →
          Query.cleanTitle (a +:+ "feat." +:+ b) = Query.trim a)).
Proof.
  split_and!.
  - intros a b c Ha Hb Hc.
    pose proof (removeParenthesised_match a b c Ha Hb Hc) as Hrem.
    split_and!; [done|unfold Query.lyricsTitle; by rewrite Hrem|].
    intros Hfeat. unfold Query.cleanTitle.
    by rewrite Hrem, removeFeat_no_feat.
  - apply removeParenthesised_no_close.
  - intros a b Ha. pose proof (removeFeat_match a b Ha) as Hrem.
    split; [done|]. intros Hb Hopen. unfold Query.cleanTitle.
    rewrite removeParenthesised_no_open, Hrem, dropLine_singleLine by done.
    by rewrite append_nil_r.
Qed.

Lemma title_cleaning_witness :
  Query.cleanTitle "Blinding Lights (Remix)" = "Blinding Lights"
  ∧ Query.cleanTitle "Stay feat. Someone" = "Stay".
Proof.
  destruct title_cleaning as (Hparen & _ & Hfeat).
  split.
  - change (Query.cleanTitle ("Blinding Lights " +:+ "(" +:+ "Remix" +:+ ")" +:+ "")
            = Query.trim ("Blinding Lights " +:+ "")).
    by apply (Hparen "Blinding Lights " "Remix" "").
  - change (Query.cleanTitle ("Stay " +:+ "feat." +:+ " Someone")
            = Query.trim "Stay ").
    apply Hfeat; reflexivity.
Defined.

(** A query of the search box that is not blank is searched as typed,
    white space included: the handler shows the start page and passes the
    untrimmed query on, the service sends exactly one request, for that
    query, and never answers with the featured list; the results replace the
    queue while the current song and the intent to play stay. *)
Theorem search_box_query searchQuery :
  Js.truthy (Query.trim searchQuery) = true →
  (∀ st itunes pick fuel,
     PipedSearch.handleSearch searchQuery st
     = Some (PipedApp.setView home st, searchQuery)
     ∧ PipedService.searchSongs itunes pick (S fuel) searchQuery
       = Some ([searchQuery], PipedService.searchRemote itunes searchQuery)
     ∧ ∀ results,
         PipedApp.songs (PipedSearch.searched results (PipedApp.setView home st))
         = results
         ∧ PipedApp.currentSong
             (PipedSearch.searched results (PipedApp.setView home st))
           = PipedApp.currentSong st
         ∧ PipedApp.isPlaying
             (PipedSearch.searched results (PipedApp.setView home st))
           = PipedApp.isPlaying st)
  ∧ (∀ st fetchJson,
       AudiusSearch.handleSearch searchQuery st
       = Some (AudiusApp.setView home st, searchQuery)
       ∧ (AudiusService.searchSongs fetchJson searchQuery).1
         = [AudiusService.SearchTracks searchQuery]
       ∧ ∀ results,
           AudiusApp.songs (AudiusSearch.searched results (AudiusApp.setView home st))
           = results
           ∧ AudiusApp.currentSong
               (AudiusSearch.searched results (AudiusApp.setView home st))
             = AudiusApp.currentSong st).
Proof.
  intros Htrim.
  assert (Js.truthy searchQuery = true) as Hq by (by destruct searchQuery).
  split.
  - intros st itunes pick fuel. unfold PipedSearch.handleSearch. rewrite Htrim.
    simpl. by rewrite Hq.
  - intros st fetchJson. unfold AudiusSearch.handleSearch, AudiusService.searchSongs.
    by rewrite Htrim, Hq.
Qed.

Lemma search_box_query_witness :
  PipedService.searchSongs (itunesServes [trackB]) 0 1 " lofi "
  = Some ([" lofi "], [trackB]).
Proof.
  destruct (search_box_query " lofi ") as [Hpiped _]; [reflexivity|].
  destruct (Hpiped PipedApp.initial (itunesServes [trackB]) 0 0) as (_ & -> & _).
  reflexivity.
Defined.

(** * The lyrics effect of the id-keyed component *)

(** In the id-keyed variant the lyrics of a catalogue track are requested
    twice per selection.  Selecting a track that is not local, has no
    lyrics and no stream URL yet changes the current song, so the effect
    clears the text, marks loading and calls [getLyrics] for the track; when
    the stream URL arrives the current song is replaced by the track with
    the URL, so the effect runs again and calls [getLyrics] once more, for
    the same artist and title.  A track that is local or carries lyrics
    causes no request.  When a request settles the text shown is the lyrics
    that were fetched, or "Lyrics not found for this song.", it is never
    empty, and loading ends. *)
Theorem lyrics_requested_again_after_resolution st song ctx host :
  Js.truthy (id song) = true →
  isCurrent (AudiusApp.currentSong st) song = false →
  isLocal song = false → audioUrl song = "" →
  Js.truthy_opt (lyrics song) = false →
  let url := AudiusService.getStreamUrl host (id song) in
  let st1 := (AudiusApp.play (Some song) ctx st).1 in
  let st2 := (AudiusApp.resolve false song url st1).1 in
  (∀ cells,
     AudiusLyrics.lyricsEffect st st1 cells
     = (AudiusLyrics.mk None true, Some song)
     ∧ AudiusLyrics.lyricsEffect st1 st2 cells
       = (AudiusLyrics.mk None true, Some (withAudioUrl url song)))
  ∧ artist (withAudioUrl url song) = artist song
  ∧ title (withAudioUrl url song) = title song
  ∧ (∀ c cells,
       isLocal c = true ∨ Js.truthy_opt (lyrics c) = true →
       (AudiusLyrics.fetchLyrics (Some c) cells).2 = None
       ∧ Js.truthy_opt
           (AudiusLyrics.lyricsText (AudiusLyrics.fetchLyrics (Some c) cells).1)
         = true)
  ∧ (∀ text cells,
       Js.truthy_opt (AudiusLyrics.lyricsText (AudiusLyrics.fetched text cells)) = true
       ∧ AudiusLyrics.loadingLyrics (AudiusLyrics.fetched text cells) = false
       ∧ (Js.truthy_opt text = true →
          AudiusLyrics.lyricsText (AudiusLyrics.fetched text cells) = text)).
Proof.
  intros Hid Hcur Hlocal Hurl Hlyrics url st1 st2.
  destruct (audius_play_other st song ctx Hid Hcur) as (Hc1 & _).
  fold st1 in Hc1.
  assert (AudiusApp.currentSong st2 = Some (withAudioUrl url song)) as Hc2.
  { subst st2. unfold AudiusApp.resolve, AudiusApp.commit. cbn [fst].
    destruct (audius_render_frame (AudiusApp.resolved false song url st1))
      as (_ & -> & _).
    unfold AudiusApp.resolved. rewrite Hc1. simpl. by rewrite String.eqb_refl. }
  clearbody st1 st2.
  assert (AudiusApp.currentSong st ≠ AudiusApp.currentSong st1) as Hne1.
  { rewrite Hc1. intros Heq. rewrite Heq in Hcur. simpl in Hcur.
    by rewrite String.eqb_refl in Hcur. }
  assert (AudiusApp.currentSong st1 ≠ AudiusApp.currentSong st2) as Hne2.
  { rewrite Hc1, Hc2. intros Heq%(inj Some)%(f_equal audioUrl). simpl in Heq.
    rewrite Hurl in Heq. pose proof (getStreamUrl_truthy host (id song)) as Ht.
    fold url in Ht. by rewrite <- Heq in Ht. }
  split_and!; try done.
  - intros cells. unfold AudiusLyrics.lyricsEffect.
    rewrite !decide_False by done. rewrite Hc1, Hc2.
    unfold AudiusLyrics.fetchLyrics. simpl. by rewrite Hlyrics, Hlocal.
  - intros c cells Hc. unfold AudiusLyrics.fetchLyrics.
    destruct (Js.truthy_opt (lyrics c)) eqn:Hl; [done|].
    by destruct Hc as [->|?].
  - intros text cells. unfold AudiusLyrics.fetched. simpl.
    destruct (Js.truthy_opt text) eqn:Ht; by split_and!.
Qed.

Lemma lyrics_requested_again_after_resolution_witness :
  (AudiusLyrics.lyricsEffect
     (AudiusApp.play (Some trackC) (Some [trackC]) AudiusApp.initial).1
     (AudiusApp.resolve false trackC
        (AudiusService.getStreamUrl "https://host.example" "c")
        (AudiusApp.play (Some trackC) (Some [trackC]) AudiusApp.initial).1).1
     (AudiusLyrics.mk (Some "la la") false)).2
  = Some (withAudioUrl (AudiusService.getStreamUrl "https://host.example" "c") trackC).
Proof.
  destruct (lyrics_requested_again_after_resolution AudiusApp.initial trackC
              (Some [trackC]) "https://host.example") as (Hreq & _);
    [reflexivity..|].
  destruct (Hreq (AudiusLyrics.mk (Some "la la") false)) as [_ Hagain].
  exact (f_equal snd Hagain).
Defined.

(** * From a selection to the audio element *)

(** What the continuation of [handlePlaySong] leaves when the resolver
    has answered with nothing usable. *)
Lemma piped_resolution_unusable st song ctx r :
  (PipedApp.play song ctx st).2 = Awaiting song →
  usable r = false →
  PipedApp.resolved song (Ok r) (PipedApp.play song ctx st).1
  = PipedApp.setIsResolvingAudio false
      (if Js.truthy_opt (previewUrl song)
       then PipedApp.setUsingPreview true (PipedApp.play song ctx st).1
       else PipedApp.setIsPlaying false
              (PipedApp.alert "Song unavailable." (PipedApp.play song ctx st).1)).
Proof.
  intros _ Hr. unfold PipedApp.resolved.
  destruct r as [u| |]; simpl in *; [|done..]. by rewrite Hr.
Qed.

(** A selected track of the catalogue is resolved by
    [getStreamUrl(song.title, song.artist)] on the shuffled pool, and the
    continuation of [handlePlaySong] acts on the answer.  When the turns of
    the instances before some instance fail and that instance serves a
    non-empty URL, the audio element ends up with this URL as its source and
    plays, and the track carrying the URL is current.  When every instance
    fails, a track with a preview ends up playing the preview with
    [usingPreview] set, and a track without one ends up with [isPlaying]
    cleared and the notice "Song unavailable."; in both cases resolution is
    no longer in flight. *)
Theorem play_through_pool st song ctx net instances :
  (PipedApp.play song ctx st).2 = Awaiting song →
  let streamUrl :=
    (PipedService.getStreamUrl net Query.query instances (title song) (artist song)).2 in
  let final := PipedApp.resolve song (Ok streamUrl) (PipedApp.play song ctx st).1 in
  (∀ failed instance rest u,
     instances = failed ++ instance :: rest →
     (∀ i, i ∈ failed →
        (PipedService.tryInstance net (Query.query (title song) (artist song)) i).2
        = PipedService.Continue) →
     (PipedService.tryInstance net (Query.query (title song) (artist song)) instance).2
     = PipedService.Return (Url u) →
     Js.truthy u = true →
     streamUrl = Url u
     ∧ PipedApp.currentSong final = Some (withAudioUrl u song)
     ∧ Audio.src (PipedApp.audio final) = Some u
     ∧ Audio.paused (PipedApp.audio final) = false
     ∧ PipedApp.isResolvingAudio final = false)
  ∧ ((∀ i, i ∈ instances →
        (PipedService.tryInstance net (Query.query (title song) (artist song)) i).2
        = PipedService.Continue) →
     streamUrl = Null
     ∧ PipedApp.isResolvingAudio final = false
     ∧ (Js.truthy_opt (previewUrl song) = true →
        PipedApp.usingPreview final = true
        ∧ Audio.src (PipedApp.audio final) = previewUrl song
        ∧ Audio.paused (PipedApp.audio final) = false)
     ∧ (Js.truthy_opt (previewUrl song) = false →
        PipedApp.isPlaying final = false
        ∧ PipedApp.alerts final = PipedApp.alerts st ++ ["Song unavailable."])).
Proof.
  intros Hawait streamUrl final.
  destruct (piped_play_awaiting st song ctx Hawait) as (Hc & Hp & Hfb & _ & Ha).
  split.
  - intros failed instance rest u -> Hfailed Hret Hu.
    assert (streamUrl = Url u) as Hurl.
    { subst streamUrl. unfold PipedService.getStreamUrl.
      by rewrite (resolveOn_first net _ failed instance rest (Url u) Hfailed Hret). }
    subst final. rewrite Hurl. clearbody streamUrl.
    destruct (piped_resolution_sets_current song u (PipedApp.play song ctx st).1 Hu)
      as (Hc2 & Hr2 & Hsrc2).
    rewrite Hfb in Hsrc2. simpl in Hsrc2.
    split_and!; [done..| |done].
    unfold PipedApp.resolve.
    apply (piped_render_playing _ (withAudioUrl u song)).
    + unfold PipedApp.resolved. by rewrite Hu.
    + unfold PipedApp.resolved. by rewrite Hu.
    + simpl. by rewrite Hu.
    + unfold PipedApp.resolved. rewrite Hu. simpl. exact Hp.
  - intros Hall.
    assert (streamUrl = Null) as Hnull.
    { subst streamUrl. unfold PipedService.getStreamUrl.
      by rewrite resolveOn_exhausted. }
    subst final. rewrite Hnull. clearbody streamUrl.
    unfold PipedApp.resolve.
    rewrite (piped_resolution_unusable st song ctx Null Hawait eq_refl).
    set (st1 := (PipedApp.play song ctx st).1) in *.
    set (st2 := PipedApp.setIsResolvingAudio _ _).
    destruct (piped_render_frame st2) as (_ & _ & -> & -> & -> & ->).
    split_and!; [done|done| |].
    + intros Hprev. rewrite piped_render_src.
      assert (st2 = PipedApp.setIsResolvingAudio false
                      (PipedApp.setUsingPreview true st1))
        as -> by (subst st2; by rewrite Hprev).
      split_and!; [done| |].
      * unfold PipedApp.srcProp. simpl. by rewrite Hc, Hprev.
      * apply (piped_render_playing _ song); simpl; try done.
        by rewrite orb_true_r.
    + intros Hprev. subst st2. rewrite Hprev. simpl. by rewrite Ha.
Qed.

Lemma play_through_pool_witness :
  Audio.src
    (PipedApp.audio
       (PipedApp.resolve trackA
          (Ok (PipedService.getStreamUrl (onlyInstance "https://api.piped.ot.ax")
                 Query.query PipedService.STREAM_APIS (title trackA) (artist trackA)).2)
          (PipedApp.play trackA (Some [trackA; trackB]) PipedApp.initial).1))
  = Some "https://cdn.example/full.m4a".
Proof.
  destruct (play_through_pool PipedApp.initial trackA (Some [trackA; trackB])
              (onlyInstance "https://api.piped.ot.ax") PipedService.STREAM_APIS)
    as [Hserved _]; [reflexivity|].
  destruct (Hserved ["https://pipedapi.kavin.rocks"] "https://api.piped.ot.ax"
              (drop 2 PipedService.STREAM_APIS) "https://cdn.example/full.m4a")
    as (_ & _ & Hsrc & _).
  - reflexivity.
  - intros i ->%list_elem_of_singleton. reflexivity.
  - reflexivity.
  - reflexivity.
  - exact Hsrc.
Defined.
